(** * Diora blockchain node: state machine, stake-weighted consensus and
      bytecode interpreter

    A shallow embedding of the Go packages [core] (the chain, the account
    state, the common types), [vm] (the interpreter) and [consensus]
    ([consensus/pos.go]), and the properties of the specification settled
    against it.

    Conventions of the embedding.
    - [*big.Int] is [Z]; [uint64] is a [Z] in [[0, 2^64)] whose additions and
      subtractions are written with their wrap-around; [int64(x)] and
      [x.Uint64()] are written out as conversions.
    - [Address] ([[20]byte]) and [Hash] ([[32]byte]) are the big-endian
      numbers the arrays hold (160 and 256 bits); [a.Bytes()] is the
      fixed-width byte string.  Variable-length byte slices are [list byte].
    - A Go function that can panic returns an [outcome]; an [error] result is
      an [option error] ([None] is [nil]).
    - Pointers to structs that are shared (the LevelDB handle held by both the
      chain and the state, the state held by both the chain and the VM) are a
      single component of the enclosing record.
    - A call that does not return to its caller is a [Panic]: a run-time
      panic, or [Deadlock] when the goroutine waits for ever for a lock.  A
      mutex is part of the embedding where a method asks for it while the
      goroutine holds it: the setters of the state take [s.mu.Lock()] and then
      call [GetAccount], which asks for [s.mu.RLock()]; [sync.RWMutex] is not
      reentrant, so no setter returns.  No other mutex is asked for by a
      goroutine that holds it for writing; those are left out.
    - [make] and [append] beyond the largest allocation of the runtime panic;
      below it the embedding grants the memory.
    - [time.Now()], [crypto/rand] and the iteration order of [range] over a
      registry map are explicit arguments. *)

From Stdlib Require Import ZArith Lia List Bool Strings.Byte String.
From Equations Require Import Equations.
From stdpp Require Import base option list gmap.
From stdpp Require Import relations.
From Stdlib Require Import Sorting.Sorted.

Local Open Scope Z_scope.

(** ** Outcomes, panics and errors *)

Inductive panic : Type :=
| NilDereference        (* invalid memory address or nil pointer dereference *)
| DivisionByZero        (* big.Int: division by zero *)
| SliceBounds           (* slice bounds out of range *)
| LenOutOfRange         (* makeslice, growslice: len out of range *)
| Deadlock.             (* the goroutine waits for a lock that it holds *)

Inductive outcome (A : Type) : Type :=
| Ret (a : A)
| Panic (p : panic).
Arguments Ret {A} a.
Arguments Panic {A} p.

#[global] Instance outcome_ret : MRet outcome := fun A a => Ret a.

#[global] Instance outcome_bind : MBind outcome := fun A B k m =>
  match m with
  | Ret a => k a
  | Panic p => Panic p
  end.

(** Go [error] values.  [Errorf msg] is [fmt.Errorf(msg, ...)] (the format
    string identifies the error), [Errorw msg e] is
    [fmt.Errorf(msg + ": %w", ..., e)]; the others are the sentinels. *)
Inductive error : Type :=
| leveldb_ErrNotFound
| leveldb_ErrIO
| ErrBlockNotFound
| ErrInvalidBlock
| ErrInvalidChain
| ErrInsufficientBalance
| Errorf (msg : string)
| Errorw (msg : string) (cause : error).

(** ** Machine integers and big integers *)

Definition two64 : Z := 2 ^ 64.

Definition is_uint64 (x : Z) : Prop := 0 <= x < two64.

Definition u64_add (a b : Z) : Z := (a + b) mod two64.
Definition u64_sub (a b : Z) : Z := (a - b) mod two64.

(** [int64(u)] for [u : uint64]. *)
Definition int64_of_uint64 (u : Z) : Z :=
  if u <? 2 ^ 63 then u else u - two64.

(** [x.Uint64()]: the low 64 bits of the magnitude. *)
Definition big_Uint64 (x : Z) : Z := Z.abs x mod two64.

(** [x.Div(x, y)] is Euclidean division (the remainder is never negative)
    and panics on a zero divisor. *)
Definition big_Div (x y : Z) : outcome Z :=
  if y =? 0 then Panic DivisionByZero else Ret (Z.sgn y * (x / Z.abs y)).

(** ** Bytes *)

#[global] Instance byte_eq_dec : EqDecision byte := Byte.byte_eq_dec.

Lemma byte_of_to_N (b : byte) : default x00 (Byte.of_N (Byte.to_N b)) = b.
Proof. rewrite Byte.of_to_N. reflexivity. Qed.

#[global] Instance byte_countable : Countable byte :=
  inj_countable' Byte.to_N (fun n => default x00 (Byte.of_N n)) byte_of_to_N.

Definition len {A} (l : list A) : Z := Z.of_nat (length l).

Definition byte_of_Z (z : Z) : byte :=
  default x00 (Byte.of_N (Z.to_N (z mod 256))).

Definition Z_of_byte (b : byte) : Z := Z.of_N (Byte.to_N b).

Fixpoint be_bytes (fuel : nat) (n : Z) (acc : list byte) : list byte :=
  match fuel with
  | O => acc
  | S f => if n =? 0 then acc
           else be_bytes f (n / 256) (byte_of_Z n :: acc)
  end.

(** [x.Bytes()]: the big-endian magnitude, without leading zeros. *)
Definition big_Bytes (x : Z) : list byte :=
  be_bytes (Z.to_nat (Z.log2 (Z.abs x) + 1)) (Z.abs x) [].

(** [new(big.Int).SetBytes(b)]: the big-endian unsigned value. *)
Definition big_SetBytes (b : list byte) : Z :=
  fold_left (fun acc x => acc * 256 + Z_of_byte x) b 0.

(** The [w] bytes of a fixed-size array holding the number [x]. *)
Fixpoint fixed_bytes (w : nat) (x : Z) : list byte :=
  match w with
  | O => []
  | S w' => fixed_bytes w' (x / 256) ++ [byte_of_Z x]
  end.

(** ** Common types of package [core] *)

Abbreviation Address := Z (only parsing).
Abbreviation Hash := Z (only parsing).

Definition Address_Bytes (a : Address) : list byte := fixed_bytes 20 a.
Definition Hash_Bytes (h : Hash) : list byte := fixed_bytes 32 h.

#[global] Arguments fixed_bytes : simpl never.
#[global] Arguments Address_Bytes : simpl never.
#[global] Arguments Hash_Bytes : simpl never.

(** [BytesToHash]: keeps the last 32 bytes, right-aligned. *)
Definition BytesToHash (b : list byte) : Hash := big_SetBytes b mod 2 ^ 256.
Definition BytesToAddress (b : list byte) : Address := big_SetBytes b mod 2 ^ 160.
Definition HashToBig (h : Hash) : Z := h.

Record Log : Type := mkLog {
  log_Address : Address;
  log_Topics : list Hash;
  log_Data : list byte
}.

(** [Receipt]; the fields no code path sets keep their zero value and are
    left out. *)
Record Receipt : Type := mkReceipt {
  r_TransactionHash : Hash;
  r_Status : Z;
  r_GasUsed : Z;
  r_Logs : list Log
}.

Record Transaction : Type := mkTransaction {
  tx_Nonce : Z;
  tx_GasPrice : Z;
  tx_GasLimit : Z;
  tx_To : option Address;
  tx_Value : Z;
  tx_Data : list byte;
  tx_V : Z;
  tx_R : Z;
  tx_S : Z;
  tx_Hash : Hash;
  tx_From : Address
}.

Record BlockHeader : Type := mkBlockHeader {
  h_ParentHash : Hash;
  h_Coinbase : Address;
  h_StateRoot : Hash;
  h_TxRoot : Hash;
  h_ReceiptRoot : Hash;
  h_Difficulty : Z;
  h_Number : Z;
  h_GasLimit : Z;
  h_GasUsed : Z;
  h_Timestamp : Z;
  h_ExtraData : list byte;
  h_MixHash : Hash;
  h_Nonce : list byte;
  h_Validator : Address;
  h_Signature : list byte
}.

Record Block : Type := mkBlock {
  b_Header : BlockHeader;
  b_Transactions : list Transaction;
  b_Hash : Hash;
  b_Size : Z
}.

Record Account : Type := mkAccount {
  acc_Nonce : Z;
  acc_Balance : Z;
  acc_CodeHash : list byte;
  acc_Code : list byte;
  acc_Storage : gmap Z Z
}.

(** ** The key-value store

    [*leveldb.DB] as the core uses it: [Get] and [Put].  The store is a finite
    map; [db_faults] is the schedule of I/O failures of the environment, one
    entry consumed by each operation ([true]: this operation fails with an I/O
    error; an exhausted schedule means no more failures). *)

Record DB : Type := mkDB {
  db_kv : gmap (list byte) (list byte);
  db_faults : list bool
}.

Definition db_tick (db : DB) : bool * DB :=
  match db_faults db with
  | [] => (false, db)
  | f :: fs => (f, mkDB (db_kv db) fs)
  end.

Definition db_Get (db : DB) (key : list byte) : (list byte + error) * DB :=
  let '(fault, db') := db_tick db in
  if fault then (inr leveldb_ErrIO, db')
  else match db_kv db' !! key with
       | Some v => (inl v, db')
       | None => (inr leveldb_ErrNotFound, db')
       end.

Definition db_Put (db : DB) (key value : list byte) : option error * DB :=
  let '(fault, db') := db_tick db in
  if fault then (Some leveldb_ErrIO, db')
  else (None, mkDB (<[key := value]> (db_kv db')) (db_faults db')).

(** ** The account state: [core.State]

    [State.db] is the handle the chain holds too, so the store lives in the
    state and the chain reaches it through the state.  The cache maps an
    address to its [*Account]; no account is shared between two addresses, so
    a mutation through the pointer is an update of the cache entry. *)

Record State : Type := mkState {
  s_db : DB;
  s_cache : gmap Z Account
}.

Definition NewState (db : DB) : State := mkState db ∅.

Definition GetAccount (s : State) (addr : Address) : Account * State :=
  match s_cache s !! addr with
  | Some account => (account, s)
  | None =>
      let '(r, db') := db_Get (s_db s) (Address_Bytes addr) in
      let balance := match r with
                     | inl data => big_SetBytes data
                     | inr _ => 0
                     end in
      let account := mkAccount 0 balance [] [] ∅ in
      (account, mkState db' (<[addr := account]> (s_cache s)))
  end.

(** [s.mu] as the running goroutine finds it: free, or held for writing by
    the goroutine itself. *)
Inductive mutex : Type := Unlocked | WriteLocked.

(** [s.mu.RLock()]: granted on a free lock; on a lock that the goroutine
    holds for writing it waits for an [Unlock] that only the goroutine itself
    could make. *)
Definition RLock (mu : mutex) : outcome unit :=
  match mu with
  | Unlocked => Ret tt
  | WriteLocked => Panic Deadlock
  end.

(** [GetAccount] as a caller that holds [mu] gets it; [GetAccount] above is
    the call with the lock free. *)
Definition GetAccount_holding (mu : mutex) (s : State) (addr : Address)
  : outcome (Account * State) :=
  _ ← RLock mu;
  Ret (GetAccount s addr).

(** The body that the setters share: [s.mu.Lock()], then
    [account := s.GetAccount(addr)], then a write through the pointer [f]. *)
Definition update_account (s : State) (addr : Address) (f : Account -> Account)
  : outcome State :=
  '(account, s') ← GetAccount_holding WriteLocked s addr;
  Ret (mkState (s_db s') (<[addr := f account]> (s_cache s'))).

Definition SetBalance (s : State) (addr : Address) (balance : Z) : outcome State :=
  update_account s addr (fun a =>
    mkAccount (acc_Nonce a) balance (acc_CodeHash a) (acc_Code a) (acc_Storage a)).

Definition GetBalance (s : State) (addr : Address) : Z * State :=
  let '(account, s') := GetAccount s addr in (acc_Balance account, s').

Definition SetNonce (s : State) (addr : Address) (nonce : Z) : outcome State :=
  update_account s addr (fun a =>
    mkAccount nonce (acc_Balance a) (acc_CodeHash a) (acc_Code a) (acc_Storage a)).

Definition GetNonce (s : State) (addr : Address) : Z * State :=
  let '(account, s') := GetAccount s addr in (acc_Nonce account, s').

Definition GetCode (s : State) (addr : Address) : list byte * State :=
  let '(account, s') := GetAccount s addr in (acc_Code account, s').

Definition GetCodeHash (s : State) (addr : Address) : list byte * State :=
  let '(account, s') := GetAccount s addr in (acc_CodeHash account, s').

Definition SetState (s : State) (addr : Address) (key value : Hash) : outcome State :=
  update_account s addr (fun a =>
    mkAccount (acc_Nonce a) (acc_Balance a) (acc_CodeHash a) (acc_Code a)
              (<[key := value]> (acc_Storage a))).

Definition GetState (s : State) (addr : Address) (key : Hash) : Hash * State :=
  let '(account, s') := GetAccount s addr in
  (default 0 (acc_Storage account !! key), s').

Definition State_Root (s : State) : Hash := 0.

Section StateHashing.

(** [sha256.New().Sum] behind [core.Keccak256Hash], and the [Keccak256] that
    [Commit] keys the code with. *)
Variable sha256_Sum : list byte -> list byte.
Variable Keccak256 : list byte -> list byte.

Definition core_Keccak256Hash (data : list byte) : Hash :=
  BytesToHash (sha256_Sum data).

Definition SetCode (s : State) (addr : Address) (code : list byte) : outcome State :=
  update_account s addr (fun a =>
    mkAccount (acc_Nonce a) (acc_Balance a)
              (Hash_Bytes (core_Keccak256Hash code)) code (acc_Storage a)).

(** The inner loop of [Commit]: the storage slots of one account. *)
Fixpoint commit_storage (db : DB) (addr : Address) (slots : list (Z * Z))
  : option error * DB :=
  match slots with
  | [] => (None, db)
  | (key, value) :: rest =>
      let storageKey := Address_Bytes addr ++ Hash_Bytes key in
      match db_Put db storageKey (Hash_Bytes value) with
      | (Some err, db') => (Some err, db')
      | (None, db') => commit_storage db' addr rest
      end
  end.

Definition commit_account (db : DB) (addr : Address) (account : Account)
  : option error * DB :=
  match db_Put db (Address_Bytes addr) (big_Bytes (acc_Balance account)) with
  | (Some err, db') => (Some err, db')
  | (None, db1) =>
      let r := if 0 <? len (acc_Code account)
               then db_Put db1 (Keccak256 (acc_Code account)) (acc_Code account)
               else (None, db1) in
      match r with
      | (Some err, db') => (Some err, db')
      | (None, db2) => commit_storage db2 addr (map_to_list (acc_Storage account))
      end
  end.

Fixpoint commit_accounts (db : DB) (accounts : list (Z * Account))
  : option error * DB :=
  match accounts with
  | [] => (None, db)
  | (addr, account) :: rest =>
      match commit_account db addr account with
      | (Some err, db') => (Some err, db')
      | (None, db') => commit_accounts db' rest
      end
  end.

(** [Commit].  Go leaves the order of [range] over the cache and over a
    storage map unspecified; the embedding walks them in the order of
    [map_to_list].  A failed [Put] returns at once and leaves the cache and
    the entries already written in place. *)
Definition Commit (s : State) : option error * State :=
  match commit_accounts (s_db s) (map_to_list (s_cache s)) with
  | (Some err, db') => (Some err, mkState db' (s_cache s))
  | (None, db') => (None, mkState db' ∅)
  end.

End StateHashing.

(** ** The bytecode interpreter: package [vm] *)

Record GasTable : Type := mkGasTable {
  gt_Zero : Z;
  gt_Base : Z;
  gt_VeryLow : Z;
  gt_Low : Z;
  gt_Mid : Z;
  gt_High : Z;
  gt_ExtCode : Z;
  gt_Balance : Z;
  gt_SLoad : Z;
  gt_SStore : Z;
  gt_Create : Z;
  gt_Call : Z;
  gt_SelfDestruct : Z
}.

Record Context : Type := mkContext {
  ctx_Origin : Address;
  ctx_GasPrice : Z;
  ctx_Coinbase : Address;
  ctx_Number : Z;
  ctx_Timestamp : Z;
  ctx_Difficulty : Z;
  ctx_GasLimit : Z
}.

Record Contract : Type := mkContract {
  c_Caller : Address;
  c_Address : Address;
  c_Value : Z;
  c_Input : list byte;
  c_Gas : Z;
  c_Code : list byte;
  c_CodeHash : list byte
}.

Record ExecutionResult : Type := mkExecutionResult {
  er_ReturnData : list byte;
  er_GasUsed : Z;
  er_Logs : list Log
}.

(** *** Opcodes.  [OpCode] is a byte, held as its value. *)

Definition STOP : Z := 0x00.
Definition ADD : Z := 0x01.
Definition MUL : Z := 0x02.
Definition SUB : Z := 0x03.
Definition DIV : Z := 0x04.
Definition SDIV : Z := 0x05.
Definition MOD : Z := 0x06.
Definition SMOD : Z := 0x07.
Definition ADDMOD : Z := 0x08.
Definition MULMOD : Z := 0x09.
Definition EXP : Z := 0x0a.
Definition SIGNEXTEND : Z := 0x0b.
Definition LT : Z := 0x10.
Definition GT : Z := 0x11.
Definition SLT : Z := 0x12.
Definition SGT : Z := 0x13.
Definition EQ : Z := 0x14.
Definition ISZERO : Z := 0x15.
Definition AND : Z := 0x16.
Definition OR : Z := 0x17.
Definition XOR : Z := 0x18.
Definition NOT : Z := 0x19.
Definition BYTE : Z := 0x1a.
Definition SHL : Z := 0x1b.
Definition SHR : Z := 0x1c.
Definition SAR : Z := 0x1d.
Definition POP : Z := 0x50.
Definition MLOAD : Z := 0x51.
Definition MSTORE : Z := 0x52.
Definition MSTORE8 : Z := 0x53.
Definition SLOAD : Z := 0x54.
Definition SSTORE : Z := 0x55.
Definition JUMP : Z := 0x56.
Definition JUMPI : Z := 0x57.
Definition PC : Z := 0x58.
Definition MSIZE : Z := 0x59.
Definition GAS : Z := 0x5a.
Definition JUMPDEST : Z := 0x5b.
Definition PUSH1 : Z := 0x60.
Definition PUSH2 : Z := 0x61.
Definition PUSH32 : Z := 0x7f.
Definition DUP1 : Z := 0x80.
Definition DUP16 : Z := 0x8f.
Definition SWAP1 : Z := 0x90.
Definition SWAP16 : Z := 0x9f.
Definition RETURN : Z := 0xf3.
Definition REVERT : Z := 0xfd.

Definition in_range (lo hi op : Z) : bool := (lo <=? op) && (op <=? hi).

(** [getGasCost].  The constants [PUSH3 .. PUSH31], [DUP2 .. DUP15] and
    [SWAP2 .. SWAP15] that the [switch] names are not declared in the source;
    they are the consecutive opcodes between the declared ends of each
    family, so the cases are ranges. *)
Definition getGasCost (gt : GasTable) (opcode : Z) : Z :=
  if opcode =? STOP then gt_Zero gt
  else if in_range ADD MULMOD opcode then gt_VeryLow gt
  else if in_range LT ISZERO opcode then gt_VeryLow gt
  else if in_range AND BYTE opcode then gt_VeryLow gt
  else if in_range SHL SAR opcode then gt_VeryLow gt
  else if opcode =? POP then gt_Base gt
  else if in_range MLOAD MSTORE8 opcode then gt_VeryLow gt
  else if opcode =? SLOAD then gt_SLoad gt
  else if opcode =? SSTORE then gt_SStore gt
  else if in_range JUMP GAS opcode then gt_Base gt
  else if in_range PUSH1 (PUSH1 + 7) opcode then gt_VeryLow gt
  else if in_range (PUSH1 + 8) (PUSH1 + 15) opcode then gt_Low gt
  else if in_range (PUSH1 + 16) (PUSH1 + 23) opcode then gt_Mid gt
  else if in_range (PUSH1 + 24) PUSH32 opcode then gt_High gt
  else if in_range DUP1 (DUP1 + 7) opcode then gt_VeryLow gt
  else if in_range (DUP1 + 8) DUP16 opcode then gt_Low gt
  else if in_range SWAP1 (SWAP1 + 7) opcode then gt_VeryLow gt
  else if in_range (SWAP1 + 8) SWAP16 opcode then gt_Low gt
  else if opcode =? RETURN then gt_Zero gt
  else if opcode =? REVERT then gt_Zero gt
  else gt_Base gt.

Definition defaultGasTable : GasTable :=
  mkGasTable 0 2 3 5 8 10 700 700 800 20000 32000 700 5000.

(** *** Stack and memory.  The head of the list is the top of the stack (the
    last element of the Go slice). *)

Definition Stack := list Z.

Definition newStack : Stack := [].

Definition push (d : Z) (s : Stack) : Stack := d :: s.

Definition pop (s : Stack) : Z * Stack :=
  match s with
  | [] => (0, [])
  | d :: s' => (d, s')
  end.

Definition peek (s : Stack) : Z :=
  match s with
  | [] => 0
  | d :: _ => d
  end.

Definition Memory := list byte.

Definition newMemory : Memory := [].

Definition zeros (n : Z) : list byte := repeat x00 (Z.to_nat n).

(** [copy(dst[offset:], src)] on a [dst] that is long enough. *)
Definition copy_at (dst : list byte) (offset : Z) (src : list byte) : list byte :=
  let off := Z.to_nat offset in
  let n := Nat.min (length dst - off) (length src) in
  take off dst ++ take n src ++ drop (off + n) dst.

(** The largest allocation that the runtime attempts on a 64-bit platform.
    [make([]byte, n)] and an [append] that needs more panic; below the limit
    the allocation succeeds when the machine has the memory, which the
    embedding takes for granted. *)
Definition maxAlloc : Z := 2 ^ 48.

Definition make_bytes (n : Z) : outcome (list byte) :=
  if maxAlloc <? n then Panic LenOutOfRange else Ret (zeros n).

Definition append_bytes (s extra : list byte) : outcome (list byte) :=
  if maxAlloc <? len s + len extra then Panic LenOutOfRange else Ret (s ++ extra).

Definition Memory_Set (m : Memory) (offset size : Z) (value : list byte) : outcome Memory :=
  let end_ := u64_add offset size in
  store ← (if len m <? end_
           then extra ← make_bytes (end_ - len m); append_bytes m extra
           else Ret m);
  if len store <? offset then Panic SliceBounds
  else Ret (copy_at store offset value).

Definition Memory_Get (m : Memory) (offset size : Z) : outcome (list byte) :=
  let end0 := u64_add offset size in
  let end_ := if len m <? end0 then len m else end0 in
  if end_ <=? offset then make_bytes size
  else
    result ← make_bytes size;
    Ret (copy_at result 0
           (take (Z.to_nat (end_ - offset)) (drop (Z.to_nat offset) m))).

Definition Memory_Len (m : Memory) : Z := len m.

Definition Memory_Data (m : Memory) : list byte := m.

(** *** Operations.  The machine is what an operation can touch: the
    contract frame, the stack, the memory and the state. *)

Record Machine : Type := mkMachine {
  m_contract : Contract;
  m_stack : Stack;
  m_memory : Memory;
  m_state : State
}.

Definition with_stack (m : Machine) (s : Stack) : Machine :=
  mkMachine (m_contract m) s (m_memory m) (m_state m).

Definition with_Code (c : Contract) (code : list byte) : Contract :=
  mkContract (c_Caller c) (c_Address c) (c_Value c) (c_Input c) (c_Gas c)
             code (c_CodeHash c).

Definition with_Gas (c : Contract) (gas : Z) : Contract :=
  mkContract (c_Caller c) (c_Address c) (c_Value c) (c_Input c) gas
             (c_Code c) (c_CodeHash c).

(** The [*result] of an operation: its [err] field, next to the machine. *)
Definition op_result : Type := outcome (option error * Machine).

Definition binop (f : Z -> Z -> Z) (m : Machine) : op_result :=
  let '(x, s1) := pop (m_stack m) in
  let '(y, s2) := pop s1 in
  Ret (None, with_stack m (push (f x y) s2)).

Definition bool_to_big (b : bool) : Z := if b then 1 else 0.

Definition opAdd : Machine -> op_result := binop Z.add.
Definition opMul : Machine -> op_result := binop Z.mul.
Definition opSub : Machine -> op_result := binop Z.sub.

Definition opDiv (m : Machine) : op_result :=
  let '(x, s1) := pop (m_stack m) in
  let '(y, s2) := pop s1 in
  if Z.sgn y =? 0 then Ret (None, with_stack m (push 0 s2))
  else q ← big_Div x y; Ret (None, with_stack m (push q s2)).

Definition opLt : Machine -> op_result := binop (fun x y => bool_to_big (x <? y)).
Definition opGt : Machine -> op_result := binop (fun x y => bool_to_big (x >? y)).
Definition opEq : Machine -> op_result := binop (fun x y => bool_to_big (x =? y)).

Definition opIszero (m : Machine) : op_result :=
  let '(x, s1) := pop (m_stack m) in
  Ret (None, with_stack m (push (bool_to_big (Z.sgn x =? 0)) s1)).

Definition opAnd : Machine -> op_result := binop Z.land.
Definition opOr : Machine -> op_result := binop Z.lor.
Definition opXor : Machine -> op_result := binop Z.lxor.

Definition opNot (m : Machine) : op_result :=
  let '(x, s1) := pop (m_stack m) in
  Ret (None, with_stack m (push (Z.lnot x) s1)).

Definition opPop (m : Machine) : op_result :=
  let '(_, s1) := pop (m_stack m) in
  Ret (None, with_stack m s1).

Definition opDup1 (m : Machine) : op_result :=
  let x := peek (m_stack m) in
  Ret (None, with_stack m (push x (m_stack m))).

Definition opSwap1 (m : Machine) : op_result :=
  let '(x, s1) := pop (m_stack m) in
  let '(y, s2) := pop s1 in
  Ret (None, with_stack m (push y (push x s2))).

Definition opMload (m : Machine) : op_result :=
  let '(x, s1) := pop (m_stack m) in
  let offset := big_Uint64 x in
  data ← Memory_Get (m_memory m) offset 32;
  Ret (None, with_stack m (push (big_SetBytes data) s1)).

Definition opMstore (m : Machine) : op_result :=
  let '(offset, s1) := pop (m_stack m) in
  let '(value, s2) := pop s1 in
  mem ← Memory_Set (m_memory m) (big_Uint64 offset) 32 (big_Bytes value);
  Ret (None, mkMachine (m_contract m) s2 mem (m_state m)).

(** [value.Bytes()[:1]] panics when [value] is zero: the slice is empty. *)
Definition opMstore8 (m : Machine) : op_result :=
  let '(offset, s1) := pop (m_stack m) in
  let '(value, s2) := pop s1 in
  match big_Bytes value with
  | [] => Panic SliceBounds
  | b :: _ =>
      mem ← Memory_Set (m_memory m) (big_Uint64 offset) 1 [b];
      Ret (None, mkMachine (m_contract m) s2 mem (m_state m))
  end.

(** [contract.EVM.State], which [opSload] and [opSstore] read.  The frames
    that [ExecuteTransaction], [CreateContract] and [Call] build name the
    fields [Caller], [Address], [Value], [Input], [Gas], [Code] and
    [CodeHash]; nothing sets [EVM], so it holds its zero value and reaching
    the state through it is a nil dereference. *)
Definition contract_EVM_State (c : Contract) : outcome State :=
  Panic NilDereference.

Definition opSload (m : Machine) : op_result :=
  let '(k, s1) := pop (m_stack m) in
  let hash := BytesToHash (big_Bytes k) in
  st ← contract_EVM_State (m_contract m);
  let '(value, st') := GetState st (c_Address (m_contract m)) hash in
  Ret (None, mkMachine (m_contract m) (push (HashToBig value) s1) (m_memory m) st').

Definition opSstore (m : Machine) : op_result :=
  let '(k, s1) := pop (m_stack m) in
  let hash := BytesToHash (big_Bytes k) in
  let '(value, s2) := pop s1 in
  st ← contract_EVM_State (m_contract m);
  st' ← SetState st (c_Address (m_contract m)) hash (BytesToHash (big_Bytes value));
  Ret (None, mkMachine (m_contract m) s2 (m_memory m) st').

Definition opJump (m : Machine) : op_result := Ret (None, m).
Definition opJumpi (m : Machine) : op_result := Ret (None, m).

Definition opPc (m : Machine) : op_result :=
  Ret (None, with_stack m (push (len (c_Code (m_contract m))) (m_stack m))).

Definition opMsize (m : Machine) : op_result :=
  Ret (None, with_stack m (push (int64_of_uint64 (Memory_Len (m_memory m))) (m_stack m))).

Definition opGas (m : Machine) : op_result :=
  Ret (None, with_stack m (push (int64_of_uint64 (c_Gas (m_contract m))) (m_stack m))).

Definition makePush (size : Z) (m : Machine) : op_result :=
  let code := c_Code (m_contract m) in
  if len code <? size
  then Ret (Some (Errorf "insufficient data for PUSH%d"), m)
  else
    let data := take (Z.to_nat size) code in
    let contract := with_Code (m_contract m) (drop (Z.to_nat size) code) in
    Ret (None, mkMachine contract (push (big_SetBytes data) (m_stack m))
                         (m_memory m) (m_state m)).

(** *** The jump table.  An [operation] whose [execute] is [nil] is [None]. *)

Inductive operation : Type :=
| OpAdd | OpMul | OpSub | OpDiv
| OpLt | OpGt | OpEq | OpIszero
| OpAnd | OpOr | OpXor | OpNot
| OpPop | OpDup1 | OpSwap1
| OpMload | OpMstore | OpMstore8
| OpSload | OpSstore
| OpJump | OpJumpi | OpPc | OpMsize | OpGas
| OpPush (size : Z).

Definition execute (o : operation) : Machine -> op_result :=
  match o with
  | OpAdd => opAdd | OpMul => opMul | OpSub => opSub | OpDiv => opDiv
  | OpLt => opLt | OpGt => opGt | OpEq => opEq | OpIszero => opIszero
  | OpAnd => opAnd | OpOr => opOr | OpXor => opXor | OpNot => opNot
  | OpPop => opPop | OpDup1 => opDup1 | OpSwap1 => opSwap1
  | OpMload => opMload | OpMstore => opMstore | OpMstore8 => opMstore8
  | OpSload => opSload | OpSstore => opSstore
  | OpJump => opJump | OpJumpi => opJumpi | OpPc => opPc
  | OpMsize => opMsize | OpGas => opGas
  | OpPush size => makePush size
  end.

Definition JumpTable : Type := Z -> option operation.

Definition newJumpTable : JumpTable := fun opcode =>
  if opcode =? ADD then Some OpAdd
  else if opcode =? MUL then Some OpMul
  else if opcode =? SUB then Some OpSub
  else if opcode =? DIV then Some OpDiv
  else if opcode =? LT then Some OpLt
  else if opcode =? GT then Some OpGt
  else if opcode =? EQ then Some OpEq
  else if opcode =? ISZERO then Some OpIszero
  else if opcode =? AND then Some OpAnd
  else if opcode =? OR then Some OpOr
  else if opcode =? XOR then Some OpXor
  else if opcode =? NOT then Some OpNot
  else if opcode =? POP then Some OpPop
  else if opcode =? DUP1 then Some OpDup1
  else if opcode =? SWAP1 then Some OpSwap1
  else if opcode =? MLOAD then Some OpMload
  else if opcode =? MSTORE then Some OpMstore
  else if opcode =? MSTORE8 then Some OpMstore8
  else if opcode =? SLOAD then Some OpSload
  else if opcode =? SSTORE then Some OpSstore
  else if opcode =? JUMP then Some OpJump
  else if opcode =? JUMPI then Some OpJumpi
  else if opcode =? PC then Some OpPc
  else if opcode =? MSIZE then Some OpMsize
  else if opcode =? GAS then Some OpGas
  else if in_range PUSH1 (PUSH1 + 31) opcode then Some (OpPush (opcode - PUSH1 + 1))
  else None.

(** [Interpreter].  [in_evm] is the gas table of the [*EVM] that [in.evm]
    points to, [None] when the pointer is [nil]. *)
Record Interpreter : Type := mkInterpreter {
  in_evm : option GasTable;
  in_table : JumpTable
}.

Definition NewInterpreter (evm : option GasTable) : Interpreter :=
  mkInterpreter evm newJumpTable.

(** *** [Interpreter.Run]: one turn of the loop, then the loop. *)

Inductive step_result : Type :=
| Halt (m : Machine)                (* [break]: the loop is left *)
| Next (m : Machine)                (* the loop goes round again *)
| Fail (err : error) (m : Machine)  (* [return nil, err] *)
| Crash (p : panic).

Definition with_contract (m : Machine) (c : Contract) : Machine :=
  mkMachine c (m_stack m) (m_memory m) (m_state m).

Definition step (in_ : Interpreter) (m : Machine) : step_result :=
  match c_Code (m_contract m) with
  | [] => Halt m
  | b :: rest =>
      let opcode := Z_of_byte b in
      let m1 := with_contract m (with_Code (m_contract m) rest) in
      match in_evm in_ with
      | None => Crash NilDereference
      | Some gasTable =>
          let gasCost := getGasCost gasTable opcode in
          if c_Gas (m_contract m1) <? gasCost
          then Fail (Errorf "out of gas") m1
          else
            let m2 := with_contract m1
                        (with_Gas (m_contract m1)
                                  (u64_sub (c_Gas (m_contract m1)) gasCost)) in
            match in_table in_ opcode with
            | None => Fail (Errorf "invalid opcode: %d") m2
            | Some o =>
                match execute o m2 with
                | Panic p => Crash p
                | Ret (Some err, m3) => Fail err m3
                | Ret (None, m3) =>
                    if (opcode =? STOP) || (opcode =? RETURN)
                    then Halt m3 else Next m3
                end
            end
      end
  end.

Definition code_length (m : Machine) : nat := length (c_Code (m_contract m)).

Lemma execute_code_length (o : operation) (m m' : Machine) (e : option error) :
  execute o m = Ret (e, m') -> (code_length m' <= code_length m)%nat.
Proof.
  unfold code_length.
  destruct o; cbn;
    unfold opAdd, opMul, opSub, opLt, opGt, opEq, opAnd, opOr, opXor,
      binop, opDiv, opIszero, opNot, opPop, opDup1, opSwap1, opMload,
      opMstore, opMstore8, opSload, opSstore, contract_EVM_State, opJump, opJumpi,
      opPc, opMsize, opGas, makePush, mbind, outcome_bind, big_Div;
    repeat match goal with
           | |- context [pop ?s] => destruct (pop s)
           | |- context [if ?b then _ else _] => destruct b
           | |- context [Memory_Set ?a ?b ?c ?d] => destruct (Memory_Set a b c d)
           | |- context [Memory_Get ?a ?b ?c] => destruct (Memory_Get a b c)
           | |- context [big_Bytes ?v] => destruct (big_Bytes v)
           end;
    intros H; inversion H; subst; cbn; try lia.
  rewrite length_drop. lia.
Qed.

Lemma step_Next_decreases (in_ : Interpreter) (m m' : Machine) :
  step in_ m = Next m' -> (code_length m' < code_length m)%nat.
Proof.
  unfold step.
  destruct (c_Code (m_contract m)) as [|b rest] eqn:Hcode; [discriminate|].
  destruct (in_evm in_) as [gasTable|]; [|discriminate].
  destruct (_ <? _); [discriminate|].
  destruct (in_table in_ _) as [o|]; [|discriminate].
  destruct (execute o _) as [[[err|] m3]|p] eqn:Hex; try discriminate.
  destruct (_ || _); [discriminate|].
  intros [= <-].
  apply execute_code_length in Hex.
  unfold code_length in *. rewrite Hcode. cbn in *. lia.
Qed.

(** Keeps the equation [step in_ m = r] next to the result that is matched. *)
Definition inspect {A : Type} (x : A) : {y : A | x = y} := exist _ x eq_refl.

Equations? Run_loop (in_ : Interpreter) (m : Machine)
  : outcome (option error * Machine) by wf (code_length m) lt :=
  Run_loop in_ m with inspect (step in_ m) := {
    | exist _ (Halt m') _ => Ret (None, m')
    | exist _ (Next m') Hstep => Run_loop in_ m'
    | exist _ (Fail err m') _ => Ret (Some err, m')
    | exist _ (Crash p) _ => Panic p }.
Proof. exact (step_Next_decreases _ _ _ Hstep). Qed.

(** [Run] works on the [*Contract] it is given: the machine it returns holds
    the contract as the caller sees it afterwards.  The first component is
    the pair of results: the [*ExecutionResult] or the error. *)
Definition Run (in_ : Interpreter) (contract : Contract) (ctx : Context) (st : State)
  : outcome ((ExecutionResult + error) * Machine) :=
  '(err, m) ← Run_loop in_ (mkMachine contract newStack newMemory st);
  match err with
  | Some e => Ret (inr e, m)
  | None =>
      Ret (inl (mkExecutionResult (Memory_Data (m_memory m))
                                  (c_Gas (m_contract m)) []), m)
  end.

(** *** The EVM.  [core.Config] is the chain configuration; [evm.state] is the
    state of the chain and is passed to each call. *)

Record Config : Type := mkConfig {
  cfg_ChainID : Z;
  cfg_NetworkID : Z;
  cfg_BlockTime : Z;
  cfg_GasLimit : Z;
  cfg_MinGasPrice : Z;
  cfg_MaxBlockSize : Z;
  cfg_StakeAmount : Z;
  cfg_ValidatorCount : Z
}.

Record EVM : Type := mkEVM {
  evm_config : Config;
  evm_interpreter : Interpreter;
  evm_gasTable : GasTable
}.

(** [NewEVM] hands [nil] to [NewInterpreter]. *)
Definition NewEVM (config : Config) : EVM :=
  mkEVM config (NewInterpreter None) defaultGasTable.

Definition createContext (tx : Transaction) : Context :=
  mkContext (tx_From tx) (tx_GasPrice tx) 0 0 0 1 (tx_GasLimit tx).

Definition createContextForContract (evm : EVM) (caller : Address) : Context :=
  mkContext caller (cfg_MinGasPrice (evm_config evm)) 0 0 0 1
            (cfg_GasLimit (evm_config evm)).

(** [ExecuteTransaction] returns a receipt and an error together; [*tx.To]
    is evaluated while the frame is built, before anything else happens.
    After a run without error it calls [SetNonce], which does not return. *)
Definition ExecuteTransaction (evm : EVM) (st : State) (tx : Transaction)
  : outcome (Receipt * option error * State) :=
  let ctx := createContext tx in
  match tx_To tx with
  | None => Panic NilDereference
  | Some to =>
      let '(code, st1) := GetCode st to in
      let '(codeHash, st2) := GetCodeHash st1 to in
      let contract := mkContract (tx_From tx) to (tx_Value tx) (tx_Data tx)
                                 (tx_GasLimit tx) code codeHash in
      '(res, m) ← Run (evm_interpreter evm) contract ctx st2;
      let contract' := m_contract m in
      match res with
      | inr err =>
          Ret (mkReceipt (tx_Hash tx) 0
                         (u64_sub (tx_GasLimit tx) (c_Gas contract')) [],
               Some err, m_state m)
      | inl result =>
          let receipt := mkReceipt (tx_Hash tx) 1
                           (u64_sub (tx_GasLimit tx) (c_Gas contract'))
                           (er_Logs result) in
          let '(nonce, st3) := GetNonce (m_state m) (tx_From tx) in
          st4 ← SetNonce st3 (tx_From tx) (u64_add nonce 1);
          Ret (receipt, None, st4)
      end
  end.

Section Deployment.

Variable sha256_Sum : list byte -> list byte.

(** [crypto.CreateAddress] and [crypto.Keccak256Hash]. *)
Variable CreateAddress : Address -> Z -> Address.
Variable crypto_Keccak256Hash : list byte -> Hash.

Definition SetCodeHash (s : State) (addr : Address) (codeHash : list byte)
  : outcome State :=
  update_account s addr (fun a =>
    mkAccount (acc_Nonce a) (acc_Balance a) codeHash (acc_Code a) (acc_Storage a)).

Definition CreateContract (evm : EVM) (st : State) (caller : Address)
    (value : Z) (code : list byte) (gas : Z)
  : outcome (Address * Z * option error * State) :=
  let '(nonce, st1) := GetNonce st caller in
  let contractAddr := CreateAddress caller nonce in
  let contract := mkContract caller contractAddr value code gas code [] in
  let ctx := createContextForContract evm caller in
  '(res, m) ← Run (evm_interpreter evm) contract ctx st1;
  match res with
  | inr err => Ret (0, 0, Some err, m_state m)
  | inl result =>
      st2 ← SetCode sha256_Sum (m_state m) contractAddr (er_ReturnData result);
      st3 ← SetCodeHash st2 contractAddr
              (Hash_Bytes (crypto_Keccak256Hash (er_ReturnData result)));
      st4 ← SetNonce st3 caller (u64_add nonce 1);
      Ret (contractAddr, c_Gas (m_contract m), None, st4)
  end.

End Deployment.

Definition Call (evm : EVM) (st : State) (caller addr : Address)
    (value : Z) (input : list byte) (gas : Z)
  : outcome (list byte * Z * option error * State) :=
  let '(code, st1) := GetCode st addr in
  let contract := mkContract caller addr value input gas code [] in
  let ctx := createContextForContract evm caller in
  '(res, m) ← Run (evm_interpreter evm) contract ctx st1;
  match res with
  | inr err => Ret ([], 0, Some err, m_state m)
  | inl result => Ret (er_ReturnData result, c_Gas (m_contract m), None, m_state m)
  end.

(** ** The consensus engine: [consensus/pos.go]

    Instants and durations are integers (nanoseconds); the zero [time.Time]
    is [0]. *)

Inductive ValidatorStatus : Type :=
| ValidatorStatusInactive
| ValidatorStatusActive
| ValidatorStatusSlashed.

Inductive DelegationStatus : Type :=
| DelegationStatusActive
| DelegationStatusUnbonding
| DelegationStatusCompleted.

#[global] Instance ValidatorStatus_eq_dec : EqDecision ValidatorStatus.
Proof. solve_decision. Defined.

#[global] Instance DelegationStatus_eq_dec : EqDecision DelegationStatus.
Proof. solve_decision. Defined.

Record PublicKey : Type := mkPublicKey { pk_X : Z; pk_Y : Z }.

Record PrivateKey : Type := mkPrivateKey { sk_PublicKey : PublicKey; sk_D : Z }.

Record PoSConfig : Type := mkPoSConfig {
  MinStakeAmount : Z;
  MaxValidators : Z;
  UnbondingPeriod : Z;
  SlotDuration : Z;
  EpochLength : Z;
  RewardRate : Z;
  SlashRate : Z;
  CommissionRate : Z
}.

Record Validator : Type := mkValidator {
  v_Address : Address;
  v_Stake : Z;
  v_TotalDelegated : Z;
  v_Commission : Z;
  v_Status : ValidatorStatus;
  v_LastActive : Z;
  v_TotalBlocks : Z;
  v_Rewards : Z;
  v_PublicKey : option PublicKey
}.

Record Delegation : Type := mkDelegation {
  d_Delegator : Address;
  d_Validator : Address;
  d_Amount : Z;
  d_Rewards : Z;
  d_StartTime : Z;
  d_UnbondTime : Z;
  d_Status : DelegationStatus
}.

Record PoS : Type := mkPoS {
  pos_config : PoSConfig;
  pos_validators : gmap Z Validator;
  pos_delegators : gmap Z (list Delegation);
  pos_stakeAmount : Z;
  pos_totalStake : Z;
  pos_currentSlot : Z;
  pos_validator : Address;
  pos_privateKey : option PrivateKey
}.

Definition hour : Z := 3600 * 1000000000.
Definition second : Z := 1000000000.

Definition NewPoS (stakeAmount : Z) (maxValidators : Z) : PoS :=
  mkPoS (mkPoSConfig stakeAmount maxValidators (7 * 24 * hour) (6 * second) 100
                     1000000000000000000 500000000000000000 1000)
        ∅ ∅ stakeAmount 0 0 0 None.

Definition with_registry (pos : PoS) (validators : gmap Z Validator)
    (delegators : gmap Z (list Delegation)) (totalStake : Z) : PoS :=
  mkPoS (pos_config pos) validators delegators (pos_stakeAmount pos) totalStake
        (pos_currentSlot pos) (pos_validator pos) (pos_privateKey pos).

Definition SetValidator (pos : PoS) (address : Address) (privateKey : option PrivateKey) : PoS :=
  mkPoS (pos_config pos) (pos_validators pos) (pos_delegators pos)
        (pos_stakeAmount pos) (pos_totalStake pos) (pos_currentSlot pos)
        address privateKey.

Definition GetValidatorAddress (pos : PoS) : Address := pos_validator pos.

Definition RegisterValidator (pos : PoS) (now : Z) (address : Address) (stake : Z)
    (commission : Z) (publicKey : option PublicKey) : option error * PoS :=
  if stake <? MinStakeAmount (pos_config pos)
  then (Some (Errorf "stake amount too low: minimum %s"), pos)
  else if MaxValidators (pos_config pos) <=? Z.of_nat (size (pos_validators pos))
  then (Some (Errorf "maximum validators reached: %d"), pos)
  else match pos_validators pos !! address with
       | Some _ => (Some (Errorf "validator already registered"), pos)
       | None =>
           let validator := mkValidator address stake 0 commission
                              ValidatorStatusActive now 0 0 publicKey in
           (None, with_registry pos (<[address := validator]> (pos_validators pos))
                                (pos_delegators pos) (pos_totalStake pos + stake))
       end.

Definition add_TotalDelegated (v : Validator) (amount : Z) : Validator :=
  mkValidator (v_Address v) (v_Stake v) (v_TotalDelegated v + amount)
              (v_Commission v) (v_Status v) (v_LastActive v) (v_TotalBlocks v)
              (v_Rewards v) (v_PublicKey v).

Definition Delegate (pos : PoS) (now : Z) (delegator validator : Address) (amount : Z)
  : option error * PoS :=
  match pos_validators pos !! validator with
  | None => (Some (Errorf "validator not found"), pos)
  | Some v =>
      if bool_decide (v_Status v <> ValidatorStatusActive)
      then (Some (Errorf "validator not active"), pos)
      else
        let delegation := mkDelegation delegator validator amount 0 now 0
                                       DelegationStatusActive in
        let delegations := default [] (pos_delegators pos !! delegator) in
        (None, with_registry pos
                 (<[validator := add_TotalDelegated v amount]> (pos_validators pos))
                 (<[delegator := delegations ++ [delegation]]> (pos_delegators pos))
                 (pos_totalStake pos + amount))
  end.

Definition with_unbonding (d : Delegation) (unbondTime : Z) : Delegation :=
  mkDelegation (d_Delegator d) (d_Validator d) (d_Amount d) (d_Rewards d)
               (d_StartTime d) unbondTime DelegationStatusUnbonding.

Definition with_status (d : Delegation) (status : DelegationStatus) : Delegation :=
  mkDelegation (d_Delegator d) (d_Validator d) (d_Amount d) (d_Rewards d)
               (d_StartTime d) (d_UnbondTime d) status.

Definition delegation_matches (validator : Address) (status : DelegationStatus)
    (d : Delegation) : bool :=
  (d_Validator d =? validator) && bool_decide (d_Status d = status).

(** The search loop of [Unbond]: the first active delegation to [validator],
    marked as unbonding in place, and the amount to take off. *)
Fixpoint Unbond_loop (unbondTime : Z) (validator : Address) (amount : Z)
    (delegations : list Delegation) : option (Z * list Delegation) :=
  match delegations with
  | [] => None
  | d :: rest =>
      if delegation_matches validator DelegationStatusActive d
      then
        let unbondAmount := if amount <? d_Amount d then amount else d_Amount d in
        Some (unbondAmount, with_unbonding d unbondTime :: rest)
      else
        match Unbond_loop unbondTime validator amount rest with
        | None => None
        | Some (a, rest') => Some (a, d :: rest')
        end
  end.

Definition Unbond (pos : PoS) (now : Z) (delegator validator : Address) (amount : Z)
  : outcome (option error * PoS) :=
  match pos_delegators pos !! delegator with
  | None => Ret (Some (Errorf "no delegations found"), pos)
  | Some delegations =>
      match Unbond_loop (now + UnbondingPeriod (pos_config pos)) validator amount
                        delegations with
      | None => Ret (Some (Errorf "active delegation not found"), pos)
      | Some (unbondAmount, delegations') =>
          match pos_validators pos !! validator with
          | None => Panic NilDereference
          | Some v =>
              Ret (None, with_registry pos
                     (<[validator := add_TotalDelegated v (- unbondAmount)]>
                        (pos_validators pos))
                     (<[delegator := delegations']> (pos_delegators pos))
                     (pos_totalStake pos - unbondAmount))
          end
      end
  end.

(** The loop of [CompleteUnbonding]: it returns at the first unbonding
    delegation to [validator], with an error when that one is not due yet;
    [None] when the loop runs to its end. *)
Fixpoint CompleteUnbonding_loop (now : Z) (validator : Address)
    (delegations : list Delegation) : option ((Z + error) * list Delegation) :=
  match delegations with
  | [] => None
  | d :: rest =>
      if delegation_matches validator DelegationStatusUnbonding d
      then
        if now <? d_UnbondTime d
        then Some (inr (Errorf "unbonding period not completed"), d :: rest)
        else Some (inl (d_Amount d + d_Rewards d),
                   with_status d DelegationStatusCompleted :: rest)
      else
        match CompleteUnbonding_loop now validator rest with
        | None => None
        | Some (r, rest') => Some (r, d :: rest')
        end
  end.

Definition CompleteUnbonding (pos : PoS) (now : Z) (delegator validator : Address)
  : (Z + error) * PoS :=
  match pos_delegators pos !! delegator with
  | None => (inr (Errorf "no delegations found"), pos)
  | Some delegations =>
      match CompleteUnbonding_loop now validator delegations with
      | None => (inr (Errorf "unbonding delegation not found"), pos)
      | Some (r, delegations') =>
          (r, with_registry pos (pos_validators pos)
                (<[delegator := delegations']> (pos_delegators pos))
                (pos_totalStake pos))
      end
  end.

(** [range pos.validators]: [order] is the order in which this run of the
    loop visits the keys of the registry (Go leaves it unspecified); see
    [registry_order]. *)
Definition range_validators (pos : PoS) (order : list Z) : list Validator :=
  omap (fun k => pos_validators pos !! k) order.

Definition registry_order (pos : PoS) (order : list Z) : Prop :=
  order ≡ₚ (map_to_list (pos_validators pos)).*1.

Definition is_Active (v : Validator) : bool :=
  bool_decide (v_Status v = ValidatorStatusActive).

Definition getActiveValidators (pos : PoS) (order : list Z) : list Validator :=
  filter (fun v => is_Active v = true) (range_validators pos order).

Definition weight (v : Validator) : Z := v_Stake v + v_TotalDelegated v.

(** The selection loop: the first validator whose cumulative weight exceeds
    the draw. *)
Fixpoint select_loop (randNum cumulative : Z) (validators : list Validator)
  : option Address :=
  match validators with
  | [] => None
  | v :: rest =>
      let cumulative' := cumulative + weight v in
      if randNum <? cumulative' then Some (v_Address v)
      else select_loop randNum cumulative' rest
  end.

(** [SelectValidator]; [randBytes] are the 32 bytes that [rand.Read] fills
    in. *)
Definition SelectValidator (pos : PoS) (order : list Z) (randBytes : list byte)
    (slot : Z) : Address :=
  let activeValidators := getActiveValidators pos order in
  match activeValidators with
  | [] => 0
  | first :: _ =>
      let totalWeight := foldr Z.add 0 (weight <$> activeValidators) in
      if totalWeight =? 0 then 0
      else
        (* [randNum.Mod(randNum, totalWeight)]: the Euclidean modulus, on a
           modulus that is not zero *)
        let randNum := big_SetBytes randBytes mod Z.abs totalWeight in
        match select_loop randNum 0 activeValidators with
        | Some a => a
        | None => v_Address first
        end
  end.

Definition isCurrentValidator (pos : PoS) (order : list Z) (address : Address) : bool :=
  existsb (fun v => bool_decide (Address_Bytes (v_Address v) = Address_Bytes address))
          (getActiveValidators pos order).

Definition IsValidator (pos : PoS) (order : list Z) : bool :=
  negb (pos_validator pos =? 0) && isCurrentValidator pos order (pos_validator pos).

Definition with_Rewards (v : Validator) (rewards : Z) : Validator :=
  mkValidator (v_Address v) (v_Stake v) (v_TotalDelegated v) (v_Commission v)
              (v_Status v) (v_LastActive v) (v_TotalBlocks v) rewards
              (v_PublicKey v).

(** The body of the inner loop of [distributeDelegatorRewards]. *)
Definition reward_delegation (pos : PoS) (validator : Address) (reward : Z)
    (d : Delegation) : outcome Delegation :=
  if delegation_matches validator DelegationStatusActive d
  then
    match pos_validators pos !! validator with
    | None => Panic NilDereference
    | Some v =>
        delegationReward ← big_Div (reward * d_Amount d) (v_TotalDelegated v);
        Ret (mkDelegation (d_Delegator d) (d_Validator d) (d_Amount d)
                          (d_Rewards d + delegationReward) (d_StartTime d)
                          (d_UnbondTime d) (d_Status d))
    end
  else Ret d.

Fixpoint outcome_mapM {A B : Type} (f : A -> outcome B) (l : list A) : outcome (list B) :=
  match l with
  | [] => Ret []
  | x :: rest =>
      y ← f x;
      ys ← outcome_mapM f rest;
      Ret (y :: ys)
  end.

(** [distributeDelegatorRewards].  The update of one delegation does not
    depend on the others, so the order of the walk over [pos.delegators] does
    not show in the result. *)
Definition distributeDelegatorRewards (pos : PoS) (validator : Address) (reward : Z)
  : outcome PoS :=
  entries ← outcome_mapM
    (fun '(delegator, delegations) =>
       ds ← outcome_mapM (reward_delegation pos validator reward) delegations;
       Ret (delegator, ds))
    (map_to_list (pos_delegators pos));
  Ret (with_registry pos (pos_validators pos) (list_to_map entries)
                     (pos_totalStake pos)).

(** [distributeRewards]; [header_Validator] is [block.Header.Validator]. *)
Definition distributeRewards (pos : PoS) (header_Validator : Address) : outcome PoS :=
  let blockReward := RewardRate (pos_config pos) in
  match pos_validators pos !! header_Validator with
  | None => Panic NilDereference
  | Some validator =>
      commission ← big_Div (blockReward * int64_of_uint64 (v_Commission validator))
                           10000;
      validatorReward ← big_Div
        (commission + blockReward * int64_of_uint64 (big_Uint64 (v_Stake validator)))
        (v_Stake validator + v_TotalDelegated validator);
      let validator' := with_Rewards validator (v_Rewards validator + validatorReward) in
      let pos1 := with_registry pos
                    (<[header_Validator := validator']> (pos_validators pos))
                    (pos_delegators pos) (pos_totalStake pos) in
      if 0 <? v_TotalDelegated validator'
      then
        let delegatorReward0 :=
          blockReward - commission
          - validatorReward * ((v_Stake validator' + v_TotalDelegated validator')
                               - v_Stake validator') in
        delegatorReward ← big_Div delegatorReward0 (v_TotalDelegated validator');
        distributeDelegatorRewards pos1 (v_Address validator') delegatorReward
      else Ret pos1
  end.

Definition UpdateBlock (pos : PoS) (now : Z) (block : Block) : outcome PoS :=
  let key := h_Validator (b_Header block) in
  match pos_validators pos !! key with
  | None => Ret pos
  | Some v =>
      let v' := mkValidator (v_Address v) (v_Stake v) (v_TotalDelegated v)
                            (v_Commission v) (v_Status v) now
                            (u64_add (v_TotalBlocks v) 1) (v_Rewards v)
                            (v_PublicKey v) in
      distributeRewards
        (with_registry pos (<[key := v']> (pos_validators pos))
                       (pos_delegators pos) (pos_totalStake pos))
        key
  end.

Definition Slash (pos : PoS) (validator : Address) (reason : string)
  : outcome (option error * PoS) :=
  match pos_validators pos !! validator with
  | None => Ret (Some (Errorf "validator not found"), pos)
  | Some v =>
      if bool_decide (v_Status v = ValidatorStatusSlashed)
      then Ret (Some (Errorf "validator already slashed"), pos)
      else
        slashAmount ← big_Div (SlashRate (pos_config pos)
                               * (v_Stake v + v_TotalDelegated v)) 1000;
        let v' := mkValidator (v_Address v) (v_Stake v - slashAmount)
                              (v_TotalDelegated v) (v_Commission v)
                              ValidatorStatusSlashed (v_LastActive v)
                              (v_TotalBlocks v) (v_Rewards v) (v_PublicKey v) in
        Ret (None, with_registry pos (<[validator := v']> (pos_validators pos))
                                 (pos_delegators pos)
                                 (pos_totalStake pos - slashAmount))
  end.

Fixpoint insert_by_total (v : Validator) (sorted : list Validator) : list Validator :=
  match sorted with
  | [] => [v]
  | w :: rest =>
      if weight w <? weight v then v :: w :: rest
      else w :: insert_by_total v rest
  end.

(** [GetValidators]: the registry, by decreasing total stake.  [sort.Slice]
    is not stable, so the order among validators of equal total stake is the
    embedding's. *)
Definition GetValidators (pos : PoS) (order : list Z) : list Validator :=
  foldr insert_by_total [] (range_validators pos order).

Definition GetDelegations (pos : PoS) (delegator : Address) : list Delegation :=
  default [] (pos_delegators pos !! delegator).

Definition GetTotalStake (pos : PoS) : Z := pos_totalStake pos.

(** [UpdateSlot] sets the current slot. *)
Definition UpdateSlot (pos : PoS) (slot : Z) : PoS :=
  mkPoS (pos_config pos) (pos_validators pos) (pos_delegators pos)
        (pos_stakeAmount pos) (pos_totalStake pos) slot
        (pos_validator pos) (pos_privateKey pos).

(** ** The chain: [core.Blockchain] *)

Record TxPool : Type := mkTxPool {
  pool_pending : gmap Z Transaction;
  pool_queued : gmap Z Transaction;
  pool_all : gmap Z Transaction;
  pool_maxSize : Z
}.

(** [Blockchain].  [bc.db] is [s_db (bc_state bc)]; [bc.vm.state] is
    [bc_state bc]. *)
Record Blockchain : Type := mkBlockchain {
  bc_config : Config;
  bc_genesis : option Block;
  bc_currentBlock : option Block;
  bc_state : State;
  bc_consensus : PoS;
  bc_vm : EVM;
  bc_blockCache : gmap Z Block;
  bc_txPool : TxPool
}.

Definition bc_db (bc : Blockchain) : DB := s_db (bc_state bc).

Definition with_state (bc : Blockchain) (st : State) : Blockchain :=
  mkBlockchain (bc_config bc) (bc_genesis bc) (bc_currentBlock bc) st
               (bc_consensus bc) (bc_vm bc) (bc_blockCache bc) (bc_txPool bc).

Definition with_db (bc : Blockchain) (db : DB) : Blockchain :=
  with_state bc (mkState db (s_cache (bc_state bc))).

Definition with_blockCache (bc : Blockchain) (cache : gmap Z Block) : Blockchain :=
  mkBlockchain (bc_config bc) (bc_genesis bc) (bc_currentBlock bc) (bc_state bc)
               (bc_consensus bc) (bc_vm bc) cache (bc_txPool bc).


Definition with_currentBlock (bc : Blockchain) (block : Block) : Blockchain :=
  mkBlockchain (bc_config bc) (bc_genesis bc) (Some block) (bc_state bc)
               (bc_consensus bc) (bc_vm bc) (bc_blockCache bc) (bc_txPool bc).

Definition with_consensus (bc : Blockchain) (pos : PoS) : Blockchain :=
  mkBlockchain (bc_config bc) (bc_genesis bc) (bc_currentBlock bc) (bc_state bc)
               pos (bc_vm bc) (bc_blockCache bc) (bc_txPool bc).

Definition currentBlock_key : list byte := list_byte_of_string "currentBlock".

Definition computeGasUsed (txs : list Transaction) : Z :=
  fold_left (fun total tx => u64_add total (tx_GasLimit tx)) txs 0.

(** What the chain takes from outside the core: the RLP library, the hash
    functions, the two signature checks, the signer, and the constructor and
    [Add] of the transaction pool, which the sources use without defining
    them.  [rlp_EncodeFields] is [rlp.Encode] on the list that
    [Block.EncodeRLP] hands it, [rlp_DecodeFields] the two [s.Decode] calls
    of [Block.DecodeRLP]. *)
Record Primitives : Type := mkPrimitives {
  rlp_EncodeHeader : BlockHeader -> list byte;
  rlp_EncodeFields : BlockHeader -> list Transaction -> list byte + error;
  rlp_DecodeFields : list byte -> BlockHeader * list Transaction + error;
  rlp_EncodeTxs : list Transaction -> list byte;
  crypto_Keccak256Hash : list byte -> Hash;
  Keccak256 : list byte -> list byte;
  VerifySignature : Address -> list byte -> Z -> Z -> Z -> option error;
  ecdsa_VerifyASN1 : PublicKey -> list byte -> list byte -> bool;
  ecdsa_SignASN1 : list byte -> PrivateKey -> list byte -> list byte + error;
  NewTxPool : Z -> TxPool;
  TxPool_Add : TxPool -> Transaction -> TxPool
}.

Section Chain.

Variable prim : Primitives.

(** [Block.EncodeRLP]: the fields of the header, then the transactions.
    [Hash] and [Size] are not written. *)
Definition rlp_EncodeBlock (b : Block) : list byte + error :=
  rlp_EncodeFields prim (b_Header b) (b_Transactions b).

(** [Block.DecodeRLP] fills [Header] and [Transactions]; [Hash] and [Size]
    keep the zero value that [var block Block] gave them. *)
Definition rlp_DecodeBlock (data : list byte) : Block + error :=
  match rlp_DecodeFields prim data with
  | inl (header, txs) => inl (mkBlock header txs 0 0)
  | inr err => inr err
  end.

Definition ComputeHash (b : Block) : Hash :=
  crypto_Keccak256Hash prim (rlp_EncodeHeader prim (b_Header b)).

Definition ComputeSize (b : Block) : Z :=
  match rlp_EncodeBlock b with
  | inl data => len data
  | inr _ => 0
  end.

Definition empty_root : Hash :=
  0x56e81f171bcc55a6ff8345e692c0f86e5b48e01b996cadc001622fb5e363b421.

Definition computeTxRoot (txs : list Transaction) : Hash :=
  match txs with
  | [] => empty_root
  | _ => crypto_Keccak256Hash prim (rlp_EncodeTxs prim txs)
  end.

(** *** [consensus.ValidateBlock] and [SignBlock] *)

Definition PoS_ValidateBlock (pos : PoS) (order : list Z) (randBytes : list byte)
    (block : Block) : outcome (option error) :=
  let header := b_Header block in
  let expectedValidator := SelectValidator pos order randBytes (big_Uint64 (h_Number header)) in
  if negb (bool_decide (Address_Bytes (h_Validator header)
                        = Address_Bytes expectedValidator))
  then Ret (Some (Errorf "invalid validator: expected %s, got %s"))
  else if len (h_Signature header) =? 0
  then Ret (Some (Errorf "block signature missing"))
  else match pos_validators pos !! h_Validator header with
       | None => Ret (Some (Errorf "validator not found"))
       | Some validator =>
           let hash := ComputeHash block in
           match v_PublicKey validator with
           | None => Panic NilDereference
           | Some publicKey =>
               if negb (ecdsa_VerifyASN1 prim publicKey (Hash_Bytes hash)
                                         (h_Signature header))
               then Ret (Some (Errorf "invalid block signature"))
               else Ret None
           end
       end.

Definition SignBlock (pos : PoS) (entropy : list byte) (block : Block)
  : list byte + error :=
  match pos_privateKey pos with
  | None => inr (Errorf "no private key available")
  | Some privateKey =>
      let hash := ComputeHash block in
      match ecdsa_SignASN1 prim entropy privateKey (Hash_Bytes hash) with
      | inr err => inr (Errorw "failed to sign block" err)
      | inl signature => inl signature
      end
  end.

(** *** Transactions *)

Definition ValidateTransaction (bc : Blockchain) (tx : Transaction)
  : option error * Blockchain :=
  match VerifySignature prim (tx_From tx) (Hash_Bytes (tx_Hash tx))
                        (tx_V tx) (tx_R tx) (tx_S tx) with
  | Some err => (Some (Errorw "invalid signature" err), bc)
  | None =>
      let '(account, st) := GetAccount (bc_state bc) (tx_From tx) in
      let bc' := with_state bc st in
      if negb (tx_Nonce tx =? acc_Nonce account)
      then (Some (Errorf "invalid nonce: expected %d, got %d"), bc')
      else
        let cost := tx_GasPrice tx * int64_of_uint64 (tx_GasLimit tx)
                    + tx_Value tx in
        if acc_Balance account <? cost
        then (Some ErrInsufficientBalance, bc')
        else if tx_GasPrice tx <? cfg_MinGasPrice (bc_config bc)
        then (Some (Errorf "gas price too low: minimum %s"), bc')
        else (None, bc')
  end.


(** *** Blocks *)

Definition GetBlockByHash (bc : Blockchain) (hash : Hash)
  : (Block + error) * Blockchain :=
  match bc_blockCache bc !! hash with
  | Some block => (inl block, bc)
  | None =>
      let '(r, db') := db_Get (bc_db bc) (Hash_Bytes hash) in
      let bc1 := with_db bc db' in
      match r with
      | inr err =>
          match err with
          | leveldb_ErrNotFound => (inr ErrBlockNotFound, bc1)
          | _ => (inr (Errorw "database error" err), bc1)
          end
      | inl data =>
          match rlp_DecodeBlock data with
          | inr err => (inr (Errorw "failed to deserialize block" err), bc1)
          | inl block =>
              (inl block, with_blockCache bc1 (<[hash := block]> (bc_blockCache bc1)))
          end
      end
  end.

Fixpoint validate_transactions (bc : Blockchain) (txs : list Transaction)
  : option error * Blockchain :=
  match txs with
  | [] => (None, bc)
  | tx :: rest =>
      match ValidateTransaction bc tx with
      | (Some err, bc') => (Some (Errorw "invalid transaction %s" err), bc')
      | (None, bc') => validate_transactions bc' rest
      end
  end.

Definition ValidateBlock (bc : Blockchain) (order : list Z) (randBytes : list byte)
    (block : Block) : outcome (option error * Blockchain) :=
  let computedHash := ComputeHash block in
  if negb (bool_decide (Hash_Bytes (b_Hash block) = Hash_Bytes computedHash))
  then Ret (Some ErrInvalidBlock, bc)
  else
    let '(parentErr, bc1) :=
      if 0 <? h_Number (b_Header block)
      then match GetBlockByHash bc (h_ParentHash (b_Header block)) with
           | (inr err, bc') => (Some err, bc')
           | (inl _, bc') => (None, bc')
           end
      else (None, bc) in
    match parentErr with
    | Some err => Ret (Some (Errorw "parent block not found" err), bc1)
    | None =>
        r ← PoS_ValidateBlock (bc_consensus bc1) order randBytes block;
        match r with
        | Some err => Ret (Some (Errorw "consensus validation failed" err), bc1)
        | None => Ret (validate_transactions bc1 (b_Transactions block))
        end
    end.

Fixpoint ExecuteTransactions_loop (evm : EVM) (st : State) (txs : list Transaction)
    (receipts : list Receipt) : outcome ((list Receipt + error) * State) :=
  match txs with
  | [] => Ret (inl receipts, st)
  | tx :: rest =>
      '(receipt, err, st') ← ExecuteTransaction evm st tx;
      match err with
      | Some e => Ret (inr (Errorw "failed to execute transaction %s" e), st')
      | None => ExecuteTransactions_loop evm st' rest (receipts ++ [receipt])
      end
  end.

Definition ExecuteTransactions (bc : Blockchain) (txs : list Transaction)
  : outcome ((list Receipt + error) * Blockchain) :=
  '(r, st) ← ExecuteTransactions_loop (bc_vm bc) (bc_state bc) txs [];
  Ret (r, with_state bc st).

Definition writeBlock (bc : Blockchain) (block : Block) : option error * Blockchain :=
  match rlp_EncodeBlock block with
  | inr err => (Some (Errorw "failed to serialize block" err), bc)
  | inl data =>
      match db_Put (bc_db bc) (Hash_Bytes (b_Hash block)) data with
      | (Some err, db1) => (Some (Errorw "failed to write block" err), with_db bc db1)
      | (None, db1) =>
          match db_Put db1 currentBlock_key (Hash_Bytes (b_Hash block)) with
          | (Some err, db2) =>
              (Some (Errorw "failed to update current block" err), with_db bc db2)
          | (None, db2) =>
              let bc2 := with_db bc db2 in
              (None, with_blockCache bc2
                       (<[b_Hash block := block]> (bc_blockCache bc2)))
          end
      end
  end.

(** [ProcessBlock].  [now], [order] and [randBytes] are what the consensus
    engine reads from the clock, the map iteration and [rand.Read] during
    this call. *)
Definition ProcessBlock (bc : Blockchain) (now : Z) (order : list Z)
    (randBytes : list byte) (block : Block) : outcome (option error * Blockchain) :=
  '(verr, bc1) ← ValidateBlock bc order randBytes block;
  match verr with
  | Some err => Ret (Some err, bc1)
  | None =>
      '(receipts, bc2) ← ExecuteTransactions bc1 (b_Transactions block);
      match receipts with
      | inr err => Ret (Some (Errorw "failed to execute transactions" err), bc2)
      | inl _ =>
          match Commit (Keccak256 prim) (bc_state bc2) with
          | (Some err, st) =>
              Ret (Some (Errorw "failed to commit state" err), with_state bc2 st)
          | (None, st) =>
              let bc3 := with_state bc2 st in
              match writeBlock bc3 block with
              | (Some err, bc4) => Ret (Some (Errorw "failed to write block" err), bc4)
              | (None, bc4) =>
                  let bc5 := with_currentBlock bc4 block in
                  pos ← UpdateBlock (bc_consensus bc5) now block;
                  Ret (None, with_consensus bc5 pos)
              end
          end
      end
  end.

(** [CreateBlock] reads [parent.Hash] first: a [nil] tip is a panic. *)
Definition CreateBlock (bc : Blockchain) (now_unix : Z) (entropy : list byte)
    (txs : list Transaction) : outcome (Block + error) :=
  parent ← match bc_currentBlock bc with
           | Some parent => Ret parent
           | None => Panic NilDereference
           end;
  let header := mkBlockHeader
    (b_Hash parent)
    (GetValidatorAddress (bc_consensus bc))
    (State_Root (bc_state bc))
    (computeTxRoot txs)
    0
    1
    (h_Number (b_Header parent) + 1)
    (cfg_GasLimit (bc_config bc))
    (computeGasUsed txs)
    now_unix
    []
    0
    (fixed_bytes 8 0)
    (GetValidatorAddress (bc_consensus bc))
    [] in
  let block := mkBlock header txs 0 0 in
  match SignBlock (bc_consensus bc) entropy block with
  | inr err => Ret (inr (Errorw "failed to sign block" err))
  | inl signature =>
      let header' := mkBlockHeader
        (h_ParentHash header) (h_Coinbase header) (h_StateRoot header)
        (h_TxRoot header) (h_ReceiptRoot header) (h_Difficulty header)
        (h_Number header) (h_GasLimit header) (h_GasUsed header)
        (h_Timestamp header) (h_ExtraData header) (h_MixHash header)
        (h_Nonce header) (h_Validator header) signature in
      let block1 := mkBlock header' txs 0 0 in
      let block2 := mkBlock header' txs (ComputeHash block1) 0 in
      Ret (inl (mkBlock header' txs (ComputeHash block1) (ComputeSize block2)))
  end.

(** *** Construction *)

Definition createGenesisBlock (config : Config) (now_unix : Z) : Block :=
  let header := mkBlockHeader 0 0 empty_root empty_root empty_root 1 0
                  (cfg_GasLimit config) 0 now_unix
                  (list_byte_of_string "Diora Genesis Block") 0
                  (fixed_bytes 8 0) 0 [] in
  let block1 := mkBlock header [] 0 0 in
  let block2 := mkBlock header [] (ComputeHash block1) 0 in
  mkBlock header [] (ComputeHash block1) (ComputeSize block2).

Definition loadGenesis (bc : Blockchain) (now_unix : Z) : option error * Blockchain :=
  let '(r, db') := db_Get (bc_db bc) currentBlock_key in
  let bc1 := with_db bc db' in
  match r with
  | inl currentHash =>
      match GetBlockByHash bc1 (BytesToHash currentHash) with
      | (inr err, bc2) => (Some (Errorw "failed to load current block" err), bc2)
      | (inl block, bc2) => (None, with_currentBlock bc2 block)
      end
  | inr leveldb_ErrNotFound =>
      let genesis := createGenesisBlock (bc_config bc1) now_unix in
      match writeBlock bc1 genesis with
      | (Some err, bc2) => (Some (Errorw "failed to write genesis block" err), bc2)
      | (None, bc2) =>
          (None, mkBlockchain (bc_config bc2) (Some genesis) (Some genesis)
                              (bc_state bc2) (bc_consensus bc2) (bc_vm bc2)
                              (bc_blockCache bc2) (bc_txPool bc2))
      end
  | inr err => (Some (Errorw "database error" err), bc1)
  end.

(** [NewBlockchain] on a store that [leveldb.OpenFile] has opened. *)
Definition NewBlockchain (config : Config) (db : DB) (now_unix : Z)
  : Blockchain + error :=
  let state := NewState db in
  let consensus := NewPoS (cfg_StakeAmount config) (cfg_ValidatorCount config) in
  let evm := NewEVM config in
  let bc := mkBlockchain config None None state consensus evm ∅ (NewTxPool prim 10000) in
  match loadGenesis bc now_unix with
  | (Some err, _) => inr (Errorw "failed to load genesis" err)
  | (None, bc') => inl bc'
  end.

End Chain.

(** *** Reads of the chain: [GetBlockByNumber], [GetBalance], [GetNonce] *)

Section ChainReads.

Variable prim : Primitives.

(** [GetBlockByNumber]: the walk from the tip along the parent links.  The
    Go loop has no bound; [fuel] is the number of turns that the embedding
    follows, and [None] means that it has not returned within them. *)
Fixpoint GetBlockByNumber_loop (fuel : nat) (bc : Blockchain)
    (currentBlock : option Block) (number : Z)
  : option ((Block + error) * Blockchain) :=
  match fuel with
  | O => None
  | S fuel' =>
      match currentBlock with
      | None => Some (inr ErrBlockNotFound, bc)
      | Some block =>
          if h_Number (b_Header block) =? number then Some (inl block, bc)
          else if h_Number (b_Header block) <? number
          then Some (inr ErrBlockNotFound, bc)
          else
            match GetBlockByHash prim bc (h_ParentHash (b_Header block)) with
            | (inr err, bc') => Some (inr err, bc')
            | (inl parent, bc') =>
                GetBlockByNumber_loop fuel' bc' (Some parent) number
            end
      end
  end.

Definition GetBlockByNumber (fuel : nat) (bc : Blockchain) (number : Z)
  : option ((Block + error) * Blockchain) :=
  GetBlockByNumber_loop fuel bc (bc_currentBlock bc) number.

(** [Blockchain.GetBalance] and [Blockchain.GetNonce]. *)
Definition Blockchain_GetBalance (bc : Blockchain) (address : Address)
  : Z * Blockchain :=
  let '(account, st) := GetAccount (bc_state bc) address in
  (acc_Balance account, with_state bc st).

Definition Blockchain_GetNonce (bc : Blockchain) (address : Address)
  : Z * Blockchain :=
  let '(account, st) := GetAccount (bc_state bc) address in
  (acc_Nonce account, with_state bc st).

End ChainReads.

(** ** Package [crypto]: the values of a signature *)

(** The order of the curve, as [init] parses it, and its half
    ([new(big.Int).Div(secp256k1N, big.NewInt(2))]). *)
Definition secp256k1N : Z :=
  0xfffffffffffffffffffffffffffffffebaaedce6af48a03bbfd25e8cd0364141.

Definition secp256k1HalfN : Z := secp256k1N / 2.

(** [ValidateSignatureValues]; [v] is a byte, [common.Big1] is 1. *)
Definition ValidateSignatureValues (v : byte) (r s : Z) (homestead : bool) : bool :=
  if (r <? 1) || (s <? 1) then false
  else if homestead && (secp256k1HalfN <? s) then false
  else if negb (Z_of_byte v =? 0) && negb (Z_of_byte v =? 27) then false
  else if (r <? secp256k1N) && (s <? secp256k1N) then true
  else false.

(** ** Addresses and hashes as hexadecimal text

    [Address.Hex], [Hash.Hex], [HexToAddress] and [HexToHash] of package
    [core], over [hex.EncodeToString] and [hex.Decode] of [encoding/hex]. *)

(** Go strings are byte strings. *)
Definition hextable : list byte := list_byte_of_string "0123456789abcdef".

Definition hexdigit (n : Z) : byte := nth (Z.to_nat n) hextable x00.

(** [hex.EncodeToString]: two digits per byte, the high nibble first. *)
Definition hex_EncodeToString (src : list byte) : list byte :=
  src ≫= (fun v => [hexdigit (Z.shiftr (Z_of_byte v) 4);
                    hexdigit (Z.land (Z_of_byte v) 0x0f)]).

(** [fromHexChar]: the value of a digit, in either case. *)
Definition fromHexChar (c : byte) : option Z :=
  let c := Z_of_byte c in
  if in_range 48 57 c then Some (c - 48)
  else if in_range 97 102 c then Some (c - 97 + 10)
  else if in_range 65 70 c then Some (c - 65 + 10)
  else None.

(** The bytes that [hex.Decode] writes, in order: it stops at the first
    character that is not a digit (the error is dropped by both callers) and
    leaves a last odd character alone. *)
Fixpoint hex_decoded (src : list byte) : list byte :=
  match src with
  | p :: q :: rest =>
      match fromHexChar p, fromHexChar q with
      | Some a, Some b => byte_of_Z (Z.lor (Z.shiftl a 4) b) :: hex_decoded rest
      | _, _ => []
      end
  | _ => []
  end.

(** [hex.Decode(dst, src)] on a [dst] with room for [len(src)/2] bytes, which
    both callers have checked: the decoded bytes replace the first bytes of
    [dst]. *)
Definition hex_Decode (dst src : list byte) : list byte :=
  let written := hex_decoded src in
  written ++ drop (length written) dst.

Definition strip_0x (s : list byte) : list byte :=
  if (2 <=? len s) && bool_decide (take 2 s = list_byte_of_string "0x")
  then drop 2 s else s.

Definition HexToAddress (s : list byte) : Address :=
  let s := strip_0x s in
  if negb (len s =? 40) then 0
  else big_SetBytes (hex_Decode (repeat x00 20) s).

Definition HexToHash (s : list byte) : Hash :=
  let s := strip_0x s in
  if negb (len s =? 64) then 0
  else big_SetBytes (hex_Decode (repeat x00 32) s).

Definition Address_Hex (a : Address) : list byte :=
  list_byte_of_string "0x" ++ hex_EncodeToString (Address_Bytes a).

Definition Hash_Hex (h : Hash) : list byte :=
  list_byte_of_string "0x" ++ hex_EncodeToString (Hash_Bytes h).

(** * The vocabulary of the properties *)

(** The costs that [getGasCost] reads are [uint64] values. *)
Definition GasTable_wf (gt : GasTable) : Prop :=
  is_uint64 (gt_Zero gt) /\ is_uint64 (gt_Base gt) /\ is_uint64 (gt_VeryLow gt)
  /\ is_uint64 (gt_Low gt) /\ is_uint64 (gt_Mid gt) /\ is_uint64 (gt_High gt)
  /\ is_uint64 (gt_SLoad gt) /\ is_uint64 (gt_SStore gt).

(** The gas that remains in the frame. *)
Definition gas (m : Machine) : Z := c_Gas (m_contract m).

(** The machines that the loop of [Run] goes through. *)
Inductive reaches (in_ : Interpreter) : Machine -> Machine -> Prop :=
| reaches_refl m : reaches in_ m m
| reaches_step m m1 m2 :
    step in_ m = Next m1 -> reaches in_ m1 m2 -> reaches in_ m m2.

(** In a registry built by [RegisterValidator] every validator sits under its
    own address. *)
Definition registry_wf (pos : PoS) : Prop :=
  forall k v, pos_validators pos !! k = Some v -> v_Address v = k.

(** The test of the loop of [CompleteUnbonding]. *)
Definition is_unbonding_to (validator : Address) (d : Delegation) : bool :=
  delegation_matches validator DelegationStatusUnbonding d.

(** The durable store, as the state and as the chain reach it. *)
Definition kv (s : State) : gmap (list byte) (list byte) := db_kv (s_db s).

Definition store (bc : Blockchain) : gmap (list byte) (list byte) := kv (bc_state bc).

(** What a call of [ProcessBlock] returns, and the chain it leaves. *)
Definition returned (r : outcome (option error * Blockchain)) : outcome (option error) :=
  match r with
  | Ret (err, _) => Ret err
  | Panic p => Panic p
  end.

Definition after (r : outcome (option error * Blockchain)) (bc : Blockchain) : Blockchain :=
  match r with
  | Ret (_, bc') => bc'
  | Panic _ => bc
  end.

(** The parts of the chain that validation and execution leave alone. *)
Definition same_tip_and_store (bc bc' : Blockchain) : Prop :=
  bc_currentBlock bc' = bc_currentBlock bc
  /\ store bc' = store bc
  /\ bc_consensus bc' = bc_consensus bc
  /\ bc_vm bc' = bc_vm bc.

(** The errors of the two steps of [ProcessBlock] that write to the
    store. *)
Definition persistence_error (err : error) : Prop :=
  exists cause, err = Errorw "failed to commit state" cause
                \/ err = Errorw "failed to write block" cause.

(** ** The registry as a whole *)

(** The sum of the stakes, own and delegated, that the registry holds. *)
Definition sum_weights (validators : gmap Z Validator) : Z :=
  map_fold (fun _ v acc => weight v + acc) 0 validators.

(** The same sum, for the registry of an engine. *)
Definition total_weight (pos : PoS) : Z := sum_weights (pos_validators pos).

(** One call of an operation of the engine that returns. *)
Inductive registry_step : PoS -> PoS -> Prop :=
| step_SetValidator pos address privateKey :
    registry_step pos (SetValidator pos address privateKey)
| step_UpdateSlot pos slot :
    registry_step pos (UpdateSlot pos slot)
| step_RegisterValidator pos now address stake commission publicKey :
    registry_step pos
      (snd (RegisterValidator pos now address stake commission publicKey))
| step_Delegate pos now delegator validator amount :
    registry_step pos (snd (Delegate pos now delegator validator amount))
| step_Unbond pos now delegator validator amount err pos' :
    Unbond pos now delegator validator amount = Ret (err, pos') ->
    registry_step pos pos'
| step_CompleteUnbonding pos now delegator validator :
    registry_step pos (snd (CompleteUnbonding pos now delegator validator))
| step_UpdateBlock pos now block pos' :
    UpdateBlock pos now block = Ret pos' ->
    registry_step pos pos'
| step_Slash pos validator reason err pos' :
    Slash pos validator reason = Ret (err, pos') ->
    registry_step pos pos'.

(** The registries that a node can hold: what [NewPoS] builds, and what the
    operations make of it. *)
Definition reachable_registry (pos : PoS) : Prop :=
  exists stakeAmount maxValidators,
    rtc registry_step (NewPoS stakeAmount maxValidators) pos.

(** Every recorded delegation sits under its delegator and names a registered
    validator. *)
Definition delegations_wf (pos : PoS) : Prop :=
  forall k ds d, pos_delegators pos !! k = Some ds -> d ∈ ds ->
    d_Delegator d = k /\ is_Some (pos_validators pos !! d_Validator d).

(** The two delegations have the same delegator and the same validator. *)
Definition same_parties (d d' : Delegation) : Prop :=
  d_Delegator d' = d_Delegator d /\ d_Validator d' = d_Validator d.

(** An active delegation to [validator]: what the loop of [Unbond] looks for. *)
Definition is_active_to (validator : Address) (d : Delegation) : bool :=
  delegation_matches validator DelegationStatusActive d.

(** What every operation of the engine keeps: validators sit under their
    address, delegations under their delegator and with a registered
    validator, and the total stake is the sum of the weights. *)
Record registry_inv (pos : PoS) : Prop := mk_registry_inv {
  inv_registry : registry_wf pos;
  inv_delegations : delegations_wf pos;
  inv_totalStake : pos_totalStake pos = total_weight pos
}.

(** How the record of a validator can change from one state of the registry
    to a later one. *)
Definition validator_evolves (v v' : Validator) : Prop :=
  v_Address v' = v_Address v
  /\ ((v_Status v' = v_Status v /\ v_Stake v' = v_Stake v)
      \/ (v_Status v <> ValidatorStatusSlashed /\ v_Status v' = ValidatorStatusSlashed)).

(** [a] may stand before [b] in the ranking. *)
Definition outranks (a b : Validator) : Prop := weight b <= weight a.

(** The sum of the weights of a list of validators, as [SelectValidator]
    computes it. *)
Definition sum_of_weights (l : list Validator) : Z := foldr Z.add 0 (weight <$> l).

(** ** Accounts, as the state and the store hold them *)

(** The account that a read of [addr] finds when the store does not fail:
    the cached one, or the one that [GetAccount] builds from the store. *)
Definition account_of (s : State) (addr : Address) : Account :=
  match s_cache s !! addr with
  | Some account => account
  | None =>
      mkAccount 0 (match kv s !! Address_Bytes addr with
                   | Some data => big_SetBytes data
                   | None => 0
                   end) [] [] ∅
  end.

(** A store whose operations all succeed from now on. *)
Definition reliable (s : State) : Prop := db_faults (s_db s) = [].

(** The writes of [Commit], in the order in which it makes them. *)
Definition account_writes (Keccak256 : list byte -> list byte)
    (addr : Address) (account : Account) : list (list byte * list byte) :=
  (Address_Bytes addr, big_Bytes (acc_Balance account))
  :: (if 0 <? len (acc_Code account)
      then [(Keccak256 (acc_Code account), acc_Code account)] else [])
  ++ ((fun '(key, value) => (Address_Bytes addr ++ Hash_Bytes key, Hash_Bytes value))
        <$> map_to_list (acc_Storage account)).

(** The writes of [Commit] for the accounts of the cache, in the order in
    which it walks them. *)
Definition cache_writes (Keccak256 : list byte -> list byte)
    (accounts : list (Z * Account)) : list (list byte * list byte) :=
  accounts ≫= (fun '(addr, account) => account_writes Keccak256 addr account).

(** The store after a sequence of writes that all succeed. *)
Definition apply_writes (store : gmap (list byte) (list byte))
    (writes : list (list byte * list byte)) : gmap (list byte) (list byte) :=
  foldl (fun m '(key, value) => <[key := value]> m) store writes.

(** ** Transactions against a state *)

(** What [ValidateTransaction] asks of [tx], read on the accounts of [s]. *)
Definition valid_against (prim : Primitives) (config : Config) (s : State)
    (tx : Transaction) : Prop :=
  VerifySignature prim (tx_From tx) (Hash_Bytes (tx_Hash tx))
                  (tx_V tx) (tx_R tx) (tx_S tx) = None
  /\ tx_Nonce tx = acc_Nonce (account_of s (tx_From tx))
  /\ tx_GasPrice tx * int64_of_uint64 (tx_GasLimit tx) + tx_Value tx
     <= acc_Balance (account_of s (tx_From tx))
  /\ cfg_MinGasPrice config <= tx_GasPrice tx.

(** The two nodes hold the same accounts and the same configuration. *)
Definition same_accounts (bc bc' : Blockchain) : Prop :=
  reliable (bc_state bc')
  /\ bc_config bc' = bc_config bc
  /\ forall addr, account_of (bc_state bc') addr = account_of (bc_state bc) addr.

(** ** Signed blocks *)

(** The header with another signature. *)
Definition with_signature (header : BlockHeader) (signature : list byte) : BlockHeader :=
  mkBlockHeader
    (h_ParentHash header) (h_Coinbase header) (h_StateRoot header)
    (h_TxRoot header) (h_ReceiptRoot header) (h_Difficulty header)
    (h_Number header) (h_GasLimit header) (h_GasUsed header)
    (h_Timestamp header) (h_ExtraData header) (h_MixHash header)
    (h_Nonce header) (h_Validator header) signature.

(** The block as [CreateBlock] hands it to [SignBlock]: no signature, no
    hash and no size yet. *)
Definition unsigned (b : Block) : Block :=
  mkBlock (with_signature (b_Header b) []) (b_Transactions b) 0 0.

(** A signature scheme that binds a signature to the hash it was made over:
    a signature verifies against that hash only. *)
Definition signatures_bind (prim : Primitives) : Prop :=
  forall publicKey hash signature,
    ecdsa_VerifyASN1 prim publicKey hash signature = true ->
    forall entropy privateKey hash',
      ecdsa_SignASN1 prim entropy privateKey hash' = inl signature -> hash' = hash.

(** * Concrete instances *)

(** ** An EVM and a contract *)

(** The configuration of the test suite, with a minimum gas price of 1. *)
Definition example_config : Config :=
  mkConfig 1337 1 6000000000 30000000 1 1048576 1000000 100.

(** An EVM whose interpreter points back to it, so that it has a gas table. *)
Definition example_evm : EVM :=
  mkEVM example_config (NewInterpreter (Some defaultGasTable)) defaultGasTable.

(** [PUSH1 0; PUSH1 7; DIV; PUSH1 1; SSTORE]: 7 divided by 0, stored in
    slot 1. *)
Definition example_code : list byte := [x60; x00; x60; x07; x04; x60; x01; x55].

(** The state after the account of [addr] was written through the pointer
    that [GetAccount] returns ([account := s.GetAccount(addr)], then
    assignments to the fields of [account]): the way to an account that holds
    a nonce, code or storage, since the setters do not return. *)
Definition through_pointer (s : State) (addr : Address) (f : Account -> Account)
  : State :=
  let '(account, s') := GetAccount s addr in
  mkState (s_db s') (<[addr := f account]> (s_cache s')).

Definition with_balance (s : State) (addr : Address) (balance : Z) : State :=
  through_pointer s addr (fun a =>
    mkAccount (acc_Nonce a) balance (acc_CodeHash a) (acc_Code a) (acc_Storage a)).

(** A state in which account 7 holds [example_code]. *)
Definition example_state : State :=
  through_pointer (NewState (mkDB ∅ [])) 7
    (fun a => mkAccount (acc_Nonce a) (acc_Balance a) [] example_code (acc_Storage a)).

(** A call of account 7 by account 5. *)
Definition example_tx (gasLimit : Z) : Transaction :=
  mkTransaction 0 1 gasLimit (Some 7) 0 [] 0 0 0 99 5.

(** ** Registries *)

(** A registry of capacity 1 whose only validator has been slashed. *)
Definition slashed_registry : PoS :=
  let pos1 := snd (RegisterValidator (NewPoS 1000000 1) 1700000000 21 1000000 1000
                     (Some (mkPublicKey 3 4))) in
  match Slash pos1 21 "double sign" with
  | Ret (_, pos2) => pos2
  | Panic _ => pos1
  end.

(** One active validator, of weight 1000000. *)
Definition single_registry : PoS :=
  snd (RegisterValidator (NewPoS 1000000 100) 1700000000 21 1000000 1000
         (Some (mkPublicKey 3 4))).

(** A registry with minimum stake 0 and one active validator that staked 0. *)
Definition zero_weight_registry : PoS :=
  snd (RegisterValidator (NewPoS 0 100) 1700000000 21 0 1000
         (Some (mkPublicKey 3 4))).

(** Delegator 31 delegates 1000 to validator 21 at instant 100 and unbonds
    at instant 200. *)
Definition unbonding_registry : PoS :=
  match Unbond (snd (Delegate single_registry 100 31 21 1000)) 200 31 21 1000 with
  | Ret (_, pos) => pos
  | Panic _ => single_registry
  end.

(** The delegation that [unbonding_registry] holds for delegator 31. *)
Definition unbonding_delegation : Delegation :=
  mkDelegation 31 21 1000 0 100 (200 + 7 * 24 * hour) DelegationStatusUnbonding.

(** A block produced by [validator]. *)
Definition block_by (validator : Address) (number : Z) : Block :=
  mkBlock (mkBlockHeader 0 validator 0 0 0 1 number 30000000 0 1700000006 []
                         0 (fixed_bytes 8 0) validator [x01])
          [] 0 0.

(** The registry of [NewPoS(1000000, 100)] after validator 21 registered
    with the minimum stake and a delegation of [-1000000] was accepted. *)
Definition cancelled_weight_registry : PoS :=
  snd (Delegate single_registry 100 31 21 (-1000000)).

(** ** A concrete node

    An instance of the external primitives to run the chain on: the header
    codec writes the block number plus one, the hash of a byte string is the
    number it spells, every signature verifies and the pool keeps the
    transactions by hash. *)
Definition example_primitives : Primitives :=
  mkPrimitives
    (fun header => big_Bytes (h_Number header + 1))
    (fun header txs => inl (big_Bytes (h_Number header + 1) ++ big_Bytes (len txs)))
    (fun data => inr (Errorf "rlp: value size exceeds available input length"))
    (fun txs => big_Bytes (len txs))
    BytesToHash
    (fun data => data)
    (fun from hash v r s => None)
    (fun publicKey hash signature => true)
    (fun entropy privateKey hash => inl [x01])
    (fun maxSize => mkTxPool ∅ ∅ ∅ maxSize)
    (fun pool tx =>
       mkTxPool (<[tx_Hash tx := tx]> (pool_pending pool)) (pool_queued pool)
                (<[tx_Hash tx := tx]> (pool_all pool)) (pool_maxSize pool)).

(** What [NewBlockchain] builds on an empty store. *)
Definition genesis_chain : Blockchain :=
  snd (loadGenesis example_primitives
         (mkBlockchain example_config None None (NewState (mkDB ∅ []))
            (NewPoS (cfg_StakeAmount example_config) (cfg_ValidatorCount example_config))
            (NewEVM example_config) ∅ (NewTxPool example_primitives 10000))
         1700000000).

(** Validator 21 registers with the minimum stake. *)
Definition example_chain : Blockchain :=
  with_consensus genesis_chain
    (snd (RegisterValidator (bc_consensus genesis_chain) 1700000000 21 1000000 1000
            (Some (mkPublicKey 3 4)))).

(** A block signed by validator 21, with its hash computed as [CreateBlock]
    does. *)
Definition example_block (parentHash : Hash) (number : Z) (txs : list Transaction)
  : Block :=
  let header := mkBlockHeader parentHash 21 0 0 0 1 number 30000000 0 1700000006
                              [] 0 (fixed_bytes 8 0) 21 [x01] in
  mkBlock header txs (ComputeHash example_primitives (mkBlock header txs 0 0)) 0.

Definition genesis_hash : Hash :=
  match bc_currentBlock genesis_chain with
  | Some genesis => b_Hash genesis
  | None => 0
  end.

(** The chain after block 1, built on the genesis block, has been
    processed. *)
Definition chain_at_1 : Blockchain :=
  after (ProcessBlock example_primitives example_chain 1700000006 [21]
           (repeat xff 32) (example_block genesis_hash 1 []))
        example_chain.



(** [bc] over a store that will do [faults] at its next operations. *)
Definition with_faults (bc : Blockchain) (faults : list bool) : Blockchain :=
  with_db bc (mkDB (db_kv (bc_db bc)) faults).

(** The concrete node after [GetBalance] was asked for account 5: the
    account, empty, is in the cache of the state. *)
Definition read_chain : Blockchain := snd (Blockchain_GetBalance example_chain 5).

(** A transaction of account 5 that costs nothing: gas price 1, gas limit 0,
    value 0. *)
Definition free_tx (to : option Address) : Transaction :=
  mkTransaction 0 1 0 to 0 [] 27 1 1 78 5.

(** ** Further registries, stores and blocks *)

(** Validator 22 registers beside validator 21, with a stake of 3000000. *)
Definition two_validators : PoS :=
  snd (RegisterValidator single_registry 1700000001 22 3000000 500
         (Some (mkPublicKey 5 6))).

(** Then delegator 31 delegates 1000 to validator 21 and unbonds 400 of it,
    and validator 22 is slashed. *)
Definition busy_registry : PoS :=
  let pos2 := snd (Delegate two_validators 100 31 21 1000) in
  let pos3 := match Unbond pos2 200 31 21 400 with
              | Ret (_, pos) => pos
              | Panic _ => pos2
              end in
  match Slash pos3 22 "double sign" with
  | Ret (_, pos) => pos
  | Panic _ => pos3
  end.

(** A node without blocks over an empty store: validator 21 is registered,
    account 7 holds [example_code] and account 5 holds 100000. *)
Definition idle_chain : Blockchain :=
  mkBlockchain example_config None None (with_balance example_state 5 100000)
               single_registry example_evm ∅ (NewTxPool example_primitives 10000).


(** Block 0, with two calls of account 7 by account 5, both with nonce 0 and
    each with a cost of 100000. *)
Definition twice_calling_block : Block :=
  example_block 0 0 [example_tx 100000; example_tx 100000].

(** Primitives whose header encoding covers the signature and whose
    signatures bind: the signature over a hash is that hash followed by a
    byte, and only that verifies. *)
Definition binding_primitives : Primitives :=
  mkPrimitives
    (fun header => big_Bytes (h_Number header + 1) ++ h_Signature header)
    (rlp_EncodeFields example_primitives)
    (rlp_DecodeFields example_primitives)
    (rlp_EncodeTxs example_primitives)
    BytesToHash
    (Keccak256 example_primitives)
    (VerifySignature example_primitives)
    (fun publicKey hash signature => bool_decide (signature = hash ++ [x01]))
    (fun entropy privateKey hash => inl (hash ++ [x01]))
    (NewTxPool example_primitives)
    (TxPool_Add example_primitives).

(** The concrete node with the key of validator 21. *)
Definition signing_chain : Blockchain :=
  with_consensus example_chain
    (SetValidator (bc_consensus example_chain) 21
       (Some (mkPrivateKey (mkPublicKey 3 4) 7))).

(** A hash function for the store keys of code: the bytes as a number, on 32
    bytes. *)
Definition folding_hash (data : list byte) : list byte :=
  Hash_Bytes (big_SetBytes data).

(** A state that has account 5 in its cache, with nonce 3, balance 100, two
    bytes of code and 42 in slot 1, over an empty store. *)
Definition cached_contract : State :=
  mkState (mkDB ∅ [])
          {[ 5 := mkAccount 3 100 [] [x60; x01] {[ 1 := 42 ]} ]}.

(** * Properties *)

(** ** Bytes and numbers *)

Lemma Z_of_byte_range (b : byte) : 0 <= Z_of_byte b < 256.
Proof.
  unfold Z_of_byte. pose proof (Byte.to_N_bounded b) as H. lia.
Qed.

Lemma Z_of_byte_of_Z (z : Z) : Z_of_byte (byte_of_Z z) = z mod 256.
Proof.
  unfold Z_of_byte, byte_of_Z.
  pose proof (Z.mod_pos_bound z 256 ltac:(lia)) as Hz.
  destruct (Byte.of_N (Z.to_N (z mod 256))) as [b|] eqn:Hb.
  - apply Byte.to_of_N in Hb. cbn. rewrite Hb. lia.
  - apply Byte.of_N_None_iff in Hb. lia.
Qed.

Lemma fold_SetBytes (l : list byte) (a : Z) :
  fold_left (fun acc x => acc * 256 + Z_of_byte x) l a
  = a * 256 ^ len l + big_SetBytes l.
Proof.
  unfold big_SetBytes, len. revert a.
  induction l as [|b l IH]; intros a.
  - cbn. lia.
  - cbn [fold_left length]. rewrite IH, (IH (0 * 256 + Z_of_byte b)).
    rewrite Nat2Z.inj_succ, Z.pow_succ_r by lia. lia.
Qed.

Lemma big_SetBytes_cons (b : byte) (l : list byte) :
  big_SetBytes (b :: l) = Z_of_byte b * 256 ^ len l + big_SetBytes l.
Proof.
  unfold big_SetBytes at 1. cbn [fold_left]. rewrite fold_SetBytes. lia.
Qed.

Lemma big_SetBytes_snoc (l : list byte) (b : byte) :
  big_SetBytes (l ++ [b]) = big_SetBytes l * 256 + Z_of_byte b.
Proof. unfold big_SetBytes. rewrite fold_left_app. reflexivity. Qed.

(** The bytes of a fixed-size array spell the number it holds. *)
Lemma big_SetBytes_fixed_bytes (w : nat) (x : Z) :
  big_SetBytes (fixed_bytes w x) = x mod 256 ^ Z.of_nat w.
Proof.
  revert x. induction w as [|w IH]; intros x.
  - cbn. rewrite Z.mod_1_r. reflexivity.
  - change (fixed_bytes (S w) x) with (fixed_bytes w (x / 256) ++ [byte_of_Z x]).
    rewrite big_SetBytes_snoc, IH, Z_of_byte_of_Z.
    rewrite Nat2Z.inj_succ, Z.pow_succ_r by lia.
    assert (0 < 256 ^ Z.of_nat w) by (apply Z.pow_pos_nonneg; lia).
    rewrite Z.rem_mul_r by lia. lia.
Qed.

Lemma be_bytes_value (fuel : nat) (n : Z) (acc : list byte) :
  0 <= n < 256 ^ Z.of_nat fuel ->
  big_SetBytes (be_bytes fuel n acc) = n * 256 ^ len acc + big_SetBytes acc.
Proof.
  revert n acc. induction fuel as [|fuel IH]; intros n acc Hn.
  - change (256 ^ Z.of_nat 0) with 1 in Hn. assert (n = 0) by lia. subst n.
    cbn [be_bytes]. lia.
  - cbn [be_bytes]. destruct (Z.eqb_spec n 0) as [->|Hne]; [lia|].
    rewrite Nat2Z.inj_succ, Z.pow_succ_r in Hn by lia.
    rewrite IH.
    + rewrite big_SetBytes_cons, Z_of_byte_of_Z. unfold len. cbn [length].
      rewrite Nat2Z.inj_succ, Z.pow_succ_r by lia.
      pose proof (Z.div_mod n 256 ltac:(lia)). nia.
    + split; [apply Z.div_pos; lia|].
      apply Z.div_lt_upper_bound; lia.
Qed.

(** [SetBytes] reads back the magnitude that [Bytes] wrote: the fuel of
    [big_Bytes] is enough. *)
Lemma big_SetBytes_Bytes (x : Z) : big_SetBytes (big_Bytes x) = Z.abs x.
Proof.
  unfold big_Bytes. rewrite be_bytes_value.
  { change (256 ^ len (@nil byte)) with 1. change (big_SetBytes []) with 0. lia. }
  split; [lia|].
  destruct (Z.eq_dec (Z.abs x) 0) as [->|Hne]; [reflexivity|].
  pose proof (Z.log2_nonneg (Z.abs x)) as Hlog.
  rewrite Z2Nat.id by lia.
  pose proof (Z.log2_spec (Z.abs x) ltac:(lia)) as [_ Hlt].
  rewrite <- Z.add_1_r in Hlt.
  eapply Z.lt_le_trans; [exact Hlt|].
  apply Z.pow_le_mono_l. lia.
Qed.

(** ** The interpreter *)

Ltac unfold_ops :=
  unfold opAdd, opMul, opSub, opLt, opGt, opEq, opAnd, opOr, opXor,
    binop, opDiv, opIszero, opNot, opPop, opDup1, opSwap1, opMload,
    opMstore, opMstore8, opSload, opSstore, contract_EVM_State, opJump, opJumpi,
    opPc, opMsize, opGas, makePush, mbind, outcome_bind, big_Div.

Ltac case_ops :=
  repeat match goal with
         | |- context [pop ?s] => destruct (pop s)
         | |- context [if ?b then _ else _] => destruct b
         | |- context [Memory_Set ?a ?b ?c ?d] => destruct (Memory_Set a b c d)
         | |- context [Memory_Get ?a ?b ?c] => destruct (Memory_Get a b c)
         | |- context [big_Bytes ?v] => destruct (big_Bytes v)
         end.

Lemma getGasCost_uint64 (gt : GasTable) (opcode : Z) :
  GasTable_wf gt -> is_uint64 (getGasCost gt opcode).
Proof.
  intros (? & ? & ? & ? & ? & ? & ? & ?). unfold getGasCost.
  repeat match goal with
         | |- context [if ?b then _ else _] => destruct b
         end; assumption.
Qed.





Lemma Run_loop_reaches (in_ : Interpreter) (m : Machine) (e : option error)
    (m' : Machine) :
  Run_loop in_ m = Ret (e, m') ->
  exists mf, reaches in_ m mf
             /\ step in_ mf = match e with
                              | Some err => Fail err m'
                              | None => Halt m'
                              end.
Proof.
  funelim (Run_loop in_ m); intros Hrun.
  - injection Hrun as <- <-. exists m. split; [constructor | assumption].
  - destruct (H _ _ Hrun) as (mf & Hr & Hs).
    exists mf. split; [econstructor; eassumption | assumption].
  - injection Hrun as <- <-. exists m. split; [constructor | assumption].
  - discriminate.
Qed.


Lemma u64_sub_small (a b : Z) : 0 <= b <= a -> a < two64 -> u64_sub a b = a - b.
Proof. intros ? ?. unfold u64_sub. apply Z.mod_small. lia. Qed.


(** Closed arithmetic facts, by evaluation. *)
Ltac by_evaluation :=
  vm_compute;
  repeat match goal with
         | |- _ /\ _ => split
         end;
  first [reflexivity | congruence].


(** C9.  The two documented edge cases of the interpreter.  Popping (or
    peeking) an empty stack returns zero and leaves the stack empty.  [DIV]
    whose divisor (the second value popped, itself zero when the stack runs
    out) is zero pushes 0 and reports no error; and a turn of the loop of
    [Run] on such a [DIV], given the gas for it, goes on with the next
    opcode: neither condition aborts the execution. *)
Theorem pop_empty_and_div_by_zero_do_not_abort
    (gt : GasTable) (m : Machine) (rest : list byte) :
  GasTable_wf gt ->
  c_Code (m_contract m) = x04 :: rest ->
  getGasCost gt DIV <= gas m < two64 ->
  fst (pop (snd (pop (m_stack m)))) = 0 ->
  pop [] = (0, [])
  /\ peek [] = 0
  /\ opDiv m = Ret (None, with_stack m (push 0 (snd (pop (snd (pop (m_stack m)))))))
  /\ step (NewInterpreter (Some gt)) m
     = Next (mkMachine
               (with_Gas (with_Code (m_contract m) rest) (gas m - getGasCost gt DIV))
               (push 0 (snd (pop (snd (pop (m_stack m))))))
               (m_memory m) (m_state m)).
Proof.
  intros Hwf Hcode Hgas Hzero.
  assert (Hdiv : forall m1, m_stack m1 = m_stack m ->
            opDiv m1 = Ret (None, with_stack m1 (push 0 (snd (pop (snd (pop (m_stack m)))))))).
  { intros m1 Hst. unfold opDiv. rewrite Hst.
    destruct (pop (m_stack m)) as [x s1]. cbn in *.
    destruct (pop s1) as [y s2]. cbn in *. subst y. reflexivity. }
  split; [reflexivity|]. split; [reflexivity|].
  split; [apply Hdiv; reflexivity|].
  unfold step. rewrite Hcode. cbn [in_evm NewInterpreter in_table].
  change (Z_of_byte x04) with DIV.
  pose proof (getGasCost_uint64 gt DIV Hwf) as Hcost. unfold is_uint64 in Hcost.
  unfold gas in *. cbn [m_contract with_contract with_Code c_Gas].
  destruct (Z.ltb_spec (c_Gas (m_contract m)) (getGasCost gt DIV)); [lia|].
  rewrite u64_sub_small by lia.
  change (newJumpTable DIV) with (Some OpDiv). cbn [execute].
  rewrite Hdiv by reflexivity. reflexivity.
Qed.

Lemma pop_empty_and_div_by_zero_do_not_abort_witness :
  step (NewInterpreter (Some defaultGasTable))
       (mkMachine (mkContract 5 7 0 [] 10 [x04; x00] []) [7; 0; 1] [] example_state)
  = Next (mkMachine (mkContract 5 7 0 [] 7 [x00] []) [0; 1] [] example_state)
  /\ step (NewInterpreter (Some defaultGasTable))
          (mkMachine (mkContract 5 7 0 [] 10 [x04; x00] []) [] [] example_state)
     = Next (mkMachine (mkContract 5 7 0 [] 7 [x00] []) [0] [] example_state).
Proof.
  split.
  - refine (proj2 (proj2 (proj2 (pop_empty_and_div_by_zero_do_not_abort
      defaultGasTable
      (mkMachine (mkContract 5 7 0 [] 10 [x04; x00] []) [7; 0; 1] [] example_state)
      [x00] _ _ _ _)))); try reflexivity; by_evaluation.
  - refine (proj2 (proj2 (proj2 (pop_empty_and_div_by_zero_do_not_abort
      defaultGasTable
      (mkMachine (mkContract 5 7 0 [] 10 [x04; x00] []) [] [] example_state)
      [x00] _ _ _ _)))); try reflexivity; by_evaluation.
Defined.

(** C10.  [ExecuteTransaction] has no result on a contract-creation
    transaction: with [To = nil] the dereference [*tx.To] panics while the
    frame is built, whatever the EVM and the state are; nothing is run and
    [CreateContract] is not called. *)
Theorem ExecuteTransaction_nil_To_panics (evm : EVM) (st : State) (tx : Transaction) :
  tx_To tx = None ->
  ExecuteTransaction evm st tx = Panic NilDereference.
Proof.
  intros Hto. unfold ExecuteTransaction. rewrite Hto. reflexivity.
Qed.

Lemma ExecuteTransaction_nil_To_panics_witness :
  ExecuteTransaction example_evm example_state
    (mkTransaction 0 1 100000 None 0 example_code 0 0 0 99 5)
  = Panic NilDereference.
Proof.
  apply (ExecuteTransaction_nil_To_panics example_evm example_state
           (mkTransaction 0 1 100000 None 0 example_code 0 0 0 99 5)).
  reflexivity.
Defined.

(** ** The consensus engine *)

Lemma elem_of_insert_by_total (x v : Validator) (l : list Validator) :
  x ∈ insert_by_total v l <-> x = v \/ x ∈ l.
Proof.
  induction l as [|w l IH]; cbn.
  - rewrite list_elem_of_singleton, elem_of_nil. tauto.
  - destruct (weight w <? weight v).
    + rewrite elem_of_cons. reflexivity.
    + rewrite !elem_of_cons, IH. tauto.
Qed.

Lemma elem_of_GetValidators (pos : PoS) (order : list Z) (v : Validator) :
  v ∈ GetValidators pos order <-> v ∈ range_validators pos order.
Proof.
  unfold GetValidators.
  induction (range_validators pos order) as [|w l IH]; cbn.
  - reflexivity.
  - rewrite elem_of_insert_by_total, elem_of_cons, IH. reflexivity.
Qed.

Lemma elem_of_range_validators (pos : PoS) (order : list Z) (v : Validator) :
  v ∈ range_validators pos order <->
  exists k, k ∈ order /\ pos_validators pos !! k = Some v.
Proof. unfold range_validators. apply list_elem_of_omap. Qed.

Lemma NewPoS_registry_wf (stakeAmount maxValidators : Z) :
  registry_wf (NewPoS stakeAmount maxValidators).
Proof. intros k v. cbn. rewrite lookup_empty. discriminate. Qed.

Lemma RegisterValidator_registry_wf
    (pos : PoS) (now : Z) (address : Address) (stake commission : Z)
    (publicKey : option PublicKey) :
  registry_wf pos ->
  registry_wf (snd (RegisterValidator pos now address stake commission publicKey)).
Proof.
  intros Hwf. unfold RegisterValidator.
  destruct (_ <? _); [exact Hwf|].
  destruct (_ <=? _); [exact Hwf|].
  destruct (pos_validators pos !! address); [exact Hwf|].
  intros k v. cbn. rewrite lookup_insert.
  destruct (decide (address = k)) as [->|Hne].
  - intros [= <-]. reflexivity.
  - apply Hwf.
Qed.

(** C6, as the code has it.  [RegisterValidator] fails exactly when the stake
    is below the minimum, or the registry, whatever the status of its
    validators, already holds [MaxValidators] entries, or the address is
    registered.  A failed call changes nothing, so an address that is
    rejected and was not registered before is not among [GetValidators()].
    A successful call stores, under the address, an active validator with
    the given stake, commission and key and with zero [TotalDelegated],
    [TotalBlocks] and [Rewards], and adds the stake to [totalStake]. *)
Theorem RegisterValidator_spec
    (pos : PoS) (now : Z) (address : Address) (stake commission : Z)
    (publicKey : option PublicKey) :
  registry_wf pos ->
  let r := RegisterValidator pos now address stake commission publicKey in
  (is_Some (fst r) <->
     stake < MinStakeAmount (pos_config pos)
     \/ MaxValidators (pos_config pos) <= Z.of_nat (size (pos_validators pos))
     \/ is_Some (pos_validators pos !! address))
  /\ (is_Some (fst r) ->
        snd r = pos
        /\ (pos_validators pos !! address = None ->
            forall order v, v ∈ GetValidators (snd r) order -> v_Address v <> address))
  /\ (fst r = None ->
        pos_validators (snd r)
        = <[address := mkValidator address stake 0 commission
                         ValidatorStatusActive now 0 0 publicKey]>
            (pos_validators pos)
        /\ pos_totalStake (snd r) = pos_totalStake pos + stake
        /\ pos_delegators (snd r) = pos_delegators pos
        /\ pos_config (snd r) = pos_config pos
        /\ registry_wf (snd r)).
Proof.
  intros Hwf r.
  assert (Hrej : forall order v, pos_validators pos !! address = None ->
            v ∈ GetValidators pos order -> v_Address v <> address).
  { intros order v Hnone Hin Heq.
    apply elem_of_GetValidators, elem_of_range_validators in Hin as (k & _ & Hk).
    rewrite (Hwf _ _ Hk) in Heq. subst k. congruence. }
  subst r. unfold RegisterValidator.
  destruct (Z.ltb_spec stake (MinStakeAmount (pos_config pos))) as [Hlow|Hlow]; cbn.
  { split; [split; eauto|]. split; [eauto|discriminate]. }
  destruct (Z.leb_spec (MaxValidators (pos_config pos))
                       (Z.of_nat (size (pos_validators pos)))) as [Hfull|Hfull]; cbn.
  { split; [split; eauto|]. split; [eauto|discriminate]. }
  destruct (pos_validators pos !! address) as [v0|] eqn:Hlook; cbn.
  { split; [split; eauto|]. split; [eauto|discriminate]. }
  split.
  { split; [intros [? [=]]|]. intros [?|[?|[? [=]]]]; lia. }
  split; [intros [? [=]]|].
  intros _. repeat split.
  pose proof (RegisterValidator_registry_wf pos now address stake commission
                publicKey Hwf) as Hwf'.
  unfold RegisterValidator in Hwf'.
  destruct (Z.ltb_spec stake (MinStakeAmount (pos_config pos))); [lia|].
  destruct (Z.leb_spec (MaxValidators (pos_config pos))
                       (Z.of_nat (size (pos_validators pos)))); [lia|].
  rewrite Hlook in Hwf'. exact Hwf'.
Qed.

Lemma RegisterValidator_spec_witness :
  let r := RegisterValidator (NewPoS 1000000 100) 1700000000 21 1000000 1000
             (Some (mkPublicKey 3 4)) in
  fst r = None
  /\ pos_validators (snd r) !! 21
     = Some (mkValidator 21 1000000 0 1000 ValidatorStatusActive 1700000000 0 0
                         (Some (mkPublicKey 3 4)))
  /\ pos_totalStake (snd r) = 1000000.
Proof.
  pose proof (RegisterValidator_spec (NewPoS 1000000 100) 1700000000 21 1000000
                1000 (Some (mkPublicKey 3 4)) (NewPoS_registry_wf 1000000 100))
    as (_ & _ & Hok).
  destruct (Hok eq_refl) as (Hreg & Htotal & _).
  split; [reflexivity|]. split.
  - rewrite Hreg. apply lookup_insert_eq.
  - exact Htotal.
Defined.

(** C6 as stated fails.  In [slashed_registry] no validator is active, so the
    active set is not at capacity; address 22 is not registered and brings
    the minimum stake; yet its registration is rejected, because the slashed
    entry fills the registry.  And the registered address 21 is rejected
    while it does appear in [GetValidators()]. *)
Lemma RegisterValidator_capacity_counterexample :
  let pos := slashed_registry in
  let order := [21] in
  registry_order pos order
  /\ getActiveValidators pos order = []
  /\ ~ (1000000 < MinStakeAmount (pos_config pos))
  /\ ~ (MaxValidators (pos_config pos) <= len (getActiveValidators pos order))
  /\ pos_validators pos !! 22 = None
  /\ fst (RegisterValidator pos 1700000001 22 1000000 1000 (Some (mkPublicKey 5 6)))
     = Some (Errorf "maximum validators reached: %d")
  /\ is_Some (fst (RegisterValidator pos 1700000001 21 1000000 1000
                     (Some (mkPublicKey 3 4))))
  /\ 21 ∈ v_Address <$> GetValidators pos order.
Proof.
  cbv zeta.
  split; [unfold registry_order; vm_compute; reflexivity|].
  split; [vm_compute; reflexivity|].
  split; [by_evaluation|].
  split; [by_evaluation|].
  split; [vm_compute; reflexivity|].
  split; [vm_compute; reflexivity|].
  split; [vm_compute; eexists; reflexivity|].
  vm_compute. apply list_elem_of_here.
Qed.

Lemma elem_of_getActiveValidators (pos : PoS) (order : list Z) (v : Validator) :
  v ∈ getActiveValidators pos order <->
  v_Status v = ValidatorStatusActive
  /\ exists k, k ∈ order /\ pos_validators pos !! k = Some v.
Proof.
  unfold getActiveValidators. rewrite list_elem_of_filter, elem_of_range_validators.
  unfold is_Active. rewrite bool_decide_eq_true. reflexivity.
Qed.

Lemma select_loop_elem (randNum cumulative : Z) (l : list Validator) (a : Address) :
  select_loop randNum cumulative l = Some a ->
  exists v, v ∈ l /\ a = v_Address v.
Proof.
  revert cumulative. induction l as [|v l IH]; intros cumulative; cbn; [discriminate|].
  destruct (randNum <? cumulative + weight v).
  - intros [= <-]. exists v. split; [apply list_elem_of_here | reflexivity].
  - intros H. destruct (IH _ H) as (w & Hw & ->).
    exists w. split; [apply list_elem_of_further; exact Hw | reflexivity].
Qed.

Lemma registry_order_NoDup (pos : PoS) (order : list Z) :
  registry_order pos order -> NoDup order.
Proof.
  unfold registry_order. intros ->. apply NoDup_fst_map_to_list.
Qed.

Lemma registry_order_elem (pos : PoS) (order : list Z) (k : Z) (v : Validator) :
  registry_order pos order -> pos_validators pos !! k = Some v -> k ∈ order.
Proof.
  unfold registry_order. intros -> Hk.
  apply list_elem_of_fmap. exists (k, v). split; [reflexivity|].
  apply elem_of_map_to_list. exact Hk.
Qed.

(** What the walk over the registry finds when [v], under key [k], is the
    only active validator. *)
Lemma getActiveValidators_single (pos : PoS) (order : list Z) (k : Z) (v : Validator) :
  NoDup order ->
  pos_validators pos !! k = Some v ->
  v_Status v = ValidatorStatusActive ->
  (forall k' v', pos_validators pos !! k' = Some v' ->
                 v_Status v' = ValidatorStatusActive -> k' = k) ->
  getActiveValidators pos order = if decide (k ∈ order) then [v] else [].
Proof.
  intros Hnd Hk Hact Honly. unfold getActiveValidators, range_validators.
  set (look := fun k0 : Z => pos_validators pos !! k0).
  set (act := fun v0 : Validator => is_Active v0 = true).
  induction Hnd as [|a order Ha Hnd IH].
  - reflexivity.
  - change (omap look (a :: order))
      with (match look a with
            | Some w => w :: omap look order
            | None => omap look order
            end).
    destruct (decide (a = k)) as [->|Hne].
    + unfold look at 1. rewrite Hk.
      rewrite filter_cons_True
        by (unfold act, is_Active; rewrite bool_decide_eq_true; exact Hact).
      rewrite IH. rewrite decide_False by exact Ha.
      rewrite decide_True by apply list_elem_of_here. reflexivity.
    + assert (Hrest : (if decide (k ∈ a :: order) then [v] else [])
                      = (if decide (k ∈ order) then [v] else [])).
      { destruct (decide (k ∈ order)) as [Hin|Hin].
        - rewrite decide_True by (apply list_elem_of_further; exact Hin). reflexivity.
        - rewrite decide_False; [reflexivity|].
          rewrite elem_of_cons. intros [->|?]; congruence. }
      rewrite Hrest.
      destruct (look a) as [w|] eqn:Hw; [|exact IH].
      rewrite filter_cons_False; [exact IH|].
      unfold act, is_Active. rewrite bool_decide_eq_true.
      intros Hwact. apply Hne. exact (Honly _ _ Hw Hwact).
Qed.

(** C7, as the code has it.  [SelectValidator] returns the zero address or
    the address of an active validator of the registry, for every registry,
    every order of the walk and every draw; it returns the zero address when
    no validator is active and when the weights of the active validators sum
    to zero; it returns the address of an inactive or slashed validator only
    if that address is the zero address; and when exactly one validator is
    active and its weight is not zero, it returns that validator's address
    whatever the draw. *)
Theorem SelectValidator_spec
    (pos : PoS) (order : list Z) (randBytes : list byte) (slot : Z) :
  registry_order pos order ->
  registry_wf pos ->
  let r := SelectValidator pos order randBytes slot in
  (r = 0 \/ exists k v, pos_validators pos !! k = Some v
                        /\ v_Status v = ValidatorStatusActive
                        /\ r = v_Address v)
  /\ ((forall k v, pos_validators pos !! k = Some v ->
                   v_Status v <> ValidatorStatusActive) -> r = 0)
  /\ (foldr Z.add 0 (weight <$> getActiveValidators pos order) = 0 -> r = 0)
  /\ (forall k v, pos_validators pos !! k = Some v ->
                  v_Status v <> ValidatorStatusActive ->
                  r = v_Address v -> r = 0)
  /\ (forall k v, pos_validators pos !! k = Some v ->
                  v_Status v = ValidatorStatusActive ->
                  (forall k' v', pos_validators pos !! k' = Some v' ->
                                 v_Status v' = ValidatorStatusActive -> k' = k) ->
                  weight v <> 0 ->
                  r = v_Address v).
Proof.
  intros Horder Hwf r.
  assert (Hmain : r = 0 \/ exists k v, pos_validators pos !! k = Some v
                        /\ v_Status v = ValidatorStatusActive
                        /\ r = v_Address v).
  { subst r. unfold SelectValidator.
    destruct (getActiveValidators pos order) as [|first rest] eqn:Hact; [left; reflexivity|].
    destruct (_ =? 0); [left; reflexivity|]. right.
    assert (Hin : forall w, w ∈ first :: rest ->
              exists k, pos_validators pos !! k = Some w
                        /\ v_Status w = ValidatorStatusActive).
    { intros w Hw. rewrite <- Hact in Hw.
      apply elem_of_getActiveValidators in Hw as (? & k & _ & ?). eauto. }
    destruct (select_loop _ 0 (first :: rest)) as [a|] eqn:Hsel.
    - apply select_loop_elem in Hsel as (w & Hw & ->).
      destruct (Hin w Hw) as (k & ? & ?). eauto.
    - destruct (Hin first (list_elem_of_here _ _)) as (k & ? & ?). eauto. }
  split; [exact Hmain|].
  split.
  { intros Hnone. destruct Hmain as [?|(k & v & Hk & Hact & _)]; [assumption|].
    exfalso. exact (Hnone _ _ Hk Hact). }
  split.
  { intros Hzero. subst r. unfold SelectValidator.
    destruct (getActiveValidators pos order); [reflexivity|].
    rewrite Hzero. reflexivity. }
  split.
  { intros k v Hk Hnact Hr.
    destruct Hmain as [?|(k' & v' & Hk' & Hact' & Hr')]; [assumption|].
    exfalso. apply Hnact.
    assert (k' = k) by (rewrite <- (Hwf _ _ Hk), <- (Hwf _ _ Hk'); congruence).
    subst k'. congruence. }
  intros k v Hk Hact Honly Hw. subst r. unfold SelectValidator.
  rewrite (getActiveValidators_single pos order k v
             (registry_order_NoDup _ _ Horder) Hk Hact Honly).
  rewrite decide_True by exact (registry_order_elem _ _ _ _ Horder Hk).
  cbn. replace (weight v + 0) with (weight v) by lia.
  destruct (Z.eqb_spec (weight v) 0); [contradiction|].
  destruct (_ <? _); reflexivity.
Qed.

Lemma SelectValidator_spec_witness :
  SelectValidator single_registry [21] (repeat xff 32) 5 = 21.
Proof.
  refine (proj2 (proj2 (proj2 (proj2
    (SelectValidator_spec single_registry [21] (repeat xff 32) 5 _ _))))
    21 (mkValidator 21 1000000 0 1000 ValidatorStatusActive 1700000000 0 0
                    (Some (mkPublicKey 3 4))) _ _ _ _).
  - unfold registry_order. vm_compute. reflexivity.
  - apply RegisterValidator_registry_wf, NewPoS_registry_wf.
  - vm_compute. reflexivity.
  - reflexivity.
  - intros k' v' Hk' _. change (pos_validators single_registry)
      with (<[21 := mkValidator 21 1000000 0 1000 ValidatorStatusActive
                       1700000000 0 0 (Some (mkPublicKey 3 4))]>
              (∅ : gmap Z Validator)) in Hk'.
    apply lookup_insert_Some in Hk' as [[? _]|[_ Hk']]; [congruence|].
    rewrite lookup_empty in Hk'. discriminate.
  - by_evaluation.
Defined.

(** C7 as stated fails.  In [zero_weight_registry] exactly one validator is
    active, at address 21, yet [SelectValidator] returns the zero address,
    which is no active validator's address, although an active validator
    exists. *)
Lemma SelectValidator_zero_weight_counterexample :
  let pos := zero_weight_registry in
  let v := mkValidator 21 0 0 1000 ValidatorStatusActive 1700000000 0 0
                       (Some (mkPublicKey 3 4)) in
  registry_order pos [21]
  /\ pos_validators pos !! 21 = Some v
  /\ getActiveValidators pos [21] = [v]
  /\ SelectValidator pos [21] (repeat xff 32) 5 = 0
  /\ SelectValidator pos [21] (repeat xff 32) 5 <> v_Address v.
Proof.
  cbv zeta.
  split; [unfold registry_order; vm_compute; reflexivity|].
  split; [vm_compute; reflexivity|].
  split; [vm_compute; reflexivity|].
  split; [vm_compute; reflexivity|].
  by_evaluation.
Qed.

(** *** Unbonding *)

Lemma with_registry_id (pos : PoS) (delegator : Address) (ds : list Delegation) :
  pos_delegators pos !! delegator = Some ds ->
  with_registry pos (pos_validators pos) (<[delegator := ds]> (pos_delegators pos))
                (pos_totalStake pos) = pos.
Proof.
  intros H. unfold with_registry. rewrite (insert_id _ _ _ H).
  destruct pos; reflexivity.
Qed.

Lemma CompleteUnbonding_loop_prefix (now : Z) (validator : Address)
    (pre l : list Delegation) :
  Forall (fun x => is_unbonding_to validator x = false) pre ->
  CompleteUnbonding_loop now validator (pre ++ l)
  = match CompleteUnbonding_loop now validator l with
    | None => None
    | Some (r, l') => Some (r, pre ++ l')
    end.
Proof.
  unfold is_unbonding_to.
  induction 1 as [|x pre Hx Hpre IH]; cbn.
  - destruct (CompleteUnbonding_loop now validator l) as [[r l']|]; reflexivity.
  - rewrite Hx, IH.
    destruct (CompleteUnbonding_loop now validator l) as [[r l']|]; reflexivity.
Qed.

Lemma CompleteUnbonding_loop_none (now : Z) (validator : Address) (l : list Delegation) :
  Forall (fun x => is_unbonding_to validator x = false) l ->
  CompleteUnbonding_loop now validator l = None.
Proof.
  intros H. rewrite <- (app_nil_r l).
  rewrite (CompleteUnbonding_loop_prefix now validator l [] H). reflexivity.
Qed.

Lemma CompleteUnbonding_loop_paid (now : Z) (validator : Address)
    (l l' : list Delegation) (amount : Z) :
  CompleteUnbonding_loop now validator l = Some (inl amount, l') ->
  exists d', d' ∈ l /\ is_unbonding_to validator d' = true
             /\ d_UnbondTime d' <= now
             /\ amount = d_Amount d' + d_Rewards d'.
Proof.
  unfold is_unbonding_to. revert l'.
  induction l as [|x l IH]; intros l'; cbn; [discriminate|].
  destruct (delegation_matches validator DelegationStatusUnbonding x) eqn:Hx.
  - destruct (Z.ltb_spec now (d_UnbondTime x)); [discriminate|].
    intros [= <- <-]. exists x. split; [apply list_elem_of_here|auto].
  - destruct (CompleteUnbonding_loop now validator l) as [[r l0]|]; [|discriminate].
    intros [= -> <-]. destruct (IH _ eq_refl) as (d' & Hin & ?).
    exists d'. split; [apply list_elem_of_further; exact Hin | assumption].
Qed.

Lemma completed_is_not_unbonding (validator : Address) (d : Delegation) :
  is_unbonding_to validator (with_status d DelegationStatusCompleted) = false.
Proof.
  unfold is_unbonding_to, delegation_matches. cbn.
  rewrite bool_decide_eq_false_2 by discriminate. apply andb_false_r.
Qed.

(** C5.  [CompleteUnbonding(delegator, validator)] looks for the delegator's
    first delegation to the validator that is unbonding.  Without one (no
    delegations at all, or none unbonding to that validator) it returns an
    error and changes nothing.  With [d] the first one: before
    [d.UnbondTime] it returns an error and changes nothing; from
    [d.UnbondTime] on it returns [d.Amount + d.Rewards] and marks [d]
    completed, nothing else changing.  After that success [d] is never paid
    again: a further call fails when no other delegation to the validator is
    unbonding, and a further call that succeeds pays another delegation. *)
Theorem CompleteUnbonding_spec
    (pos : PoS) (now : Z) (delegator validator : Address)
    (pre : list Delegation) (d : Delegation) (post : list Delegation) :
  pos_delegators pos !! delegator = Some (pre ++ d :: post) ->
  Forall (fun x => is_unbonding_to validator x = false) pre ->
  is_unbonding_to validator d = true ->
  (forall pos0,
     pos_delegators pos0 !! delegator = None
     \/ (exists ds, pos_delegators pos0 !! delegator = Some ds
                    /\ Forall (fun x => is_unbonding_to validator x = false) ds) ->
     exists err, CompleteUnbonding pos0 now delegator validator = (inr err, pos0))
  /\ (now < d_UnbondTime d ->
      CompleteUnbonding pos now delegator validator
      = (inr (Errorf "unbonding period not completed"), pos))
  /\ (d_UnbondTime d <= now ->
      let pos' := with_registry pos (pos_validators pos)
                    (<[delegator := pre ++ with_status d DelegationStatusCompleted :: post]>
                       (pos_delegators pos))
                    (pos_totalStake pos) in
      CompleteUnbonding pos now delegator validator
      = (inl (d_Amount d + d_Rewards d), pos')
      /\ forall now',
           (Forall (fun x => is_unbonding_to validator x = false) post ->
            CompleteUnbonding pos' now' delegator validator
            = (inr (Errorf "unbonding delegation not found"), pos'))
           /\ (forall amount pos'',
                 CompleteUnbonding pos' now' delegator validator = (inl amount, pos'') ->
                 exists d', d' ∈ post /\ is_unbonding_to validator d' = true
                            /\ amount = d_Amount d' + d_Rewards d')).
Proof.
  intros Hds Hpre Hd.
  assert (Hloop : CompleteUnbonding_loop now validator (pre ++ d :: post)
                  = if now <? d_UnbondTime d
                    then Some (inr (Errorf "unbonding period not completed"),
                               pre ++ d :: post)
                    else Some (inl (d_Amount d + d_Rewards d),
                               pre ++ with_status d DelegationStatusCompleted :: post)).
  { rewrite (CompleteUnbonding_loop_prefix _ _ _ _ Hpre). cbn.
    unfold is_unbonding_to in Hd. rewrite Hd.
    destruct (now <? d_UnbondTime d); reflexivity. }
  split.
  { intros pos0 [Hnone|(ds & Hsome & Hall)]; unfold CompleteUnbonding.
    - rewrite Hnone. eauto.
    - rewrite Hsome, (CompleteUnbonding_loop_none _ _ _ Hall). eauto. }
  split.
  { intros Hearly. unfold CompleteUnbonding. rewrite Hds, Hloop.
    destruct (Z.ltb_spec now (d_UnbondTime d)); [|lia].
    rewrite (with_registry_id _ _ _ Hds). reflexivity. }
  intros Hdue pos'.
  split.
  { unfold CompleteUnbonding. rewrite Hds, Hloop.
    destruct (Z.ltb_spec now (d_UnbondTime d)); [lia|]. reflexivity. }
  intros now'.
  assert (Hds' : pos_delegators pos' !! delegator
                 = Some ((pre ++ [with_status d DelegationStatusCompleted]) ++ post)).
  { subst pos'. cbn. rewrite lookup_insert_eq, <- app_assoc. reflexivity. }
  assert (Hpre' : Forall (fun x => is_unbonding_to validator x = false)
                         (pre ++ [with_status d DelegationStatusCompleted])).
  { apply Forall_app. split; [exact Hpre|].
    constructor; [apply completed_is_not_unbonding | constructor]. }
  split.
  - intros Hpost. unfold CompleteUnbonding. rewrite Hds'.
    rewrite CompleteUnbonding_loop_none; [reflexivity|].
    apply Forall_app. split; assumption.
  - intros amount pos''. unfold CompleteUnbonding. rewrite Hds'.
    rewrite (CompleteUnbonding_loop_prefix _ _ _ _ Hpre').
    destruct (CompleteUnbonding_loop now' validator post) as [[r l']|] eqn:Hpost;
      [|discriminate].
    intros [= -> _].
    destruct (CompleteUnbonding_loop_paid _ _ _ _ _ Hpost) as (d' & ? & ? & _ & ?).
    eauto.
Qed.

Lemma CompleteUnbonding_spec_witness :
  CompleteUnbonding unbonding_registry 300 31 21
  = (inr (Errorf "unbonding period not completed"), unbonding_registry)
  /\ fst (CompleteUnbonding unbonding_registry (200 + 7 * 24 * hour) 31 21) = inl 1000
  /\ fst (CompleteUnbonding
            (snd (CompleteUnbonding unbonding_registry (200 + 7 * 24 * hour) 31 21))
            (300 + 7 * 24 * hour) 31 21)
     = inr (Errorf "unbonding delegation not found").
Proof.
  destruct (CompleteUnbonding_spec unbonding_registry 300 31 21
              [] unbonding_delegation [])
    as (_ & Hearly & _);
    [vm_compute; reflexivity | constructor | reflexivity |].
  destruct (CompleteUnbonding_spec unbonding_registry (200 + 7 * 24 * hour) 31 21
              [] unbonding_delegation [])
    as (_ & _ & Hdue);
    [vm_compute; reflexivity | constructor | reflexivity |].
  destruct (Hdue ltac:(by_evaluation)) as (Hpaid & Hagain).
  destruct (Hagain (300 + 7 * 24 * hour)) as (Hfail & _).
  split; [apply Hearly; by_evaluation|].
  split; [rewrite Hpaid; reflexivity|].
  rewrite Hpaid. cbn [snd]. rewrite Hfail; [reflexivity | constructor].
Defined.

(** *** Rewards *)

(** The division of the validator's reward by [Stake + TotalDelegated] has
    no guard: on a validator whose two amounts sum to zero,
    [distributeRewards] panics. *)
Lemma distributeRewards_zero_weight (pos : PoS) (key : Address) (v : Validator) :
  pos_validators pos !! key = Some v ->
  weight v = 0 ->
  distributeRewards pos key = Panic DivisionByZero.
Proof.
  intros Hv Hw. unfold distributeRewards, weight in *. rewrite Hv.
  unfold mbind, outcome_bind, big_Div. cbn. rewrite Hw. reflexivity.
Qed.

(** C8 fails on the code.  [UpdateBlock] for a block of validator 21 divides
    by zero, both in the registry whose minimum stake is 0 and in the one
    where a negative delegation cancels the stake. *)
Theorem UpdateBlock_divides_by_zero :
  UpdateBlock zero_weight_registry 1700000006 (block_by 21 1) = Panic DivisionByZero
  /\ UpdateBlock cancelled_weight_registry 1700000006 (block_by 21 1)
     = Panic DivisionByZero
  /\ fst (Delegate single_registry 100 31 21 (-1000000)) = None.
Proof.
  split; [vm_compute; reflexivity|].
  split; vm_compute; reflexivity.
Qed.

(** ** The chain *)

(** *** What does not write to the store *)

Lemma db_Get_kv (db : DB) (key : list byte) : db_kv (snd (db_Get db key)) = db_kv db.
Proof.
  unfold db_Get, db_tick.
  destruct (db_faults db) as [|[|] fs]; cbn; try reflexivity;
    destruct (db_kv db !! key); reflexivity.
Qed.

Lemma GetAccount_kv (s : State) (addr : Address) : kv (snd (GetAccount s addr)) = kv s.
Proof.
  unfold GetAccount, kv. destruct (s_cache s !! addr); [reflexivity|].
  pose proof (db_Get_kv (s_db s) (Address_Bytes addr)) as H.
  destruct (db_Get (s_db s) (Address_Bytes addr)) as [r db']. exact H.
Qed.

Lemma execute_kv (o : operation) (m m' : Machine) (e : option error) :
  execute o m = Ret (e, m') -> kv (m_state m') = kv (m_state m).
Proof.
  destruct o; cbn; unfold_ops; case_ops;
    intros H; inversion H; subst; cbn; reflexivity.
Qed.

Lemma step_kv (in_ : Interpreter) (m : Machine) :
  match step in_ m with
  | Halt m' | Next m' | Fail _ m' => kv (m_state m') = kv (m_state m)
  | Crash _ => True
  end.
Proof.
  unfold step.
  destruct (c_Code (m_contract m)) as [|b rest]; [reflexivity|].
  destruct (in_evm in_) as [gt|]; [|exact I].
  cbn. destruct (_ <? _); [reflexivity|].
  destruct (in_table in_ (Z_of_byte b)) as [o|]; [|reflexivity].
  destruct (execute o _) as [[[err|] m3]|p] eqn:Hex; [| |exact I].
  - apply execute_kv in Hex. exact Hex.
  - apply execute_kv in Hex. destruct (_ || _); exact Hex.
Qed.

Lemma reaches_kv (in_ : Interpreter) (m m' : Machine) :
  reaches in_ m m' -> kv (m_state m') = kv (m_state m).
Proof.
  induction 1 as [m|m m1 m2 Hstep _ IH]; [reflexivity|].
  pose proof (step_kv in_ m) as Hs. rewrite Hstep in Hs. congruence.
Qed.

Lemma Run_loop_kv (in_ : Interpreter) (m m' : Machine) (e : option error) :
  Run_loop in_ m = Ret (e, m') -> kv (m_state m') = kv (m_state m).
Proof.
  intros Hrun. destruct (Run_loop_reaches _ _ _ _ Hrun) as (mf & Hreach & Hstep).
  pose proof (step_kv in_ mf) as Hs. rewrite Hstep in Hs.
  apply reaches_kv in Hreach. destruct e; congruence.
Qed.

Lemma ExecuteTransaction_kv (evm : EVM) (st st' : State) (tx : Transaction)
    (receipt : Receipt) (err : option error) :
  ExecuteTransaction evm st tx = Ret (receipt, err, st') -> kv st' = kv st.
Proof.
  unfold ExecuteTransaction.
  destruct (tx_To tx) as [to|]; [|discriminate].
  pose proof (GetAccount_kv st to) as H1. unfold GetCode, GetCodeHash.
  destruct (GetAccount st to) as [a1 st1].
  pose proof (GetAccount_kv st1 to) as H2.
  destruct (GetAccount st1 to) as [a2 st2].
  unfold Run, mbind, outcome_bind.
  destruct (Run_loop _ _) as [[e m]|p] eqn:Hrun; [|discriminate].
  apply Run_loop_kv in Hrun. cbn in *.
  destruct e as [e|].
  - intros [= <- <- <-]. congruence.
  - unfold GetNonce.
    destruct (GetAccount (m_state m) (tx_From tx)) as [a3 st3]. cbn. discriminate.
Qed.

Lemma ExecuteTransactions_loop_kv (evm : EVM) (txs : list Transaction) :
  forall st receipts r st',
    ExecuteTransactions_loop evm st txs receipts = Ret (r, st') -> kv st' = kv st.
Proof.
  induction txs as [|tx txs IH]; intros st receipts r st'; cbn.
  - intros [= <- <-]. reflexivity.
  - unfold mbind, outcome_bind.
    destruct (ExecuteTransaction evm st tx) as [[[receipt err] st1]|p] eqn:Hex;
      [|discriminate].
    apply ExecuteTransaction_kv in Hex.
    destruct err as [e|].
    + intros [= <- <-]. exact Hex.
    + intros H. apply IH in H. congruence.
Qed.

Section ChainProperties.

Variable prim : Primitives.

(** *** Transactions *)

Lemma ValidateTransaction_frame (bc : Blockchain) (tx : Transaction) :
  let bc' := snd (ValidateTransaction prim bc tx) in
  store bc' = store bc
  /\ bc_currentBlock bc' = bc_currentBlock bc
  /\ bc_txPool bc' = bc_txPool bc
  /\ bc_config bc' = bc_config bc
  /\ bc_consensus bc' = bc_consensus bc
  /\ bc_vm bc' = bc_vm bc
  /\ bc_blockCache bc' = bc_blockCache bc.
Proof.
  unfold ValidateTransaction, store.
  destruct (VerifySignature prim _ _ _ _ _); [cbn; auto 10|].
  pose proof (GetAccount_kv (bc_state bc) (tx_From tx)) as Hkv.
  destruct (GetAccount (bc_state bc) (tx_From tx)) as [account st].
  destruct (negb _); [cbn; auto 10|].
  destruct (_ <? _); [cbn; auto 10|].
  destruct (_ <? _); cbn; auto 10.
Qed.


(** *** Blocks *)

Lemma same_tip_and_store_refl (bc : Blockchain) : same_tip_and_store bc bc.
Proof. repeat split. Qed.

Lemma same_tip_and_store_trans (bc1 bc2 bc3 : Blockchain) :
  same_tip_and_store bc1 bc2 -> same_tip_and_store bc2 bc3 ->
  same_tip_and_store bc1 bc3.
Proof.
  intros (? & ? & ? & ?) (? & ? & ? & ?). repeat split; congruence.
Qed.

Lemma ValidateTransaction_same (bc : Blockchain) (tx : Transaction) :
  same_tip_and_store bc (snd (ValidateTransaction prim bc tx)).
Proof.
  pose proof (ValidateTransaction_frame bc tx) as (? & ? & ? & ? & ? & ? & ?).
  repeat split; assumption.
Qed.

Lemma validate_transactions_same (txs : list Transaction) (bc : Blockchain) :
  same_tip_and_store bc (snd (validate_transactions prim bc txs)).
Proof.
  revert bc. induction txs as [|tx txs IH]; intros bc; cbn.
  - apply same_tip_and_store_refl.
  - pose proof (ValidateTransaction_same bc tx) as H.
    destruct (ValidateTransaction prim bc tx) as [[err|] bc1]; cbn in *.
    + exact H.
    + exact (same_tip_and_store_trans _ _ _ H (IH bc1)).
Qed.

Lemma GetBlockByHash_same (bc : Blockchain) (hash : Hash) :
  same_tip_and_store bc (snd (GetBlockByHash prim bc hash)).
Proof.
  unfold GetBlockByHash.
  destruct (bc_blockCache bc !! hash); [apply same_tip_and_store_refl|].
  pose proof (db_Get_kv (bc_db bc) (Hash_Bytes hash)) as Hkv.
  destruct (db_Get (bc_db bc) (Hash_Bytes hash)) as [r db']. cbn in Hkv.
  assert (Hdb : same_tip_and_store bc (with_db bc db'))
    by (repeat split; exact Hkv).
  destruct r as [data|err].
  - destruct (rlp_DecodeBlock prim data); exact Hdb.
  - destruct err; exact Hdb.
Qed.

Lemma ValidateBlock_same (bc : Blockchain) (order : list Z) (randBytes : list byte)
    (block : Block) (err : option error) (bc' : Blockchain) :
  ValidateBlock prim bc order randBytes block = Ret (err, bc') ->
  same_tip_and_store bc bc'.
Proof.
  unfold ValidateBlock.
  destruct (negb _); [intros [= <- <-]; apply same_tip_and_store_refl|].
  assert (Hparent : forall b : bool,
            same_tip_and_store bc
              (snd (if b
                    then match GetBlockByHash prim bc (h_ParentHash (b_Header block)) with
                         | (inr e, bc0) => (Some e, bc0)
                         | (inl _, bc0) => (None, bc0)
                         end
                    else (None, bc)))).
  { intros [|]; [|apply same_tip_and_store_refl].
    pose proof (GetBlockByHash_same bc (h_ParentHash (b_Header block))) as H.
    destruct (GetBlockByHash prim bc _) as [[?|?] bc0]; exact H. }
  specialize (Hparent (0 <? h_Number (b_Header block))).
  destruct (if 0 <? h_Number (b_Header block) then _ else _) as [parentErr bc1].
  cbn in Hparent.
  destruct parentErr; [intros [= <- <-]; exact Hparent|].
  unfold mbind, outcome_bind.
  destruct (PoS_ValidateBlock prim _ _ _ _) as [[e|]|p]; [| |discriminate].
  - intros [= <- <-]. exact Hparent.
  - pose proof (validate_transactions_same (b_Transactions block) bc1) as Htx.
    destruct (validate_transactions prim bc1 (b_Transactions block)) as [e bc2].
    intros [= <- <-]. exact (same_tip_and_store_trans _ _ _ Hparent Htx).
Qed.

Lemma ExecuteTransactions_same (bc : Blockchain) (txs : list Transaction)
    (r : list Receipt + error) (bc' : Blockchain) :
  ExecuteTransactions bc txs = Ret (r, bc') -> same_tip_and_store bc bc'.
Proof.
  unfold ExecuteTransactions, mbind, outcome_bind.
  destruct (ExecuteTransactions_loop _ _ _ _) as [[r0 st]|p] eqn:Hloop; [|discriminate].
  apply ExecuteTransactions_loop_kv in Hloop.
  intros [= <- <-]. repeat split. exact Hloop.
Qed.

Lemma length_fixed_bytes (w : nat) (x : Z) : length (fixed_bytes w x) = w.
Proof.
  revert x. induction w as [|w IH]; intros x; [reflexivity|].
  change (fixed_bytes (S w) x) with (fixed_bytes w (x / 256) ++ [byte_of_Z x]).
  rewrite length_app, IH. cbn. lia.
Qed.

Lemma Hash_Bytes_not_pointer_key (h : Hash) : Hash_Bytes h <> currentBlock_key.
Proof.
  intros H. apply (f_equal (@length byte)) in H.
  unfold Hash_Bytes in H. rewrite length_fixed_bytes in H. discriminate H.
Qed.

Lemma db_Put_kv (db : DB) (key value : list byte) :
  let r := db_Put db key value in
  match fst r with
  | None => db_kv (snd r) = <[key := value]> (db_kv db)
  | Some _ => db_kv (snd r) = db_kv db
  end.
Proof.
  unfold db_Put, db_tick. destruct (db_faults db) as [|[|] fs]; reflexivity.
Qed.

Lemma writeBlock_spec (bc : Blockchain) (block : Block) :
  let r := writeBlock prim bc block in
  bc_currentBlock (snd r) = bc_currentBlock bc
  /\ bc_consensus (snd r) = bc_consensus bc
  /\ (fst r = None ->
      exists data,
        rlp_EncodeBlock prim block = inl data
        /\ store (snd r) !! Hash_Bytes (b_Hash block) = Some data
        /\ store (snd r) !! currentBlock_key = Some (Hash_Bytes (b_Hash block))).
Proof.
  unfold writeBlock.
  destruct (rlp_EncodeBlock prim block) as [data|e];
    [|cbn; split; [reflexivity|]; split; [reflexivity|]; discriminate].
  pose proof (db_Put_kv (bc_db bc) (Hash_Bytes (b_Hash block)) data) as H1.
  destruct (db_Put (bc_db bc) (Hash_Bytes (b_Hash block)) data) as [[e1|] db1];
    [cbn; split; [reflexivity|]; split; [reflexivity|]; discriminate|].
  pose proof (db_Put_kv db1 currentBlock_key (Hash_Bytes (b_Hash block))) as H2.
  destruct (db_Put db1 currentBlock_key (Hash_Bytes (b_Hash block))) as [[e2|] db2];
    [cbn; split; [reflexivity|]; split; [reflexivity|]; discriminate|].
  cbn in *. split; [reflexivity|]. split; [reflexivity|]. intros _.
  exists data. split; [reflexivity|].
  unfold store, kv. cbn. rewrite H2, H1. split.
  - rewrite lookup_insert_ne by (apply not_eq_sym, Hash_Bytes_not_pointer_key).
    apply lookup_insert_eq.
  - apply lookup_insert_eq.
Qed.

Lemma ValidateBlock_accepts (bc : Blockchain) (order : list Z) (randBytes : list byte)
    (block : Block) (bc' : Blockchain) :
  ValidateBlock prim bc order randBytes block = Ret (None, bc') ->
  Hash_Bytes (b_Hash block) = Hash_Bytes (ComputeHash prim block)
  /\ (0 < h_Number (b_Header block) ->
      exists parent,
        fst (GetBlockByHash prim bc (h_ParentHash (b_Header block))) = inl parent)
  /\ PoS_ValidateBlock prim (bc_consensus bc) order randBytes block = Ret None.
Proof.
  unfold ValidateBlock.
  destruct (bool_decide (Hash_Bytes (b_Hash block) = Hash_Bytes (ComputeHash prim block)))
    eqn:Hhash; cbn [negb]; [|discriminate].
  apply bool_decide_eq_true in Hhash.
  pose proof (GetBlockByHash_same bc (h_ParentHash (b_Header block))) as Hsame.
  destruct (Z.ltb_spec 0 (h_Number (b_Header block))) as [Hpos|Hpos].
  - destruct (GetBlockByHash prim bc (h_ParentHash (b_Header block)))
      as [[parent|e] bc1]; [|discriminate].
    destruct Hsame as (_ & _ & Hcons & _). cbn in Hcons. rewrite Hcons.
    unfold mbind, outcome_bind.
    destruct (PoS_ValidateBlock prim _ _ _ _) as [[e|]|p]; try discriminate.
    intros _. split; [exact Hhash|]. split; [eauto | reflexivity].
  - unfold mbind, outcome_bind.
    destruct (PoS_ValidateBlock prim _ _ _ _) as [[e|]|p]; try discriminate.
    intros _. split; [exact Hhash|]. split; [lia | reflexivity].
Qed.

Lemma ValidateBlock_error_kind (bc : Blockchain) (order : list Z)
    (randBytes : list byte) (block : Block) (err : error) (bc' : Blockchain) :
  ValidateBlock prim bc order randBytes block = Ret (Some err, bc') ->
  ~ persistence_error err.
Proof.
  unfold ValidateBlock.
  destruct (negb _).
  { intros [= <- <-] (c & [?|?]); discriminate. }
  destruct (if 0 <? h_Number (b_Header block) then _ else _) as [parentErr bc1].
  destruct parentErr.
  { intros [= <- <-] (c & [?|?]); discriminate. }
  unfold mbind, outcome_bind.
  destruct (PoS_ValidateBlock prim _ _ _ _) as [[e|]|p]; [| |discriminate].
  { intros [= <- <-] (c & [?|?]); discriminate. }
  generalize (b_Transactions block) bc1. clear.
  intros txs. induction txs as [|tx txs IH]; intros bc1; cbn.
  - discriminate.
  - destruct (ValidateTransaction prim bc1 tx) as [[e|] bc2].
    + intros [= <- <-] (c & [?|?]); discriminate.
    + apply IH.
Qed.

(** C1, as the code has it.  A step of [ProcessBlock] that returns an error
    (validation, execution of the transactions, [Commit], [writeBlock]) makes
    [ProcessBlock] return an error.  Whenever [ProcessBlock] returns an error,
    the in-memory [currentBlock] is the one it was; and unless the error comes
    from committing the state or from writing the block, the store holds what
    it held.  Whenever [ProcessBlock] returns without an error, validation,
    execution, [Commit] and [writeBlock] have all succeeded, the store holds
    the encoded block under its hash and the block's hash under
    ["currentBlock"], and [currentBlock] is the block: the pointer in memory
    moves only after both writes. *)
Theorem ProcessBlock_failure_spec
    (bc : Blockchain) (now : Z) (order : list Z) (randBytes : list byte)
    (block : Block) :
  let run := ProcessBlock prim bc now order randBytes block in
  (forall err bc1,
     ValidateBlock prim bc order randBytes block = Ret (Some err, bc1) ->
     run = Ret (Some err, bc1))
  /\ (forall bc1 err bc2,
        ValidateBlock prim bc order randBytes block = Ret (None, bc1) ->
        ExecuteTransactions bc1 (b_Transactions block) = Ret (inr err, bc2) ->
        run = Ret (Some (Errorw "failed to execute transactions" err), bc2))
  /\ (forall bc1 receipts bc2 err st,
        ValidateBlock prim bc order randBytes block = Ret (None, bc1) ->
        ExecuteTransactions bc1 (b_Transactions block) = Ret (inl receipts, bc2) ->
        Commit (Keccak256 prim) (bc_state bc2) = (Some err, st) ->
        run = Ret (Some (Errorw "failed to commit state" err), with_state bc2 st))
  /\ (forall bc1 receipts bc2 st err bc4,
        ValidateBlock prim bc order randBytes block = Ret (None, bc1) ->
        ExecuteTransactions bc1 (b_Transactions block) = Ret (inl receipts, bc2) ->
        Commit (Keccak256 prim) (bc_state bc2) = (None, st) ->
        writeBlock prim (with_state bc2 st) block = (Some err, bc4) ->
        run = Ret (Some (Errorw "failed to write block" err), bc4))
  /\ (forall r bc',
        run = Ret (r, bc') ->
        match r with
        | Some err =>
            bc_currentBlock bc' = bc_currentBlock bc
            /\ (~ persistence_error err -> store bc' = store bc)
        | None =>
            bc_currentBlock bc' = Some block
            /\ (exists bc1 receipts bc2 st bc4,
                  ValidateBlock prim bc order randBytes block = Ret (None, bc1)
                  /\ ExecuteTransactions bc1 (b_Transactions block)
                     = Ret (inl receipts, bc2)
                  /\ Commit (Keccak256 prim) (bc_state bc2) = (None, st)
                  /\ writeBlock prim (with_state bc2 st) block = (None, bc4))
            /\ (exists data,
                  rlp_EncodeBlock prim block = inl data
                  /\ store bc' !! Hash_Bytes (b_Hash block) = Some data
                  /\ store bc' !! currentBlock_key = Some (Hash_Bytes (b_Hash block)))
        end).
Proof.
  cbv zeta. unfold ProcessBlock, mbind, outcome_bind.
  split; [intros err bc1 ->; reflexivity|].
  split; [intros bc1 err bc2 -> ->; reflexivity|].
  split; [intros bc1 receipts bc2 err st -> -> ->; reflexivity|].
  split; [intros bc1 receipts bc2 st err bc4 -> -> -> ->; reflexivity|].
  intros r bc'.
  destruct (ValidateBlock prim bc order randBytes block) as [[verr bc1]|p] eqn:Hval;
    [|discriminate].
  pose proof (ValidateBlock_same _ _ _ _ _ _ Hval) as (Htip1 & Hst1 & _).
  destruct verr as [err|].
  { intros [= <- <-]. split; [exact Htip1 | intros _; exact Hst1]. }
  destruct (ExecuteTransactions bc1 (b_Transactions block)) as [[receipts bc2]|p]
    eqn:Hexec; [|discriminate].
  pose proof (ExecuteTransactions_same _ _ _ _ Hexec) as (Htip2 & Hst2 & _).
  destruct receipts as [receipts|err].
  2:{ intros [= <- <-]. split; [congruence | intros _; congruence]. }
  destruct (Commit (Keccak256 prim) (bc_state bc2)) as [[err|] st] eqn:Hcommit.
  { intros [= <- <-]. split; [cbn; congruence|].
    intros Hn. exfalso. apply Hn. eexists. left. reflexivity. }
  pose proof (writeBlock_spec (with_state bc2 st) block) as (Htip4 & _ & Hwritten).
  destruct (writeBlock prim (with_state bc2 st) block) as [[err|] bc4] eqn:Hwrite.
  { intros [= <- <-]. split; [cbn in *; congruence|].
    intros Hn. exfalso. apply Hn. eexists. right. reflexivity. }
  destruct (UpdateBlock _ now block) as [pos|p]; [|discriminate].
  intros [= <- <-]. split; [reflexivity|]. split.
  - exists bc1, receipts, bc2, st, bc4. auto.
  - exact (Hwritten eq_refl).
Qed.

Lemma CreateBlock_links_to_tip (bc : Blockchain) (now_unix : Z) (entropy : list byte)
    (txs : list Transaction) (b : Block) :
  CreateBlock prim bc now_unix entropy txs = Ret (inl b) ->
  exists tip, bc_currentBlock bc = Some tip
              /\ h_ParentHash (b_Header b) = b_Hash tip
              /\ h_Number (b_Header b) = h_Number (b_Header tip) + 1.
Proof.
  unfold CreateBlock, mbind, outcome_bind.
  destruct (bc_currentBlock bc) as [tip|]; [|discriminate].
  destruct (SignBlock prim _ _ _) as [signature|e]; [|discriminate].
  intros [= <-]. exists tip. auto.
Qed.

(** C3, as the code has it.  A block that [ProcessBlock] accepts becomes
    [currentBlock]; its stored hash is the hash of its header; when its
    number is above zero, [GetBlockByHash] finds a block under its
    [ParentHash], in the block cache or in the store; and it passes the
    consensus check.  Nothing ties that parent to the tip or the number to
    the parent's.  The blocks that [CreateBlock] assembles are linked: their
    [ParentHash] is the hash of the current tip and their number is the
    tip's plus 1. *)
Theorem ProcessBlock_accept_spec
    (bc : Blockchain) (now : Z) (order : list Z) (randBytes : list byte)
    (block : Block) (bc' : Blockchain) :
  ProcessBlock prim bc now order randBytes block = Ret (None, bc') ->
  bc_currentBlock bc' = Some block
  /\ Hash_Bytes (b_Hash block) = Hash_Bytes (ComputeHash prim block)
  /\ (0 < h_Number (b_Header block) ->
      exists parent,
        fst (GetBlockByHash prim bc (h_ParentHash (b_Header block))) = inl parent)
  /\ PoS_ValidateBlock prim (bc_consensus bc) order randBytes block = Ret None
  /\ (forall now_unix entropy txs b,
        CreateBlock prim bc now_unix entropy txs = Ret (inl b) ->
        exists tip, bc_currentBlock bc = Some tip
                    /\ h_ParentHash (b_Header b) = b_Hash tip
                    /\ h_Number (b_Header b) = h_Number (b_Header tip) + 1).
Proof.
  intros Hproc.
  assert (Hval : exists bc1, ValidateBlock prim bc order randBytes block = Ret (None, bc1)
                             /\ bc_currentBlock bc' = Some block).
  { revert Hproc. unfold ProcessBlock, mbind, outcome_bind.
    destruct (ValidateBlock prim bc order randBytes block) as [[[err|] bc1]|p];
      try discriminate.
    destruct (ExecuteTransactions bc1 (b_Transactions block)) as [[[rs|e] bc2]|p];
      try discriminate.
    destruct (Commit (Keccak256 prim) (bc_state bc2)) as [[e|] st]; [discriminate|].
    destruct (writeBlock prim (with_state bc2 st) block) as [[e|] bc4]; [discriminate|].
    destruct (UpdateBlock _ now block) as [pos|p]; [|discriminate].
    intros [= <-]. eauto. }
  destruct Hval as (bc1 & Hval & Htip).
  destruct (ValidateBlock_accepts _ _ _ _ _ Hval) as (Hhash & Hparent & Hcons).
  split; [exact Htip|]. split; [exact Hhash|]. split; [exact Hparent|].
  split; [exact Hcons|].
  intros now_unix entropy txs b. apply CreateBlock_links_to_tip.
Qed.

End ChainProperties.

Lemma NewBlockchain_genesis_chain :
  NewBlockchain example_primitives example_config (mkDB ∅ []) 1700000000
  = inl genesis_chain.
Proof. vm_compute. reflexivity. Qed.

(** *** Block linkage on the concrete node *)

Lemma ProcessBlock_accept_spec_witness :
  bc_currentBlock chain_at_1 = Some (example_block genesis_hash 1 []).
Proof.
  refine (proj1 (ProcessBlock_accept_spec example_primitives example_chain
                   1700000006 [21] (repeat xff 32)
                   (example_block genesis_hash 1 []) chain_at_1 _)).
  vm_compute. reflexivity.
Defined.

(** C3 as stated fails.  With block 1 (hash 2) as the tip, [ProcessBlock]
    accepts a block numbered 7 whose parent is the genesis block (hash 1),
    and makes it [currentBlock]: its parent is not the tip and its number is
    not the tip's plus 1. *)
Lemma ProcessBlock_unlinked_block_counterexample :
  let block := example_block genesis_hash 7 [] in
  let r := ProcessBlock example_primitives chain_at_1 1700000012 [21]
             (repeat xff 32) block in
  bc_currentBlock chain_at_1 = Some (example_block genesis_hash 1 [])
  /\ returned r = Ret None
  /\ bc_currentBlock (after r chain_at_1) = Some block
  /\ h_ParentHash (b_Header block) <> b_Hash (example_block genesis_hash 1 [])
  /\ h_Number (b_Header block)
     <> h_Number (b_Header (example_block genesis_hash 1 [])) + 1.
Proof.
  cbv zeta.
  split; [vm_compute; reflexivity|].
  split; [vm_compute; reflexivity|].
  split; [vm_compute; reflexivity|].
  split; by_evaluation.
Qed.

(** *** Transaction validation on the concrete node *)



(** *** Failures of the store on the concrete node *)

Lemma ProcessBlock_failure_spec_witness :
  let block := mkBlock (b_Header (example_block genesis_hash 1 [])) [] 99 0 in
  let r := ProcessBlock example_primitives example_chain 1700000006 [21]
             (repeat xff 32) block in
  returned r = Ret (Some ErrInvalidBlock)
  /\ bc_currentBlock (after r example_chain) = bc_currentBlock example_chain
  /\ store (after r example_chain) = store example_chain.
Proof.
  cbv zeta.
  set (block := mkBlock (b_Header (example_block genesis_hash 1 [])) [] 99 0).
  destruct (ProcessBlock_failure_spec example_primitives example_chain
              1700000006 [21] (repeat xff 32) block)
    as (_ & _ & _ & _ & Hreturned).
  destruct (Hreturned (Some ErrInvalidBlock)
              (after (ProcessBlock example_primitives example_chain 1700000006
                        [21] (repeat xff 32) block)
                     example_chain)
              ltac:(vm_compute; reflexivity)) as (Htip & Hstore).
  split; [vm_compute; reflexivity|].
  split; [exact Htip|].
  apply Hstore. intros (cause & [H|H]); discriminate H.
Defined.

(** C1 as stated fails.  The node has read account 5, which is empty and sits
    in the cache of the state; block 1 has no transactions.  When the store
    fails at the write of the block, after [Commit] went through,
    [ProcessBlock] returns an error and [currentBlock] stays, yet the store
    now holds the record of account 5 that [Commit] wrote during this call.
    When the store fails one operation later, at the write of the
    ["currentBlock"] pointer, [ProcessBlock] returns an error, and the store
    holds the block under its hash beside the pointer to the genesis block.
    And a block with a transaction that passes validation fails at the
    execution without an error being returned: [ProcessBlock] panics on the
    [nil] recipient of a contract creation, and on a payment it waits for
    ever for the lock of the state in [SetNonce]. *)
Lemma ProcessBlock_not_atomic_counterexample :
  let block := example_block genesis_hash 1 [] in
  let run faults :=
    ProcessBlock example_primitives (with_faults read_chain faults) 1700000006 [21]
                 (repeat xff 32) block in
  let bc2 := after (run [false; true]) read_chain in
  let bc3 := after (run [false; false; true]) read_chain in
  returned (run [false; true])
  = Ret (Some (Errorw "failed to write block"
                 (Errorw "failed to write block" leveldb_ErrIO)))
  /\ bc_currentBlock bc2 = bc_currentBlock read_chain
  /\ store read_chain !! Address_Bytes 5 = None
  /\ store bc2 !! Address_Bytes 5 = Some []
  /\ returned (run [false; false; true])
     = Ret (Some (Errorw "failed to write block"
                    (Errorw "failed to update current block" leveldb_ErrIO)))
  /\ bc_currentBlock bc3 = bc_currentBlock read_chain
  /\ store read_chain !! Hash_Bytes (b_Hash block) = None
  /\ store bc3 !! Hash_Bytes (b_Hash block) = Some [x02]
  /\ rlp_EncodeBlock example_primitives block = inl [x02]
  /\ store bc3 !! currentBlock_key = Some (Hash_Bytes genesis_hash)
  /\ ProcessBlock example_primitives example_chain 1700000006 [21] (repeat xff 32)
       (example_block genesis_hash 1 [free_tx None])
     = Panic NilDereference
  /\ ProcessBlock example_primitives example_chain 1700000006 [21] (repeat xff 32)
       (example_block genesis_hash 1 [free_tx (Some 9)])
     = Panic Deadlock.
Proof.
  cbv zeta.
  repeat (split; [vm_compute; reflexivity|]).
  vm_compute. reflexivity.
Qed.

(** ** The consensus engine: the registry over time *)

Lemma sum_weights_insert_new (m : gmap Z Validator) (k : Z) (v : Validator) :
  m !! k = None -> sum_weights (<[k := v]> m) = weight v + sum_weights m.
Proof.
  intros H. unfold sum_weights.
  rewrite map_fold_insert_L; [reflexivity| |exact H].
  intros. lia.
Qed.

Lemma sum_weights_insert_old (m : gmap Z Validator) (k : Z) (v v' : Validator) :
  m !! k = Some v ->
  sum_weights (<[k := v']> m) = sum_weights m - weight v + weight v'.
Proof.
  intros H.
  rewrite <- (insert_delete_eq m k v').
  rewrite sum_weights_insert_new by apply lookup_delete_eq.
  unfold sum_weights at 2.
  rewrite (map_fold_delete_L _ _ k v m); [|intros; lia|exact H].
  fold (sum_weights (delete k m)). lia.
Qed.

Lemma outcome_mapM_Forall2 {A B : Type} (f : A -> outcome B) (l : list A) (l' : list B) :
  outcome_mapM f l = Ret l' -> Forall2 (fun x y => f x = Ret y) l l'.
Proof.
  revert l'. induction l as [|x l IH]; intros l'; cbn.
  - intros [= <-]. constructor.
  - unfold mbind, outcome_bind.
    destruct (f x) as [y|] eqn:Hy; [|discriminate].
    destruct (outcome_mapM f l) as [ys|] eqn:Hys; [|discriminate].
    intros [= <-]. constructor; [exact Hy|]. apply IH. reflexivity.
Qed.

Lemma outcome_mapM_Ret {A B : Type} (f : A -> outcome B) (l : list A) :
  Forall (fun x => exists y, f x = Ret y) l -> exists l', outcome_mapM f l = Ret l'.
Proof.
  induction 1 as [|x l [y Hy] _ [ys Hys]]; cbn.
  - eexists. reflexivity.
  - unfold mbind, outcome_bind. rewrite Hy, Hys. eexists. reflexivity.
Qed.

Lemma reward_delegation_same_parties (pos : PoS) (validator : Address) (reward : Z)
    (d d' : Delegation) :
  reward_delegation pos validator reward d = Ret d' -> same_parties d d'.
Proof.
  unfold reward_delegation, same_parties, mbind, outcome_bind.
  destruct (delegation_matches _ _ _).
  - destruct (pos_validators pos !! validator); [|discriminate].
    destruct (big_Div _ _); [|discriminate].
    intros [= <-]. cbn. auto.
  - intros [= <-]. auto.
Qed.

Lemma Unbond_loop_same_parties (unbondTime : Z) (validator : Address) (amount : Z)
    (l l' : list Delegation) (a : Z) :
  Unbond_loop unbondTime validator amount l = Some (a, l') ->
  Forall2 same_parties l l'.
Proof.
  revert l' a. induction l as [|d l IH]; intros l' a; cbn; [discriminate|].
  destruct (delegation_matches _ _ _).
  - intros [= <- <-]. constructor; [split; reflexivity|].
    apply Forall2_same_length_lookup_2; [reflexivity|].
    intros i x y Hx Hy. rewrite Hx in Hy. injection Hy as <-. split; reflexivity.
  - destruct (Unbond_loop _ _ _ l) as [[a' rest']|]; [|discriminate].
    intros [= <- <-]. constructor; [split; reflexivity|]. eapply IH. reflexivity.
Qed.

Lemma CompleteUnbonding_loop_same_parties (now : Z) (validator : Address)
    (l l' : list Delegation) (r : Z + error) :
  CompleteUnbonding_loop now validator l = Some (r, l') ->
  Forall2 same_parties l l'.
Proof.
  assert (Hrefl : forall l0 : list Delegation, Forall2 same_parties l0 l0).
  { intros l0. apply Forall2_same_length_lookup_2; [reflexivity|].
    intros i x y Hx Hy. rewrite Hx in Hy. injection Hy as <-. split; reflexivity. }
  revert l' r. induction l as [|d l IH]; intros l' r; cbn; [discriminate|].
  destruct (delegation_matches _ _ _).
  - destruct (now <? d_UnbondTime d); intros [= <- <-].
    + apply Hrefl.
    + constructor; [split; reflexivity|apply Hrefl].
  - destruct (CompleteUnbonding_loop _ _ l) as [[r' rest']|]; [|discriminate].
    intros [= <- <-]. constructor; [split; reflexivity|]. eapply IH. reflexivity.
Qed.

Lemma Forall2_same_parties_elem (l l' : list Delegation) (d' : Delegation) :
  Forall2 same_parties l l' -> d' ∈ l' -> exists d, d ∈ l /\ same_parties d d'.
Proof.
  intros H Hin. apply list_elem_of_lookup in Hin as [i Hi].
  destruct (Forall2_lookup_r _ _ _ _ _ H Hi) as (d & Hd & Hp).
  exists d. split; [|exact Hp]. apply list_elem_of_lookup. eauto.
Qed.

Lemma delegations_wf_with_registry (pos : PoS) (validators' : gmap Z Validator)
    (delegators' : gmap Z (list Delegation)) (totalStake' : Z) :
  delegations_wf pos ->
  (forall k, is_Some (pos_validators pos !! k) -> is_Some (validators' !! k)) ->
  (forall k ds' d', delegators' !! k = Some ds' -> d' ∈ ds' ->
     (exists ds d, pos_delegators pos !! k = Some ds /\ d ∈ ds /\ same_parties d d')
     \/ (d_Delegator d' = k /\ is_Some (validators' !! d_Validator d'))) ->
  delegations_wf (with_registry pos validators' delegators' totalStake').
Proof.
  intros Hwf Hv Hd k ds' d' Hk Hin. cbn in *.
  destruct (Hd k ds' d' Hk Hin) as [(ds & d & Hds & Hdin & Hp1 & Hp2)|[H1 H2]].
  - destruct (Hwf k ds d Hds Hdin) as [H1 H2].
    split; [congruence|]. apply Hv. rewrite Hp2. exact H2.
  - split; assumption.
Qed.

Lemma is_Some_insert_mono (m : gmap Z Validator) (a : Z) (v : Validator) (k : Z) :
  is_Some (m !! k) -> is_Some (<[a := v]> m !! k).
Proof.
  intros H. destruct (decide (a = k)) as [->|Hne].
  - rewrite lookup_insert_eq. eauto.
  - rewrite lookup_insert_ne by exact Hne. exact H.
Qed.

Lemma registry_wf_insert (pos : PoS) (a : Z) (v : Validator)
    (delegators' : gmap Z (list Delegation)) (totalStake' : Z) :
  registry_wf pos -> v_Address v = a ->
  registry_wf (with_registry pos (<[a := v]> (pos_validators pos)) delegators' totalStake').
Proof.
  intros Hwf Ha k w. cbn. destruct (decide (a = k)) as [->|Hne].
  - rewrite lookup_insert_eq. intros [= <-]. exact Ha.
  - rewrite lookup_insert_ne by exact Hne. apply Hwf.
Qed.

Lemma SetValidator_inv (pos : PoS) (address : Address) (privateKey : option PrivateKey) :
  registry_inv pos -> registry_inv (SetValidator pos address privateKey).
Proof. intros [H1 H2 H3]. split; assumption. Qed.

Lemma UpdateSlot_inv (pos : PoS) (slot : Z) :
  registry_inv pos -> registry_inv (UpdateSlot pos slot).
Proof. intros [H1 H2 H3]. split; assumption. Qed.

Lemma RegisterValidator_inv (pos : PoS) (now : Z) (address : Address)
    (stake commission : Z) (publicKey : option PublicKey) :
  registry_inv pos ->
  registry_inv (snd (RegisterValidator pos now address stake commission publicKey)).
Proof.
  intros [H1 H2 H3]. unfold RegisterValidator.
  destruct (stake <? _); [split; assumption|].
  destruct (_ <=? _); [split; assumption|].
  destruct (pos_validators pos !! address) eqn:Hlook; [split; assumption|].
  cbn [snd]. split.
  - apply registry_wf_insert; [exact H1|reflexivity].
  - apply delegations_wf_with_registry; [exact H2|apply is_Some_insert_mono|].
    intros k ds' d' Hk Hin. left. exists ds', d'. repeat split; assumption.
  - unfold total_weight. cbn. rewrite sum_weights_insert_new by exact Hlook.
    rewrite H3. unfold total_weight, weight. cbn. lia.
Qed.

Lemma Delegate_inv (pos : PoS) (now : Z) (delegator validator : Address) (amount : Z) :
  registry_inv pos -> registry_inv (snd (Delegate pos now delegator validator amount)).
Proof.
  intros [H1 H2 H3]. unfold Delegate.
  destruct (pos_validators pos !! validator) as [v|] eqn:Hlook; [|split; assumption].
  destruct (bool_decide _); [split; assumption|].
  cbn [snd]. split.
  - apply registry_wf_insert; [exact H1|]. cbn. apply (H1 _ _ Hlook).
  - apply delegations_wf_with_registry; [exact H2|apply is_Some_insert_mono|].
    intros k ds' d' Hk Hin.
    destruct (decide (delegator = k)) as [->|Hne].
    + rewrite lookup_insert_eq in Hk. injection Hk as <-.
      apply elem_of_app in Hin as [Hin|Hin].
      * destruct (pos_delegators pos !! k) as [ds|] eqn:Hds; cbn in Hin.
        -- left. exists ds, d'. repeat split; assumption.
        -- apply elem_of_nil in Hin. contradiction.
      * apply list_elem_of_singleton in Hin as ->. right. cbn.
        split; [reflexivity|]. rewrite lookup_insert_eq. eauto.
    + rewrite lookup_insert_ne in Hk by exact Hne.
      left. exists ds', d'. repeat split; assumption.
  - unfold total_weight. cbn. rewrite (sum_weights_insert_old _ _ v) by exact Hlook.
    rewrite H3. unfold total_weight, weight. cbn. lia.
Qed.

Lemma Unbond_inv (pos : PoS) (now : Z) (delegator validator : Address) (amount : Z)
    (err : option error) (pos' : PoS) :
  Unbond pos now delegator validator amount = Ret (err, pos') ->
  registry_inv pos -> registry_inv pos'.
Proof.
  intros Hrun [H1 H2 H3]. unfold Unbond in Hrun.
  destruct (pos_delegators pos !! delegator) as [ds|] eqn:Hds;
    [|injection Hrun as <- <-; split; assumption].
  destruct (Unbond_loop _ _ _ ds) as [[a ds']|] eqn:Hloop;
    [|injection Hrun as <- <-; split; assumption].
  destruct (pos_validators pos !! validator) as [v|] eqn:Hlook; [|discriminate].
  injection Hrun as <- <-.
  apply Unbond_loop_same_parties in Hloop. split.
  - apply registry_wf_insert; [exact H1|]. cbn. apply (H1 _ _ Hlook).
  - apply delegations_wf_with_registry; [exact H2|apply is_Some_insert_mono|].
    intros k ds0 d' Hk Hin. left.
    destruct (decide (delegator = k)) as [->|Hne].
    + rewrite lookup_insert_eq in Hk. injection Hk as <-.
      destruct (Forall2_same_parties_elem _ _ _ Hloop Hin) as (d & Hd & Hp).
      exists ds, d. repeat split; solve [assumption | apply Hp].
    + rewrite lookup_insert_ne in Hk by exact Hne.
      exists ds0, d'. repeat split; assumption.
  - unfold total_weight. cbn. rewrite (sum_weights_insert_old _ _ v) by exact Hlook.
    rewrite H3. unfold total_weight, weight. cbn. lia.
Qed.

Lemma CompleteUnbonding_inv (pos : PoS) (now : Z) (delegator validator : Address) :
  registry_inv pos -> registry_inv (snd (CompleteUnbonding pos now delegator validator)).
Proof.
  intros [H1 H2 H3]. unfold CompleteUnbonding.
  destruct (pos_delegators pos !! delegator) as [ds|] eqn:Hds; [|split; assumption].
  destruct (CompleteUnbonding_loop _ _ ds) as [[r ds']|] eqn:Hloop; [|split; assumption].
  cbn [snd]. apply CompleteUnbonding_loop_same_parties in Hloop. split.
  - exact H1.
  - apply delegations_wf_with_registry; [exact H2|auto|].
    intros k ds0 d' Hk Hin. left.
    destruct (decide (delegator = k)) as [->|Hne].
    + rewrite lookup_insert_eq in Hk. injection Hk as <-.
      destruct (Forall2_same_parties_elem _ _ _ Hloop Hin) as (d & Hd & Hp).
      exists ds, d. repeat split; solve [assumption | apply Hp].
    + rewrite lookup_insert_ne in Hk by exact Hne.
      exists ds0, d'. repeat split; assumption.
  - exact H3.
Qed.

Lemma big_Div_Ret (x y : Z) : y <> 0 -> big_Div x y = Ret (Z.sgn y * (x / Z.abs y)).
Proof. intros H. unfold big_Div. destruct (Z.eqb_spec y 0); [contradiction|reflexivity]. Qed.

Lemma big_Div_inv (x y q : Z) : big_Div x y = Ret q -> y <> 0 /\ q = Z.sgn y * (x / Z.abs y).
Proof.
  unfold big_Div. destruct (Z.eqb_spec y 0); [discriminate|].
  intros [= <-]. split; [assumption|reflexivity].
Qed.

Lemma Slash_inv (pos : PoS) (validator : Address) (reason : string)
    (err : option error) (pos' : PoS) :
  Slash pos validator reason = Ret (err, pos') ->
  registry_inv pos -> registry_inv pos'.
Proof.
  intros Hrun [H1 H2 H3]. unfold Slash in Hrun.
  destruct (pos_validators pos !! validator) as [v|] eqn:Hlook;
    [|injection Hrun as <- <-; split; assumption].
  destruct (bool_decide _); [injection Hrun as <- <-; split; assumption|].
  unfold mbind, outcome_bind in Hrun.
  destruct (big_Div _ _) as [slashAmount|]; [|discriminate].
  injection Hrun as <- <-. split.
  - apply registry_wf_insert; [exact H1|]. cbn. apply (H1 _ _ Hlook).
  - apply delegations_wf_with_registry; [exact H2|apply is_Some_insert_mono|].
    intros k ds' d' Hk Hin. left. exists ds', d'. repeat split; assumption.
  - unfold total_weight. cbn. rewrite (sum_weights_insert_old _ _ v) by exact Hlook.
    rewrite H3. unfold total_weight, weight. cbn. lia.
Qed.

(** What [distributeDelegatorRewards] leaves alone. *)
Lemma distributeDelegatorRewards_frame (pos : PoS) (validator : Address) (reward : Z)
    (pos' : PoS) :
  distributeDelegatorRewards pos validator reward = Ret pos' ->
  pos_validators pos' = pos_validators pos
  /\ pos_totalStake pos' = pos_totalStake pos
  /\ pos_config pos' = pos_config pos
  /\ forall k ds' d', pos_delegators pos' !! k = Some ds' -> d' ∈ ds' ->
       exists ds d, pos_delegators pos !! k = Some ds /\ d ∈ ds /\ same_parties d d'.
Proof.
  unfold distributeDelegatorRewards, mbind, outcome_bind.
  destruct (outcome_mapM _ _) as [entries|] eqn:Hentries; [|discriminate].
  intros [= <-]. cbn. repeat split.
  intros k ds' d' Hk Hin.
  apply elem_of_list_to_map_2 in Hk.
  apply outcome_mapM_Forall2 in Hentries.
  apply list_elem_of_lookup in Hk as [i Hi].
  destruct (Forall2_lookup_r _ _ _ _ _ Hentries Hi) as ([k0 ds] & Hx & Hf).
  destruct (outcome_mapM _ ds) as [ds0|] eqn:Hds0; [|discriminate].
  injection Hf as -> ->.
  apply outcome_mapM_Forall2 in Hds0.
  apply list_elem_of_lookup in Hin as [j Hj].
  destruct (Forall2_lookup_r _ _ _ _ _ Hds0 Hj) as (d & Hd & Hr).
  exists ds, d. split; [|split].
  - apply elem_of_map_to_list. apply list_elem_of_lookup. eauto.
  - apply list_elem_of_lookup. eauto.
  - eapply reward_delegation_same_parties. exact Hr.
Qed.

Lemma distributeRewards_frame (pos : PoS) (key : Address) (pos' : PoS) :
  distributeRewards pos key = Ret pos' ->
  exists v rewards,
    pos_validators pos !! key = Some v
    /\ weight v <> 0
    /\ pos_validators pos' = <[key := with_Rewards v rewards]> (pos_validators pos)
    /\ pos_totalStake pos' = pos_totalStake pos
    /\ pos_config pos' = pos_config pos
    /\ forall k ds' d', pos_delegators pos' !! k = Some ds' -> d' ∈ ds' ->
         exists ds d, pos_delegators pos !! k = Some ds /\ d ∈ ds /\ same_parties d d'.
Proof.
  unfold distributeRewards, mbind, outcome_bind.
  destruct (pos_validators pos !! key) as [v|] eqn:Hlook; [|discriminate].
  destruct (big_Div _ 10000) as [commission|]; [|discriminate].
  destruct (big_Div _ (v_Stake v + v_TotalDelegated v)) as [validatorReward|] eqn:Hdiv;
    [|discriminate].
  apply big_Div_inv in Hdiv as [Hw _].
  cbn [v_TotalDelegated with_Rewards v_Stake v_Address].
  destruct (0 <? v_TotalDelegated v).
  - destruct (big_Div _ (v_TotalDelegated v)) as [delegatorReward|]; [|discriminate].
    intros Hrun. apply distributeDelegatorRewards_frame in Hrun as (Hv & Ht & Hc & Hd).
    exists v, (v_Rewards v + validatorReward). cbn in *. repeat split; assumption.
  - intros [= <-]. exists v, (v_Rewards v + validatorReward). cbn.
    repeat split; try assumption.
    intros k ds' d' Hk Hin. exists ds', d'. repeat split; assumption.
Qed.

Lemma UpdateBlock_frame (pos : PoS) (now : Z) (block : Block) (pos' : PoS) :
  UpdateBlock pos now block = Ret pos' ->
  match pos_validators pos !! h_Validator (b_Header block) with
  | None => pos' = pos
  | Some v =>
      exists v',
        weight v <> 0
        /\ v_Address v' = v_Address v /\ v_Stake v' = v_Stake v
        /\ v_TotalDelegated v' = v_TotalDelegated v /\ v_Status v' = v_Status v
        /\ v_LastActive v' = now /\ v_TotalBlocks v' = u64_add (v_TotalBlocks v) 1
        /\ v_Commission v' = v_Commission v /\ v_PublicKey v' = v_PublicKey v
        /\ pos_validators pos' = <[h_Validator (b_Header block) := v']> (pos_validators pos)
        /\ pos_totalStake pos' = pos_totalStake pos
        /\ pos_config pos' = pos_config pos
        /\ forall k ds' d', pos_delegators pos' !! k = Some ds' -> d' ∈ ds' ->
             exists ds d, pos_delegators pos !! k = Some ds /\ d ∈ ds /\ same_parties d d'
  end.
Proof.
  unfold UpdateBlock.
  destruct (pos_validators pos !! h_Validator (b_Header block)) as [v|] eqn:Hlook.
  - intros Hrun.
    apply distributeRewards_frame in Hrun
      as (v1 & rewards & Hv1 & Hw & Hvs & Ht & Hc & Hd).
    cbn in Hv1. rewrite lookup_insert_eq in Hv1. injection Hv1 as <-.
    cbn in Hvs. rewrite insert_insert_eq in Hvs.
    eexists. split; [exact Hw|].
    repeat match goal with |- _ /\ _ => split end;
      try exact Hvs; try exact Ht; try exact Hc; try exact Hd; reflexivity.
  - intros [= <-]. reflexivity.
Qed.

Lemma UpdateBlock_inv (pos : PoS) (now : Z) (block : Block) (pos' : PoS) :
  UpdateBlock pos now block = Ret pos' ->
  registry_inv pos -> registry_inv pos'.
Proof.
  intros Hrun [H1 H2 H3].
  apply UpdateBlock_frame in Hrun.
  destruct (pos_validators pos !! h_Validator (b_Header block)) as [v|] eqn:Hlook;
    [|subst pos'; split; assumption].
  destruct Hrun as (v' & _ & Ha & Hs & Htd & _ & _ & _ & _ & _ & Hvs & Ht & _ & Hd).
  split.
  - intros k w. rewrite Hvs.
    destruct (decide (h_Validator (b_Header block) = k)) as [<-|Hne].
    + rewrite lookup_insert_eq. intros [= <-]. rewrite Ha. apply (H1 _ _ Hlook).
    + rewrite lookup_insert_ne by exact Hne. apply H1.
  - intros k ds' d' Hk Hin.
    destruct (Hd k ds' d' Hk Hin) as (ds & d & Hds & Hdin & Hp1 & Hp2).
    destruct (H2 k ds d Hds Hdin) as [Hk1 Hk2].
    split; [congruence|]. rewrite Hvs, Hp2. apply is_Some_insert_mono. exact Hk2.
  - unfold total_weight. rewrite Hvs, Ht, (sum_weights_insert_old _ _ v) by exact Hlook.
    rewrite H3. unfold total_weight, weight. rewrite Hs, Htd. lia.
Qed.

Lemma registry_step_inv (pos pos' : PoS) :
  registry_step pos pos' -> registry_inv pos -> registry_inv pos'.
Proof.
  intros Hstep. destruct Hstep.
  - apply SetValidator_inv.
  - apply UpdateSlot_inv.
  - apply RegisterValidator_inv.
  - apply Delegate_inv.
  - eapply Unbond_inv; eassumption.
  - apply CompleteUnbonding_inv.
  - eapply UpdateBlock_inv; eassumption.
  - eapply Slash_inv; eassumption.
Qed.

Lemma NewPoS_inv (stakeAmount maxValidators : Z) :
  registry_inv (NewPoS stakeAmount maxValidators).
Proof.
  split.
  - apply NewPoS_registry_wf.
  - intros k ds d Hk. cbn in Hk. rewrite lookup_empty in Hk. discriminate.
  - reflexivity.
Qed.

Lemma reachable_registry_inv (pos : PoS) : reachable_registry pos -> registry_inv pos.
Proof.
  intros (s & m & Hrtc).
  assert (H : registry_inv (NewPoS s m)) by apply NewPoS_inv.
  revert H. induction Hrtc as [|x y z Hstep _ IH]; intros H; [exact H|].
  apply IH. eapply registry_step_inv; eassumption.
Qed.

Lemma single_registry_reachable : reachable_registry single_registry.
Proof.
  exists 1000000, 100. eapply rtc_l; [|apply rtc_refl].
  apply step_RegisterValidator.
Qed.

Lemma busy_registry_reachable : reachable_registry busy_registry.
Proof.
  destruct single_registry_reachable as (s & m & H). exists s, m.
  eapply rtc_trans; [exact H|].
  eapply rtc_l; [apply (step_RegisterValidator _ 1700000001 22 3000000 500
                          (Some (mkPublicKey 5 6)))|].
  eapply rtc_l; [apply (step_Delegate _ 100 31 21 1000)|].
  eapply rtc_l; [eapply (step_Unbond _ 200 31 21 400); vm_compute; reflexivity|].
  eapply rtc_l; [eapply (step_Slash _ 22 "double sign"); vm_compute; reflexivity|].
  apply rtc_refl.
Qed.

(** X1.  On every registry that the operations of the engine build from
    [NewPoS] ([SetValidator], [UpdateSlot], [RegisterValidator], [Delegate],
    [Unbond], [CompleteUnbonding], [UpdateBlock] and [Slash], in any number
    and order, each call that returns), [GetTotalStake] is the sum, over all
    registered validators whatever their status, of the own stake plus the
    delegated stake. *)
Theorem totalStake_is_the_sum_of_the_stakes (pos : PoS) :
  reachable_registry pos -> GetTotalStake pos = total_weight pos.
Proof. intros H. apply reachable_registry_inv in H. apply (inv_totalStake _ H). Qed.

Lemma totalStake_is_the_sum_of_the_stakes_witness :
  GetTotalStake busy_registry = total_weight busy_registry.
Proof. apply totalStake_is_the_sum_of_the_stakes. apply busy_registry_reachable. Defined.

(** *** Unbonding, from the request to the payout *)

Lemma Unbond_loop_none (unbondTime : Z) (validator : Address) (amount : Z)
    (l : list Delegation) :
  Forall (fun x => is_active_to validator x = false) l ->
  Unbond_loop unbondTime validator amount l = None.
Proof.
  induction 1 as [|d l Hd _ IH]; [reflexivity|].
  cbn. unfold is_active_to in Hd. rewrite Hd, IH. reflexivity.
Qed.

Lemma Unbond_loop_first (unbondTime : Z) (validator : Address) (amount : Z)
    (pre : list Delegation) (d : Delegation) (post : list Delegation) :
  Forall (fun x => is_active_to validator x = false) pre ->
  is_active_to validator d = true ->
  Unbond_loop unbondTime validator amount (pre ++ d :: post)
  = Some (Z.min amount (d_Amount d), pre ++ with_unbonding d unbondTime :: post).
Proof.
  intros Hpre Hd. induction Hpre as [|x pre Hx _ IH]; cbn.
  - unfold is_active_to in Hd. rewrite Hd. do 2 f_equal.
    destruct (Z.ltb_spec amount (d_Amount d)); lia.
  - unfold is_active_to in Hx. rewrite Hx, IH. reflexivity.
Qed.

Lemma first_match_split {A : Type} (P : A -> bool) (l : list A) :
  Forall (fun x => P x = false) l
  \/ exists pre d post,
       l = pre ++ d :: post /\ Forall (fun x => P x = false) pre /\ P d = true.
Proof.
  induction l as [|x l [IH|(pre & d & post & -> & Hpre & Hd)]].
  - left. constructor.
  - destruct (P x) eqn:Hx.
    + right. exists [], x, l. repeat split; [constructor|exact Hx].
    + left. constructor; assumption.
  - destruct (P x) eqn:Hx.
    + right. exists [], x, (pre ++ d :: post). repeat split; [constructor|exact Hx].
    + right. exists (x :: pre), d, post. repeat split; [constructor; assumption|exact Hd].
Qed.

(** X2.  On a registry that the operations build from [NewPoS], [Unbond]
    returns (it does not panic).  When the delegator has no active
    delegation to the validator it returns an error and leaves the registry
    as it was.  Otherwise it takes the first active delegation [d] to that
    validator in the delegator's list: the validator's delegated total and
    the total stake go down by the smaller of [amount] and the amount of
    [d], and [d], with its amount unchanged, becomes an unbonding delegation
    whose unbonding time is [now] plus the unbonding period. *)
Theorem Unbond_spec (pos : PoS) (now : Z) (delegator validator : Address) (amount : Z) :
  reachable_registry pos ->
  let r := Unbond pos now delegator validator amount in
  (exists err pos', r = Ret (err, pos'))
  /\ (Forall (fun x => is_active_to validator x = false) (GetDelegations pos delegator) ->
      exists err, r = Ret (Some err, pos))
  /\ (forall pre d post,
        GetDelegations pos delegator = pre ++ d :: post ->
        Forall (fun x => is_active_to validator x = false) pre ->
        is_active_to validator d = true ->
        exists v,
          pos_validators pos !! validator = Some v
          /\ r = Ret (None,
                      with_registry pos
                        (<[validator := add_TotalDelegated v (- Z.min amount (d_Amount d))]>
                           (pos_validators pos))
                        (<[delegator := pre ++ with_unbonding d
                                          (now + UnbondingPeriod (pos_config pos)) :: post]>
                           (pos_delegators pos))
                        (pos_totalStake pos - Z.min amount (d_Amount d)))).
Proof.
  intros Hreach r. apply reachable_registry_inv in Hreach as [_ Hwf _].
  assert (Hnone : Forall (fun x => is_active_to validator x = false)
                         (GetDelegations pos delegator) ->
                  exists err, r = Ret (Some err, pos)).
  { intros Hall. subst r. unfold Unbond, GetDelegations in *.
    destruct (pos_delegators pos !! delegator) as [ds|]; [|eauto].
    cbn in Hall. rewrite Unbond_loop_none by exact Hall. eauto. }
  assert (Hfirst : forall pre d post,
            GetDelegations pos delegator = pre ++ d :: post ->
            Forall (fun x => is_active_to validator x = false) pre ->
            is_active_to validator d = true ->
            exists v,
              pos_validators pos !! validator = Some v
              /\ r = Ret (None,
                      with_registry pos
                        (<[validator := add_TotalDelegated v (- Z.min amount (d_Amount d))]>
                           (pos_validators pos))
                        (<[delegator := pre ++ with_unbonding d
                                          (now + UnbondingPeriod (pos_config pos)) :: post]>
                           (pos_delegators pos))
                        (pos_totalStake pos - Z.min amount (d_Amount d)))).
  { intros pre d post Hds Hpre Hd. subst r. unfold Unbond, GetDelegations in *.
    destruct (pos_delegators pos !! delegator) as [ds|] eqn:Hlook; cbn in Hds;
      [subst ds|destruct pre; discriminate].
    destruct (Hwf delegator _ d Hlook) as [_ [v Hv]].
    { apply elem_of_app. right. apply list_elem_of_here. }
    assert (Hval : d_Validator d = validator).
    { unfold is_active_to, delegation_matches in Hd.
      apply andb_true_iff in Hd as [Hd _]. lia. }
    rewrite Hval in Hv. exists v. split; [exact Hv|].
    rewrite Unbond_loop_first by assumption. rewrite Hv. reflexivity. }
  split; [|split; assumption].
  destruct (first_match_split (is_active_to validator) (GetDelegations pos delegator))
    as [Hall|(pre & d & post & Hds & Hpre & Hd)].
  - destruct (Hnone Hall) as [err Herr]. eauto.
  - destruct (Hfirst pre d post Hds Hpre Hd) as (v & _ & Hr). eauto.
Qed.

Lemma Unbond_spec_witness :
  let pos := snd (Delegate single_registry 100 31 21 1000) in
  exists v,
    pos_validators pos !! 21 = Some v
    /\ Unbond pos 200 31 21 400
       = Ret (None,
              with_registry pos
                (<[21 := add_TotalDelegated v (- 400)]> (pos_validators pos))
                (<[31 := [with_unbonding
                            (mkDelegation 31 21 1000 0 100 0 DelegationStatusActive)
                            (200 + 7 * 24 * hour)]]> (pos_delegators pos))
                (pos_totalStake pos - 400)).
Proof.
  intros pos.
  assert (Hreach : reachable_registry pos).
  { destruct single_registry_reachable as (s & m & H). exists s, m.
    eapply rtc_r; [exact H|]. apply step_Delegate. }
  destruct (Unbond_spec pos 200 31 21 400 Hreach) as (_ & _ & H).
  apply (H [] (mkDelegation 31 21 1000 0 100 0 DelegationStatusActive) []).
  - reflexivity.
  - constructor.
  - reflexivity.
Defined.

(** X3.  [Unbond] followed by [CompleteUnbonding].  When [d] is the first
    active delegation of the delegator to a registered validator and no
    earlier delegation to it is unbonding, [Unbond] succeeds for every
    [amount] and takes the smaller of [amount] and the amount of [d] off the
    total stake and off the validator's delegated total; a
    [CompleteUnbonding] before [now] plus the unbonding period then fails
    with [unbonding period not completed] and changes nothing; one at or
    after that instant pays out the whole amount of [d] plus its rewards,
    whatever [amount] was. *)
Theorem Unbond_then_CompleteUnbonding
    (pos : PoS) (now : Z) (delegator validator : Address) (amount : Z)
    (pre : list Delegation) (d : Delegation) (post : list Delegation)
    (v : Validator) (now' : Z) :
  pos_delegators pos !! delegator = Some (pre ++ d :: post) ->
  Forall (fun x => is_active_to validator x = false
                   /\ is_unbonding_to validator x = false) pre ->
  is_active_to validator d = true ->
  pos_validators pos !! validator = Some v ->
  exists pos1,
    Unbond pos now delegator validator amount = Ret (None, pos1)
    /\ pos_totalStake pos1 = pos_totalStake pos - Z.min amount (d_Amount d)
    /\ v_TotalDelegated <$> (pos_validators pos1 !! validator)
       = Some (v_TotalDelegated v - Z.min amount (d_Amount d))
    /\ (now' < now + UnbondingPeriod (pos_config pos) ->
        CompleteUnbonding pos1 now' delegator validator
        = (inr (Errorf "unbonding period not completed"), pos1))
    /\ (now + UnbondingPeriod (pos_config pos) <= now' ->
        fst (CompleteUnbonding pos1 now' delegator validator)
        = inl (d_Amount d + d_Rewards d)).
Proof.
  intros Hds Hpre Hd Hv.
  assert (Hpre1 : Forall (fun x => is_active_to validator x = false) pre).
  { eapply Forall_impl; [exact Hpre|]. intros x [H _]. exact H. }
  assert (Hpre2 : Forall (fun x => is_unbonding_to validator x = false) pre).
  { eapply Forall_impl; [exact Hpre|]. intros x [_ H]. exact H. }
  eexists. split.
  { unfold Unbond. rewrite Hds, Unbond_loop_first by assumption. rewrite Hv. reflexivity. }
  cbn [pos_totalStake with_registry pos_validators pos_delegators pos_config].
  split; [reflexivity|]. split.
  { rewrite lookup_insert_eq. cbn. f_equal; lia. }
  assert (Hval : (d_Validator d =? validator) = true).
  { unfold is_active_to, delegation_matches in Hd.
    apply andb_true_iff in Hd as [Hd _]. exact Hd. }
  assert (Hloop : forall t,
    CompleteUnbonding_loop t validator
      (pre ++ with_unbonding d (now + UnbondingPeriod (pos_config pos)) :: post)
    = if t <? now + UnbondingPeriod (pos_config pos)
      then Some (inr (Errorf "unbonding period not completed"),
                 pre ++ with_unbonding d (now + UnbondingPeriod (pos_config pos)) :: post)
      else Some (inl (d_Amount d + d_Rewards d),
                 pre ++ with_status (with_unbonding d (now + UnbondingPeriod (pos_config pos)))
                                    DelegationStatusCompleted :: post)).
  { intros t. rewrite CompleteUnbonding_loop_prefix by exact Hpre2.
    cbn. unfold delegation_matches. cbn. rewrite Hval. cbn.
    destruct (t <? _); reflexivity. }
  split.
  - intros Hlt. unfold CompleteUnbonding. cbn. rewrite lookup_insert_eq.
    rewrite Hloop. destruct (Z.ltb_spec now' (now + UnbondingPeriod (pos_config pos)));
      [|lia].
    rewrite insert_insert_eq. reflexivity.
  - intros Hge. unfold CompleteUnbonding. cbn. rewrite lookup_insert_eq.
    rewrite Hloop. destruct (Z.ltb_spec now' (now + UnbondingPeriod (pos_config pos)));
      [lia|]. reflexivity.
Qed.

Lemma Unbond_then_CompleteUnbonding_witness :
  let pos := snd (Delegate single_registry 100 31 21 1000) in
  exists pos1,
    Unbond pos 200 31 21 400 = Ret (None, pos1)
    /\ pos_totalStake pos1 = pos_totalStake pos - Z.min 400 1000
    /\ v_TotalDelegated <$> (pos_validators pos1 !! 21) = Some (1000 - Z.min 400 1000)
    /\ (300 < 200 + UnbondingPeriod (pos_config pos) ->
        CompleteUnbonding pos1 300 31 21
        = (inr (Errorf "unbonding period not completed"), pos1))
    /\ (200 + UnbondingPeriod (pos_config pos) <= 300 ->
        fst (CompleteUnbonding pos1 300 31 21) = inl (1000 + 0)).
Proof.
  intros pos.
  apply (Unbond_then_CompleteUnbonding pos 200 31 21 400 []
           (mkDelegation 31 21 1000 0 100 0 DelegationStatusActive) []
           (mkValidator 21 1000000 1000 1000 ValidatorStatusActive 1700000000 0 0
                        (Some (mkPublicKey 3 4))) 300).
  - reflexivity.
  - constructor.
  - reflexivity.
  - reflexivity.
Defined.

(** *** Rewards, block by block *)

Lemma reward_delegation_returns (pos : PoS) (validator : Address) (reward : Z)
    (v : Validator) (d : Delegation) :
  pos_validators pos !! validator = Some v ->
  v_TotalDelegated v <> 0 ->
  exists d', reward_delegation pos validator reward d = Ret d'.
Proof.
  intros Hv Hne. unfold reward_delegation, mbind, outcome_bind.
  destruct (delegation_matches _ _ _); [|eauto].
  rewrite Hv, big_Div_Ret by exact Hne. eauto.
Qed.

Lemma distributeDelegatorRewards_returns (pos : PoS) (validator : Address) (reward : Z)
    (v : Validator) :
  pos_validators pos !! validator = Some v ->
  v_TotalDelegated v <> 0 ->
  exists pos', distributeDelegatorRewards pos validator reward = Ret pos'.
Proof.
  intros Hv Hne. unfold distributeDelegatorRewards, mbind, outcome_bind.
  destruct (outcome_mapM_Ret
              (fun '(delegator, delegations) =>
                 match outcome_mapM (reward_delegation pos validator reward) delegations with
                 | Ret ds => Ret (delegator, ds)
                 | Panic p => Panic p
                 end)
              (map_to_list (pos_delegators pos))) as [entries Hentries].
  { apply Forall_forall. intros [k ds] _.
    destruct (outcome_mapM_Ret (reward_delegation pos validator reward) ds) as [ds' Hds'].
    { apply Forall_forall. intros d _. eapply reward_delegation_returns; eassumption. }
    rewrite Hds'. eauto. }
  rewrite Hentries. eauto.
Qed.

(** X4.  [UpdateBlock] on a registry whose validators sit under their own
    address.  When the block's validator is not registered the registry is
    unchanged.  When it is registered with own plus delegated stake zero,
    [UpdateBlock] panics with a division by zero.  Otherwise it returns: the
    validator's block count is one more (modulo 2^64), its last activity is
    [now], and its own stake, its delegated total, its status and the total
    stake are unchanged. *)
Theorem UpdateBlock_returns_unless_the_weight_is_zero
    (pos : PoS) (now : Z) (block : Block) :
  registry_wf pos ->
  let key := h_Validator (b_Header block) in
  (pos_validators pos !! key = None -> UpdateBlock pos now block = Ret pos)
  /\ (forall v, pos_validators pos !! key = Some v ->
        (weight v = 0 -> UpdateBlock pos now block = Panic DivisionByZero)
        /\ (weight v <> 0 ->
            exists pos' v',
              UpdateBlock pos now block = Ret pos'
              /\ pos_validators pos' = <[key := v']> (pos_validators pos)
              /\ v_TotalBlocks v' = u64_add (v_TotalBlocks v) 1
              /\ v_LastActive v' = now
              /\ v_Stake v' = v_Stake v
              /\ v_TotalDelegated v' = v_TotalDelegated v
              /\ v_Status v' = v_Status v
              /\ pos_totalStake pos' = pos_totalStake pos)).
Proof.
  intros Hwf key. split.
  { intros Hnone. unfold UpdateBlock. fold key. rewrite Hnone. reflexivity. }
  intros v Hv. split.
  - intros Hzero. unfold UpdateBlock. fold key. rewrite Hv.
    eapply distributeRewards_zero_weight.
    + cbn. apply lookup_insert_eq.
    + exact Hzero.
  - intros Hne.
    assert (Hret : exists pos', UpdateBlock pos now block = Ret pos').
    { unfold UpdateBlock. fold key. rewrite Hv.
      unfold distributeRewards, mbind, outcome_bind.
      cbn [pos_validators with_registry pos_config]. rewrite lookup_insert_eq.
      rewrite (big_Div_Ret _ 10000) by lia.
      cbn [v_Stake v_TotalDelegated v_Commission with_Rewards v_Address].
      rewrite (big_Div_Ret _ (v_Stake v + v_TotalDelegated v)) by exact Hne.
      destruct (Z.ltb_spec 0 (v_TotalDelegated v)) as [Hpos|_]; [|eauto].
      rewrite (big_Div_Ret _ (v_TotalDelegated v)) by lia.
      eapply distributeDelegatorRewards_returns.
      - cbn. rewrite (Hwf _ _ Hv). apply lookup_insert_eq.
      - cbn. lia. }
    destruct Hret as [pos' Hret]. exists pos'.
    pose proof (UpdateBlock_frame _ _ _ _ Hret) as Hframe.
    fold key in Hframe. rewrite Hv in Hframe.
    destruct Hframe as (v' & _ & _ & Hs & Htd & Hst & Hla & Htb & _ & _ & Hvs & Ht & _).
      exists v'. repeat split; assumption.
Qed.

Lemma single_registry_wf : registry_wf single_registry.
Proof. apply RegisterValidator_registry_wf, NewPoS_registry_wf. Qed.

Lemma UpdateBlock_returns_unless_the_weight_is_zero_witness :
  exists pos' v',
    UpdateBlock single_registry 1700000006 (block_by 21 1) = Ret pos'
    /\ pos_validators pos' = <[21 := v']> (pos_validators single_registry)
    /\ v_TotalBlocks v' = u64_add 0 1
    /\ v_LastActive v' = 1700000006
    /\ v_Stake v' = 1000000
    /\ v_TotalDelegated v' = 0
    /\ v_Status v' = ValidatorStatusActive
    /\ pos_totalStake pos' = pos_totalStake single_registry.
Proof.
  destruct (UpdateBlock_returns_unless_the_weight_is_zero
              single_registry 1700000006 (block_by 21 1) single_registry_wf)
    as [_ H].
  destruct (H (mkValidator 21 1000000 0 1000 ValidatorStatusActive 1700000000 0 0
                           (Some (mkPublicKey 3 4))) eq_refl) as [_ H'].
  apply H'. vm_compute. discriminate.
Defined.

(** *** Slashing *)

Lemma validator_evolves_refl (v : Validator) : validator_evolves v v.
Proof. split; [reflexivity|]. left. split; reflexivity. Qed.

Lemma validator_evolves_trans (v1 v2 v3 : Validator) :
  validator_evolves v1 v2 -> validator_evolves v2 v3 -> validator_evolves v1 v3.
Proof.
  intros [Ha1 H1] [Ha2 H2]. split; [congruence|].
  destruct H1 as [[Hs1 Hk1]|[Hn1 Hs1]], H2 as [[Hs2 Hk2]|[Hn2 Hs2]].
  - left. split; congruence.
  - right. split; congruence.
  - right. split; congruence.
  - congruence.
Qed.

Lemma insert_evolves (m : gmap Z Validator) (k : Z) (v0 v0' : Validator) (a : Z)
    (v : Validator) :
  m !! k = Some v0 -> validator_evolves v0 v0' ->
  m !! a = Some v ->
  exists v', <[k := v0']> m !! a = Some v' /\ validator_evolves v v'.
Proof.
  intros Hk He Ha. destruct (decide (k = a)) as [->|Hne].
  - rewrite lookup_insert_eq. rewrite Hk in Ha. injection Ha as <-. eauto.
  - rewrite lookup_insert_ne by exact Hne. exists v. split; [exact Ha|].
    apply validator_evolves_refl.
Qed.

Lemma registry_step_validator (pos pos' : PoS) (a : Z) (v : Validator) :
  registry_step pos pos' ->
  pos_validators pos !! a = Some v ->
  exists v', pos_validators pos' !! a = Some v' /\ validator_evolves v v'.
Proof.
  intros Hstep Ha.
  assert (Hsame : exists v', pos_validators pos !! a = Some v' /\ validator_evolves v v').
  { exists v. split; [exact Ha|apply validator_evolves_refl]. }
  destruct Hstep as [pos address privateKey|pos slot
                    |pos now address stake commission publicKey
                    |pos now delegator validator amount
                    |pos now delegator validator amount err pos' Hrun
                    |pos now delegator validator
                    |pos now block pos' Hrun
                    |pos validator reason err pos' Hrun].
  - exact Hsame.
  - exact Hsame.
  - unfold RegisterValidator.
    destruct (stake <? _); [exact Hsame|].
    destruct (_ <=? _); [exact Hsame|].
    destruct (pos_validators pos !! address) eqn:Hlook; [exact Hsame|].
    cbn. exists v. split; [|apply validator_evolves_refl].
    rewrite lookup_insert_ne; [exact Ha|]. intros ->. congruence.
  - unfold Delegate.
    destruct (pos_validators pos !! validator) as [v0|] eqn:Hlook; [|exact Hsame].
    destruct (bool_decide _); [exact Hsame|].
    cbn. eapply insert_evolves; [exact Hlook| |exact Ha].
    split; [reflexivity|]. left. split; reflexivity.
  - unfold Unbond in Hrun.
    destruct (pos_delegators pos !! delegator) as [ds|];
      [|injection Hrun as <- <-; exact Hsame].
    destruct (Unbond_loop _ _ _ ds) as [[x ds']|];
      [|injection Hrun as <- <-; exact Hsame].
    destruct (pos_validators pos !! validator) as [v0|] eqn:Hlook; [|discriminate].
    injection Hrun as <- <-.
    cbn. eapply insert_evolves; [exact Hlook| |exact Ha].
    split; [reflexivity|]. left. split; reflexivity.
  - unfold CompleteUnbonding.
    destruct (pos_delegators pos !! delegator) as [ds|]; [|exact Hsame].
    destruct (CompleteUnbonding_loop _ _ ds) as [[r ds']|]; exact Hsame.
  - apply UpdateBlock_frame in Hrun.
    destruct (pos_validators pos !! h_Validator (b_Header block)) as [v0|] eqn:Hlook;
      [|subst pos'; exact Hsame].
    destruct Hrun as (v0' & _ & Haddr & Hs & _ & Hst & _ & _ & _ & _ & Hvs & _).
    rewrite Hvs. eapply insert_evolves; [exact Hlook| |exact Ha].
    split; [exact Haddr|]. left. split; assumption.
  - unfold Slash in Hrun.
    destruct (pos_validators pos !! validator) as [v0|] eqn:Hlook;
      [|injection Hrun as <- <-; exact Hsame].
    destruct (bool_decide_reflect (v_Status v0 = ValidatorStatusSlashed)) as [|Hns];
      [injection Hrun as <- <-; exact Hsame|].
    unfold mbind, outcome_bind in Hrun.
    destruct (big_Div _ _) as [slashAmount|]; [|discriminate].
    injection Hrun as <- <-.
    cbn. eapply insert_evolves; [exact Hlook| |exact Ha].
    split; [reflexivity|]. right. split; [exact Hns|reflexivity].
Qed.

Lemma rtc_registry_step_validator (pos pos' : PoS) (a : Z) (v : Validator) :
  rtc registry_step pos pos' ->
  pos_validators pos !! a = Some v ->
  exists v', pos_validators pos' !! a = Some v' /\ validator_evolves v v'.
Proof.
  intros Hrtc. revert v. induction Hrtc as [pos|pos pos1 pos' Hstep _ IH]; intros v Ha.
  - exists v. split; [exact Ha|apply validator_evolves_refl].
  - destruct (registry_step_validator _ _ _ _ Hstep Ha) as (v1 & Ha1 & He1).
    destruct (IH v1 Ha1) as (v' & Ha' & He').
    exists v'. split; [exact Ha'|]. eapply validator_evolves_trans; eassumption.
Qed.

(** X5.  Along any sequence of operations of the engine, a registered
    validator stays registered under its address; its status changes only
    to slashed; its own stake is unchanged as long as its status is; and
    once it is slashed it stays slashed with the same own stake, every
    [Delegate] to it fails with [validator not active] and every further
    [Slash] fails with [validator already slashed], both leaving the
    registry unchanged. *)
Theorem slashed_validator_stays_slashed
    (pos pos' : PoS) (address : Address) (v : Validator) :
  rtc registry_step pos pos' ->
  pos_validators pos !! address = Some v ->
  exists v',
    pos_validators pos' !! address = Some v'
    /\ v_Address v' = v_Address v
    /\ (v_Status v' <> v_Status v -> v_Status v' = ValidatorStatusSlashed)
    /\ (v_Status v' = v_Status v -> v_Stake v' = v_Stake v)
    /\ (v_Status v = ValidatorStatusSlashed ->
        v_Status v' = ValidatorStatusSlashed
        /\ v_Stake v' = v_Stake v
        /\ (forall now delegator amount,
              Delegate pos' now delegator address amount
              = (Some (Errorf "validator not active"), pos'))
        /\ (forall reason,
              Slash pos' address reason
              = Ret (Some (Errorf "validator already slashed"), pos'))).
Proof.
  intros Hrtc Ha.
  destruct (rtc_registry_step_validator _ _ _ _ Hrtc Ha) as (v' & Ha' & Haddr & He).
  exists v'. split; [exact Ha'|]. split; [exact Haddr|].
  split; [|split].
  - destruct He as [[Hs _]|[_ Hs]]; [congruence|auto].
  - destruct He as [[_ Hk]|[Hn Hs]]; [auto|congruence].
  - intros Hsl.
    assert (Hs' : v_Status v' = ValidatorStatusSlashed /\ v_Stake v' = v_Stake v).
    { destruct He as [[Hs Hk]|[Hn _]]; [split; congruence|contradiction]. }
    destruct Hs' as [Hs' Hk']. repeat split; try assumption.
    + intros now delegator amount. unfold Delegate. rewrite Ha'.
      rewrite bool_decide_true; [reflexivity|]. rewrite Hs'. discriminate.
    + intros reason. unfold Slash. rewrite Ha'.
      rewrite bool_decide_true by exact Hs'. reflexivity.
Qed.

Lemma slashed_validator_stays_slashed_witness :
  let pos' := snd (Delegate busy_registry 300 32 21 5000) in
  exists v',
    pos_validators pos' !! 22 = Some v'
    /\ v_Address v' = 22
    /\ (v_Status v' <> ValidatorStatusSlashed -> v_Status v' = ValidatorStatusSlashed)
    /\ (v_Status v' = ValidatorStatusSlashed -> v_Stake v' = 3000000 - 1500000000000000000000)
    /\ (ValidatorStatusSlashed = ValidatorStatusSlashed ->
        v_Status v' = ValidatorStatusSlashed
        /\ v_Stake v' = 3000000 - 1500000000000000000000
        /\ (forall now delegator amount,
              Delegate pos' now delegator 22 amount
              = (Some (Errorf "validator not active"), pos'))
        /\ (forall reason,
              Slash pos' 22 reason
              = Ret (Some (Errorf "validator already slashed"), pos'))).
Proof.
  intros pos'.
  apply (slashed_validator_stays_slashed busy_registry pos' 22
           (mkValidator 22 (3000000 - 1500000000000000000000) 0 500
                        ValidatorStatusSlashed 1700000001 0 0 (Some (mkPublicKey 5 6)))).
  - apply rtc_once. apply step_Delegate.
  - reflexivity.
Defined.

(** *** The ranking of the validators *)

Lemma insert_by_total_Permutation (v : Validator) (l : list Validator) :
  insert_by_total v l ≡ₚ v :: l.
Proof.
  induction l as [|w l IH]; cbn; [reflexivity|].
  destruct (weight w <? weight v); [reflexivity|].
  rewrite IH. apply Permutation_swap.
Qed.

Lemma insert_by_total_sorted (v : Validator) (l : list Validator) :
  StronglySorted outranks l -> StronglySorted outranks (insert_by_total v l).
Proof.
  induction 1 as [|w l Hs IH Hall]; cbn.
  - constructor; constructor.
  - destruct (Z.ltb_spec (weight w) (weight v)) as [Hlt|Hge].
    + constructor; [constructor; assumption|].
      constructor; [unfold outranks; lia|].
      eapply Forall_impl; [exact Hall|]. unfold outranks. intros x Hx. lia.
    + constructor; [exact IH|].
      rewrite insert_by_total_Permutation. constructor; [exact Hge|exact Hall].
Qed.

Lemma omap_lookup_map_to_list (m : gmap Z Validator) :
  omap (fun k => m !! k) (map_to_list m).*1 = (map_to_list m).*2.
Proof.
  assert (H : Forall (fun kv => m !! kv.1 = Some kv.2) (map_to_list m)).
  { apply Forall_forall. intros [k v] Hkv. apply elem_of_map_to_list in Hkv. exact Hkv. }
  induction H as [|[k v] l Hkv _ IH]; [reflexivity|].
  cbn in *. rewrite Hkv. cbn. f_equal. exact IH.
Qed.

(** X6.  When [order] lists the keys of the registry once each,
    [GetValidators] returns every registered validator exactly once,
    whatever its status, and each validator has at least the weight (own
    plus delegated stake) of every validator after it. *)
Theorem GetValidators_ranks_the_registry (pos : PoS) (order : list Z) :
  registry_order pos order ->
  GetValidators pos order ≡ₚ (map_to_list (pos_validators pos)).*2
  /\ StronglySorted outranks (GetValidators pos order).
Proof.
  intros Horder. unfold GetValidators, range_validators. split.
  - transitivity (omap (fun k => pos_validators pos !! k) order).
    + generalize (omap (fun k => pos_validators pos !! k) order). intros l.
      induction l as [|v l IH]; [reflexivity|].
      cbn. rewrite insert_by_total_Permutation, IH. reflexivity.
    + rewrite Horder. rewrite omap_lookup_map_to_list. reflexivity.
  - generalize (omap (fun k => pos_validators pos !! k) order). intros l.
    induction l as [|v l IH]; cbn; [constructor|].
    apply insert_by_total_sorted. exact IH.
Qed.

Lemma busy_registry_order : registry_order busy_registry [21; 22].
Proof. unfold registry_order. vm_compute. reflexivity. Qed.

Lemma GetValidators_ranks_the_registry_witness :
  GetValidators busy_registry [21; 22]
  ≡ₚ (map_to_list (pos_validators busy_registry)).*2
  /\ StronglySorted outranks (GetValidators busy_registry [21; 22]).
Proof.
  apply GetValidators_ranks_the_registry. apply busy_registry_order.
Defined.

(** *** The draw *)

Lemma sum_of_weights_cons (x : Validator) (l : list Validator) :
  sum_of_weights (x :: l) = weight x + sum_of_weights l.
Proof. reflexivity. Qed.

Lemma sum_of_weights_nonneg (l : list Validator) :
  Forall (fun x => 0 <= weight x) l -> 0 <= sum_of_weights l.
Proof.
  induction 1 as [|x l Hx _ IH]; [reflexivity|].
  rewrite sum_of_weights_cons. lia.
Qed.

Lemma select_loop_interval (randNum cumulative : Z) (pre : list Validator)
    (v : Validator) (post : list Validator) :
  Forall (fun x => 0 <= weight x) pre ->
  cumulative + sum_of_weights pre <= randNum
                                  < cumulative + sum_of_weights pre + weight v ->
  select_loop randNum cumulative (pre ++ v :: post) = Some (v_Address v).
Proof.
  intros Hpre. revert cumulative.
  induction Hpre as [|x pre Hx Hpre IH]; intros cumulative Hr.
  - change (sum_of_weights []) with 0 in Hr.
    change (select_loop randNum cumulative ([] ++ v :: post))
      with (if randNum <? cumulative + weight v then Some (v_Address v)
            else select_loop randNum (cumulative + weight v) post).
    destruct (Z.ltb_spec randNum (cumulative + weight v)); [reflexivity|exfalso; lia].
  - rewrite sum_of_weights_cons in Hr.
    pose proof (sum_of_weights_nonneg pre Hpre) as Hsum.
    change (select_loop randNum cumulative ((x :: pre) ++ v :: post))
      with (if randNum <? cumulative + weight x then Some (v_Address x)
            else select_loop randNum (cumulative + weight x) (pre ++ v :: post)).
    destruct (Z.ltb_spec randNum (cumulative + weight x)); [exfalso; lia|].
    apply IH. lia.
Qed.

Lemma draw_falls_in_an_interval (l : list Validator) (r : Z) :
  Forall (fun x => 0 <= weight x) l ->
  0 <= r < sum_of_weights l ->
  exists pre v post,
    l = pre ++ v :: post
    /\ sum_of_weights pre <= r < sum_of_weights pre + weight v.
Proof.
  intros Hl. revert r. induction Hl as [|x l Hx _ IH]; intros r Hr.
  - change (sum_of_weights []) with 0 in Hr. lia.
  - rewrite sum_of_weights_cons in Hr.
    destruct (Z.lt_ge_cases r (weight x)) as [Hlt|Hge].
    + exists [], x, l. change (sum_of_weights []) with 0. split; [reflexivity|lia].
    + destruct (IH (r - weight x)) as (pre & v & post & -> & Hv); [lia|].
      exists (x :: pre), v, post. rewrite sum_of_weights_cons.
      split; [reflexivity|lia].
Qed.

(** X7.  The draw of [SelectValidator] is stake-weighted.  When no active
    validator has a negative weight and the weights of the active validators
    do not sum to zero, the draw (the random bytes as a number, modulo that
    sum) lies between zero and the sum; with the weights of the active
    validators laid end to end in the order of the walk, [SelectValidator]
    returns the address of the validator whose stretch holds the draw; and
    there is such a validator, with a positive weight. *)
Theorem SelectValidator_is_weighted
    (pos : PoS) (order : list Z) (randBytes : list byte) (slot : Z) :
  let active := getActiveValidators pos order in
  let draw := big_SetBytes randBytes mod sum_of_weights active in
  Forall (fun x => 0 <= weight x) active ->
  sum_of_weights active <> 0 ->
  0 <= draw < sum_of_weights active
  /\ (forall pre v post,
        active = pre ++ v :: post ->
        sum_of_weights pre <= draw < sum_of_weights pre + weight v ->
        SelectValidator pos order randBytes slot = v_Address v)
  /\ exists v,
       v ∈ active
       /\ 0 < weight v
       /\ SelectValidator pos order randBytes slot = v_Address v.
Proof.
  intros active draw Hnn Hne.
  assert (Hpos : 0 < sum_of_weights active).
  { pose proof (sum_of_weights_nonneg active Hnn). lia. }
  assert (Hdraw : 0 <= draw < sum_of_weights active).
  { apply Z.mod_pos_bound. exact Hpos. }
  assert (Hrule : forall pre v post,
            active = pre ++ v :: post ->
            sum_of_weights pre <= draw < sum_of_weights pre + weight v ->
            SelectValidator pos order randBytes slot = v_Address v).
  { intros pre v post Hsplit Hin. unfold SelectValidator. fold active.
    destruct active as [|first rest] eqn:Hact; [destruct pre; discriminate|].
    fold (sum_of_weights (first :: rest)).
    destruct (Z.eqb_spec (sum_of_weights (first :: rest)) 0) as [|_]; [contradiction|].
    rewrite Z.abs_eq by lia. fold draw. rewrite Hsplit.
    rewrite select_loop_interval; [reflexivity| |lia].
    rewrite Hsplit in Hnn. apply Forall_app in Hnn as [Hnn _]. exact Hnn. }
  split; [exact Hdraw|]. split; [exact Hrule|].
  destruct (draw_falls_in_an_interval active draw Hnn Hdraw)
    as (pre & v & post & Hsplit & Hin).
  exists v. split; [|split].
  - rewrite Hsplit. apply elem_of_app. right. apply list_elem_of_here.
  - lia.
  - eapply Hrule; eassumption.
Qed.

Lemma SelectValidator_is_weighted_witness :
  exists v,
    v ∈ getActiveValidators two_validators [21; 22]
    /\ 0 < weight v
    /\ SelectValidator two_validators [21; 22] (repeat xff 32) 5 = v_Address v.
Proof.
  destruct (SelectValidator_is_weighted two_validators [21; 22] (repeat xff 32) 5)
    as (_ & _ & H).
  - vm_compute. repeat constructor; discriminate.
  - vm_compute. discriminate.
  - exact H.
Defined.

(** *** The penalty *)

Lemma registry_step_config (pos pos' : PoS) :
  registry_step pos pos' -> pos_config pos' = pos_config pos.
Proof.
  intros Hstep.
  destruct Hstep as [pos address privateKey|pos slot
                    |pos now address stake commission publicKey
                    |pos now delegator validator amount
                    |pos now delegator validator amount err pos' Hrun
                    |pos now delegator validator
                    |pos now block pos' Hrun
                    |pos validator reason err pos' Hrun].
  - reflexivity.
  - reflexivity.
  - unfold RegisterValidator.
    destruct (stake <? _); [reflexivity|].
    destruct (_ <=? _); [reflexivity|].
    destruct (pos_validators pos !! address); reflexivity.
  - unfold Delegate.
    destruct (pos_validators pos !! validator) as [v0|]; [|reflexivity].
    destruct (bool_decide _); reflexivity.
  - unfold Unbond in Hrun.
    destruct (pos_delegators pos !! delegator) as [ds|];
      [|injection Hrun as <- <-; reflexivity].
    destruct (Unbond_loop _ _ _ ds) as [[x ds']|];
      [|injection Hrun as <- <-; reflexivity].
    destruct (pos_validators pos !! validator) as [v0|]; [|discriminate].
    injection Hrun as <- <-. reflexivity.
  - unfold CompleteUnbonding.
    destruct (pos_delegators pos !! delegator) as [ds|]; [|reflexivity].
    destruct (CompleteUnbonding_loop _ _ ds) as [[r ds']|]; reflexivity.
  - apply UpdateBlock_frame in Hrun.
    destruct (pos_validators pos !! h_Validator (b_Header block)) as [v0|];
      [|subst pos'; reflexivity].
    destruct Hrun as (v0' & _ & _ & _ & _ & _ & _ & _ & _ & _ & _ & _ & Hc & _).
    exact Hc.
  - unfold Slash in Hrun.
    destruct (pos_validators pos !! validator) as [v0|];
      [|injection Hrun as <- <-; reflexivity].
    destruct (bool_decide _); [injection Hrun as <- <-; reflexivity|].
    unfold mbind, outcome_bind in Hrun.
    destruct (big_Div _ _) as [slashAmount|]; [|discriminate].
    injection Hrun as <- <-. reflexivity.
Qed.

Lemma reachable_registry_SlashRate (pos : PoS) :
  reachable_registry pos -> SlashRate (pos_config pos) = 500000000000000000.
Proof.
  intros (s & m & Hrtc).
  assert (H : SlashRate (pos_config (NewPoS s m)) = 500000000000000000) by reflexivity.
  revert H. induction Hrtc as [|x y z Hstep _ IH]; intros H; [exact H|].
  apply IH. rewrite (registry_step_config _ _ Hstep). exact H.
Qed.

(** X8.  On a registry that the operations build from [NewPoS], whose slash
    rate is 500000000000000000 per thousand, [Slash] of a registered
    validator that is not yet slashed succeeds: it marks the validator
    slashed and takes 500000000000000 times its weight (own plus delegated
    stake) off its own stake and off the total stake; the delegated total
    and the delegations are untouched.  So the weight of a validator that
    had a positive weight is negative afterwards. *)
Theorem Slash_takes_a_multiple_of_the_weight
    (pos : PoS) (validator : Address) (reason : string) (v : Validator) :
  reachable_registry pos ->
  pos_validators pos !! validator = Some v ->
  v_Status v <> ValidatorStatusSlashed ->
  exists pos' v',
    Slash pos validator reason = Ret (None, pos')
    /\ pos_validators pos' = <[validator := v']> (pos_validators pos)
    /\ pos_delegators pos' = pos_delegators pos
    /\ v_Status v' = ValidatorStatusSlashed
    /\ v_Stake v' = v_Stake v - 500000000000000 * weight v
    /\ v_TotalDelegated v' = v_TotalDelegated v
    /\ GetTotalStake pos' = GetTotalStake pos - 500000000000000 * weight v
    /\ (0 < weight v -> weight v' < 0).
Proof.
  intros Hreach Hlook Hns.
  pose proof (reachable_registry_SlashRate pos Hreach) as Hrate.
  unfold Slash. rewrite Hlook, bool_decide_false by exact Hns.
  rewrite big_Div_Ret by lia. unfold mbind, outcome_bind.
  change (Z.sgn 1000) with 1. change (Z.abs 1000) with 1000. rewrite Z.mul_1_l.
  assert (Hamount : SlashRate (pos_config pos) * (v_Stake v + v_TotalDelegated v) / 1000
                    = 500000000000000 * weight v).
  { rewrite Hrate. unfold weight.
    replace (500000000000000000 * (v_Stake v + v_TotalDelegated v))
      with (500000000000000 * (v_Stake v + v_TotalDelegated v) * 1000) by lia.
    apply Z.div_mul. lia. }
  rewrite Hamount.
  eexists _, _. split; [reflexivity|]. cbn.
  repeat split. unfold weight in *. cbn. lia.
Qed.

Lemma Slash_takes_a_multiple_of_the_weight_witness :
  exists pos' v',
    Slash single_registry 21 "double sign" = Ret (None, pos')
    /\ pos_validators pos' = <[21 := v']> (pos_validators single_registry)
    /\ pos_delegators pos' = pos_delegators single_registry
    /\ v_Status v' = ValidatorStatusSlashed
    /\ v_Stake v' = 1000000 - 500000000000000 * 1000000
    /\ v_TotalDelegated v' = 0
    /\ GetTotalStake pos' = GetTotalStake single_registry - 500000000000000 * 1000000
    /\ (0 < 1000000 -> weight v' < 0).
Proof.
  exact (Slash_takes_a_multiple_of_the_weight single_registry 21 "double sign"
           (mkValidator 21 1000000 0 1000 ValidatorStatusActive 1700000000 0 0
                        (Some (mkPublicKey 3 4)))
           single_registry_reachable eq_refl ltac:(discriminate)).
Defined.

(** ** The account state and the transaction frame *)

Lemma GetAccount_idempotent (s : State) (addr : Address) :
  GetAccount (snd (GetAccount s addr)) addr = GetAccount s addr.
Proof.
  unfold GetAccount at 2 3.
  destruct (s_cache s !! addr) as [account|] eqn:Hc.
  - cbn. unfold GetAccount. rewrite Hc. reflexivity.
  - destruct (db_Get (s_db s) (Address_Bytes addr)) as [r db'] eqn:Hget. cbn.
    unfold GetAccount. cbn. rewrite lookup_insert_eq. reflexivity.
Qed.

Lemma GetAccount_cached_other (s : State) (addr addr' : Address) (account : Account) :
  addr' <> addr ->
  s_cache s !! addr' = Some account ->
  s_cache (snd (GetAccount s addr)) !! addr' = Some account.
Proof.
  intros Hne Hc. unfold GetAccount.
  destruct (s_cache s !! addr); [exact Hc|].
  destruct (db_Get _ _) as [r db']. cbn. rewrite lookup_insert_ne by congruence. exact Hc.
Qed.

Section StateRoundTrips.

Variable sha256_Sum : list byte -> list byte.

(** X9.  The setters and getters of the state.  No setter returns:
    [SetBalance], [SetNonce], [SetCode] and [SetState] take the lock of the
    state for writing and then call [GetAccount], which waits for the same
    lock.  The getters return.  An account that the cache holds is returned
    as it is, and the state stays as it is.  An account that the cache does
    not hold reads with nonce zero, no code, no code hash and zero in every
    storage slot, and is in the cache afterwards; its balance is the number
    that the store holds under the address, zero without an entry.  A read
    writes nothing to the store and leaves the accounts that are cached
    under other addresses as they were; and a second read of an account
    returns the same account and the same state. *)
Theorem State_setters_and_getters (s : State) (addr : Address) :
  (forall balance, SetBalance s addr balance = Panic Deadlock)
  /\ (forall nonce, SetNonce s addr nonce = Panic Deadlock)
  /\ (forall code, SetCode sha256_Sum s addr code = Panic Deadlock)
  /\ (forall key value, SetState s addr key value = Panic Deadlock)
  /\ (forall account,
        s_cache s !! addr = Some account -> GetAccount s addr = (account, s))
  /\ (s_cache s !! addr = None ->
      fst (GetNonce s addr) = 0
      /\ fst (GetCode s addr) = []
      /\ fst (GetCodeHash s addr) = []
      /\ (forall key, fst (GetState s addr key) = 0)
      /\ (db_faults (s_db s) = [] ->
          fst (GetBalance s addr)
          = match kv s !! Address_Bytes addr with
            | Some data => big_SetBytes data
            | None => 0
            end)
      /\ s_cache (snd (GetAccount s addr)) !! addr = Some (fst (GetAccount s addr)))
  /\ kv (snd (GetAccount s addr)) = kv s
  /\ (forall addr' account,
        addr' <> addr -> s_cache s !! addr' = Some account ->
        s_cache (snd (GetAccount s addr)) !! addr' = Some account)
  /\ GetAccount (snd (GetAccount s addr)) addr = GetAccount s addr.
Proof.
  split; [reflexivity|]. split; [reflexivity|]. split; [reflexivity|].
  split; [reflexivity|]. split.
  { intros account Hc. unfold GetAccount. rewrite Hc. reflexivity. }
  split.
  { intros Hc. unfold GetNonce, GetCode, GetCodeHash, GetState, GetBalance, GetAccount.
    rewrite Hc. unfold db_Get, db_tick, kv.
    destruct (db_faults (s_db s)) as [|[|] faults]; cbn.
    - destruct (db_kv (s_db s) !! Address_Bytes addr); cbn;
        rewrite lookup_insert_eq; repeat split.
    - rewrite lookup_insert_eq. repeat split. discriminate.
    - destruct (db_kv (s_db s) !! Address_Bytes addr); cbn;
        rewrite lookup_insert_eq; repeat split; discriminate. }
  split; [apply GetAccount_kv|].
  split; [intros addr' account; apply GetAccount_cached_other|].
  apply GetAccount_idempotent.
Qed.

End StateRoundTrips.

(** *** What [Commit] leaves in the store *)

Lemma db_Put_reliable (db : DB) (key value : list byte) :
  db_faults db = [] ->
  db_Put db key value = (None, mkDB (<[key := value]> (db_kv db)) []).
Proof. intros H. unfold db_Put, db_tick. rewrite H. cbn. rewrite H. reflexivity. Qed.

Lemma db_Get_reliable (db : DB) (key : list byte) :
  db_faults db = [] ->
  db_Get db key = (match db_kv db !! key with
                   | Some v => inl v
                   | None => inr leveldb_ErrNotFound
                   end, db).
Proof.
  intros H. unfold db_Get, db_tick. rewrite H. destruct (db_kv db !! key); reflexivity.
Qed.

Lemma apply_writes_app (store : gmap (list byte) (list byte))
    (w1 w2 : list (list byte * list byte)) :
  apply_writes store (w1 ++ w2) = apply_writes (apply_writes store w1) w2.
Proof. apply foldl_app. Qed.

Section CommitProperties.

Variable Keccak256 : list byte -> list byte.

Lemma commit_storage_reliable (addr : Address) (slots : list (Z * Z)) :
  forall store,
    commit_storage (mkDB store []) addr slots
    = (None,
       mkDB (apply_writes store
               ((fun '(key, value) =>
                   (Address_Bytes addr ++ Hash_Bytes key, Hash_Bytes value)) <$> slots))
            []).
Proof.
  induction slots as [|[key value] rest IH]; intros store; [reflexivity|].
  cbn [commit_storage]. rewrite db_Put_reliable by reflexivity. rewrite IH. reflexivity.
Qed.

Lemma commit_account_reliable (store : gmap (list byte) (list byte))
    (addr : Address) (account : Account) :
  commit_account Keccak256 (mkDB store []) addr account
  = (None, mkDB (apply_writes store (account_writes Keccak256 addr account)) []).
Proof.
  unfold commit_account, account_writes.
  rewrite db_Put_reliable by reflexivity.
  cbn [apply_writes foldl]. fold (apply_writes (<[Address_Bytes addr :=
                                      big_Bytes (acc_Balance account)]> store)).
  rewrite apply_writes_app.
  destruct (0 <? len (acc_Code account)).
  - rewrite db_Put_reliable by reflexivity. cbn [db_kv]. apply commit_storage_reliable.
  - apply commit_storage_reliable.
Qed.

Lemma commit_accounts_reliable (accounts : list (Z * Account)) :
  forall store,
    commit_accounts Keccak256 (mkDB store []) accounts
    = (None, mkDB (apply_writes store (cache_writes Keccak256 accounts)) []).
Proof.
  induction accounts as [|[addr account] rest IH]; intros store; [reflexivity|].
  cbn [commit_accounts]. rewrite commit_account_reliable. rewrite IH.
  unfold cache_writes. cbn [mbind list_bind]. rewrite apply_writes_app. reflexivity.
Qed.

(** A key that is written with one value only holds that value in the end. *)
Lemma apply_writes_lookup (writes : list (list byte * list byte))
    (key value : list byte) :
  (key, value) ∈ writes ->
  (forall value', (key, value') ∈ writes -> value' = value) ->
  forall store, apply_writes store writes !! key = Some value.
Proof.
  induction writes as [|[k v] rest IH] using rev_ind; intros Hin Huniq store.
  - apply elem_of_nil in Hin. contradiction.
  - rewrite apply_writes_app. cbn.
    destruct (decide (k = key)) as [->|Hne].
    + rewrite lookup_insert_eq. f_equal. apply Huniq.
      apply elem_of_app. right. apply list_elem_of_here.
    + rewrite lookup_insert_ne by exact Hne. apply IH.
      * apply elem_of_app in Hin as [Hin|Hin]; [exact Hin|].
        apply list_elem_of_singleton in Hin. congruence.
      * intros value' Hin'. apply Huniq. apply elem_of_app. left. exact Hin'.
Qed.

Lemma apply_writes_lookup_other (writes : list (list byte * list byte))
    (key : list byte) :
  (forall value, (key, value) ∉ writes) ->
  forall store, apply_writes store writes !! key = store !! key.
Proof.
  induction writes as [|[k v] rest IH]; intros Hnot store; [reflexivity|].
  cbn. fold (apply_writes (<[k := v]> store) rest). rewrite IH.
  - apply lookup_insert_ne. intros ->. apply (Hnot v). apply list_elem_of_here.
  - intros value Hin. apply (Hnot value). apply list_elem_of_further. exact Hin.
Qed.

End CommitProperties.

Lemma fixed_bytes_inj (w : nat) (x y : Z) :
  0 <= x < 256 ^ Z.of_nat w -> 0 <= y < 256 ^ Z.of_nat w ->
  fixed_bytes w x = fixed_bytes w y -> x = y.
Proof.
  intros Hx Hy H. apply (f_equal big_SetBytes) in H.
  rewrite !big_SetBytes_fixed_bytes in H.
  rewrite !Z.mod_small in H by assumption. exact H.
Qed.

Lemma Address_Bytes_inj (a b : Address) :
  0 <= a < 2 ^ 160 -> 0 <= b < 2 ^ 160 -> Address_Bytes a = Address_Bytes b -> a = b.
Proof. apply (fixed_bytes_inj 20). Qed.

Lemma Hash_Bytes_inj (a b : Hash) :
  0 <= a < 2 ^ 256 -> 0 <= b < 2 ^ 256 -> Hash_Bytes a = Hash_Bytes b -> a = b.
Proof. apply (fixed_bytes_inj 32). Qed.

Lemma length_Address_Bytes (a : Address) : length (Address_Bytes a) = 20%nat.
Proof. apply length_fixed_bytes. Qed.

Lemma length_Hash_Bytes (h : Hash) : length (Hash_Bytes h) = 32%nat.
Proof. apply length_fixed_bytes. Qed.

Section CommitTheorem.

Variable Keccak256 : list byte -> list byte.

Hypothesis Keccak256_length : forall data, length (Keccak256 data) = 32%nat.

Lemma elem_of_account_writes (addr : Address) (account : Account)
    (key value : list byte) :
  (key, value) ∈ account_writes Keccak256 addr account ->
  (key = Address_Bytes addr /\ value = big_Bytes (acc_Balance account))
  \/ (length key = 32%nat)
  \/ (exists k v, acc_Storage account !! k = Some v
                  /\ key = Address_Bytes addr ++ Hash_Bytes k
                  /\ value = Hash_Bytes v).
Proof.
  unfold account_writes. rewrite elem_of_cons, elem_of_app.
  intros [[= -> ->]|[Hcode|Hslot]].
  - left. split; reflexivity.
  - right. left. destruct (0 <? len (acc_Code account)).
    + apply list_elem_of_singleton in Hcode. injection Hcode as -> ->.
      apply Keccak256_length.
    + apply elem_of_nil in Hcode. contradiction.
  - right. right. apply list_elem_of_fmap in Hslot as ([k v] & [= -> ->] & Hkv).
    apply elem_of_map_to_list in Hkv. eauto.
Qed.

Lemma elem_of_cache_writes (cache : gmap Z Account) (key value : list byte) :
  (key, value) ∈ cache_writes Keccak256 (map_to_list cache) <->
  exists addr account,
    cache !! addr = Some account
    /\ (key, value) ∈ account_writes Keccak256 addr account.
Proof.
  unfold cache_writes. rewrite list_elem_of_bind. split.
  - intros ([addr account] & Hin & Hkv). apply elem_of_map_to_list in Hkv. eauto.
  - intros (addr & account & Hkv & Hin). exists (addr, account).
    split; [exact Hin|]. apply elem_of_map_to_list. exact Hkv.
Qed.

(** X10.  [Commit] and the next read.  On a store that does not fail, with
    every cached address a 20-byte value, every storage key a 32-byte value
    and a hash function that returns 32 bytes, [Commit] succeeds and empties
    the cache; the store then holds, for every account that was cached, its
    balance (the magnitude, as [big.Int.Bytes] writes it) under the address
    and each of its storage slots under the address followed by the key.
    The account that [GetAccount] then builds for the address has that
    balance magnitude, and nonce zero, no code and no storage: [Commit] does
    not write the nonce and [GetAccount] reads neither code nor storage
    back. *)
Theorem Commit_then_reload (s : State) :
  reliable s ->
  (forall addr account, s_cache s !! addr = Some account ->
     0 <= addr < 2 ^ 160
     /\ forall key value, acc_Storage account !! key = Some value -> 0 <= key < 2 ^ 256) ->
  exists s',
    Commit Keccak256 s = (None, s')
    /\ s_cache s' = ∅
    /\ reliable s'
    /\ forall addr account, s_cache s !! addr = Some account ->
         kv s' !! Address_Bytes addr = Some (big_Bytes (acc_Balance account))
         /\ fst (GetAccount s' addr) = mkAccount 0 (Z.abs (acc_Balance account)) [] [] ∅
         /\ forall key value, acc_Storage account !! key = Some value ->
              kv s' !! (Address_Bytes addr ++ Hash_Bytes key) = Some (Hash_Bytes value).
Proof.
  intros Hrel Hrange. destruct s as [[store faults] cache]. unfold reliable in Hrel.
  cbn in Hrel, Hrange. subst faults.
  eexists. split.
  { unfold Commit. cbn [s_db s_cache]. rewrite commit_accounts_reliable. reflexivity. }
  split; [reflexivity|]. split; [reflexivity|].
  intros addr account Hcached. cbn [s_cache] in Hcached.
  destruct (Hrange addr account Hcached) as [Haddr Hkeys].
  assert (Hbalance :
    apply_writes store (cache_writes Keccak256 (map_to_list cache)) !! Address_Bytes addr
    = Some (big_Bytes (acc_Balance account))).
  { apply apply_writes_lookup.
    - apply elem_of_cache_writes. exists addr, account. split; [exact Hcached|].
      apply list_elem_of_here.
    - intros value' Hin.
      apply elem_of_cache_writes in Hin as (addr' & account' & Hcached' & Hin).
      apply elem_of_account_writes in Hin as [[Hk ->]|[Hlen|(k & v & _ & Hk & _)]].
      + destruct (Hrange addr' account' Hcached') as [Haddr' _].
        apply Address_Bytes_inj in Hk; [|assumption..]. subst addr'.
        congruence.
      + rewrite length_Address_Bytes in Hlen. discriminate.
      + apply (f_equal length) in Hk.
        rewrite length_app, !length_Address_Bytes, length_Hash_Bytes in Hk. discriminate. }
  split; [exact Hbalance|]. split.
  - unfold GetAccount. cbn [s_cache s_db]. rewrite lookup_empty.
    rewrite db_Get_reliable by reflexivity. cbn [db_kv].
    unfold kv in Hbalance. cbn in Hbalance. rewrite Hbalance. cbn.
    rewrite big_SetBytes_Bytes. reflexivity.
  - intros key value Hslot. apply apply_writes_lookup.
    + apply elem_of_cache_writes. exists addr, account. split; [exact Hcached|].
      unfold account_writes. apply list_elem_of_further, elem_of_app. right.
      apply list_elem_of_fmap. exists (key, value). split; [reflexivity|].
      apply elem_of_map_to_list. exact Hslot.
    + intros value' Hin.
      apply elem_of_cache_writes in Hin as (addr' & account' & Hcached' & Hin).
      apply elem_of_account_writes in Hin as [[Hk _]|[Hlen|(k & v & Hkv & Hk & ->)]].
      * apply (f_equal length) in Hk.
        rewrite length_app, !length_Address_Bytes, length_Hash_Bytes in Hk. discriminate.
      * rewrite length_app, length_Address_Bytes, length_Hash_Bytes in Hlen. discriminate.
      * apply app_inj_1 in Hk as [Ha Hh];
          [|rewrite !length_Address_Bytes; reflexivity].
        destruct (Hrange addr' account' Hcached') as [Haddr' Hkeys'].
        apply Address_Bytes_inj in Ha; [|assumption..]. subst addr'.
        assert (account' = account) by congruence. subst account'.
        apply Hash_Bytes_inj in Hh; [|eauto..]. subst k. congruence.
Qed.

End CommitTheorem.

Lemma Commit_then_reload_witness :
  exists s',
    Commit folding_hash cached_contract = (None, s')
    /\ s_cache s' = ∅
    /\ reliable s'
    /\ forall addr account, s_cache cached_contract !! addr = Some account ->
         kv s' !! Address_Bytes addr = Some (big_Bytes (acc_Balance account))
         /\ fst (GetAccount s' addr) = mkAccount 0 (Z.abs (acc_Balance account)) [] [] ∅
         /\ forall key value, acc_Storage account !! key = Some value ->
              kv s' !! (Address_Bytes addr ++ Hash_Bytes key) = Some (Hash_Bytes value).
Proof.
  apply (Commit_then_reload folding_hash (fun data => length_Hash_Bytes _) cached_contract).
  - reflexivity.
  - intros addr account Hc. unfold cached_contract in Hc. cbn [s_cache] in Hc.
    apply lookup_singleton_Some in Hc as [<- <-]. split; [lia|].
    intros key value Hs. cbn [acc_Storage] in Hs.
    apply lookup_singleton_Some in Hs as [<- <-]. lia.
Defined.

(** *** What the interpreter leaves alone *)

Lemma GetAccount_reliable (s : State) (addr : Address) :
  reliable s ->
  fst (GetAccount s addr) = account_of s addr
  /\ reliable (snd (GetAccount s addr))
  /\ forall addr', account_of (snd (GetAccount s addr)) addr' = account_of s addr'.
Proof.
  intros Hrel. unfold GetAccount, account_of, kv.
  destruct (s_cache s !! addr) as [account|] eqn:Hc.
  - cbn. repeat split; solve [assumption | reflexivity].
  - rewrite db_Get_reliable by exact Hrel. cbn.
    split; [|split; [exact Hrel|]].
    + destruct (db_kv (s_db s) !! Address_Bytes addr); reflexivity.
    + intros addr'. destruct (decide (addr = addr')) as [<-|Hne].
      * rewrite lookup_insert_eq, Hc.
        destruct (db_kv (s_db s) !! Address_Bytes addr); reflexivity.
      * rewrite lookup_insert_ne by exact Hne. reflexivity.
Qed.

(** No operation returns with another state: [SLOAD] and [SSTORE], the two
    that reach for the state, do not return. *)
Lemma execute_state (o : operation) (m m' : Machine) (e : option error) :
  execute o m = Ret (e, m') -> m_state m' = m_state m.
Proof.
  destruct o; cbn; unfold_ops; case_ops;
    intros H; inversion H; subst; cbn; reflexivity.
Qed.

Lemma step_state (in_ : Interpreter) (m : Machine) :
  match step in_ m with
  | Halt m' | Next m' | Fail _ m' => m_state m' = m_state m
  | Crash _ => True
  end.
Proof.
  unfold step.
  destruct (c_Code (m_contract m)) as [|b rest]; [reflexivity|].
  destruct (in_evm in_) as [gt|]; [|exact I].
  cbn. destruct (_ <? _); [reflexivity|].
  destruct (in_table in_ (Z_of_byte b)) as [o|]; [|reflexivity].
  destruct (execute o _) as [[[err|] m3]|p] eqn:Hex; [| |exact I].
  - apply execute_state in Hex. exact Hex.
  - apply execute_state in Hex. destruct (_ || _); exact Hex.
Qed.

Lemma reaches_state (in_ : Interpreter) (m m' : Machine) :
  reaches in_ m m' -> m_state m' = m_state m.
Proof.
  induction 1 as [m|m m1 m2 Hstep _ IH]; [reflexivity|].
  pose proof (step_state in_ m) as Hs. rewrite Hstep in Hs. congruence.
Qed.

Lemma Run_loop_state (in_ : Interpreter) (m m' : Machine) (e : option error) :
  Run_loop in_ m = Ret (e, m') -> m_state m' = m_state m.
Proof.
  intros Hrun. destruct (Run_loop_reaches _ _ _ _ Hrun) as (mf & Hreach & Hstep).
  pose proof (step_state in_ mf) as Hs. rewrite Hstep in Hs.
  apply reaches_state in Hreach. destruct e; congruence.
Qed.

(** [ExecuteTransaction] returns through its error branch only. *)
Lemma ExecuteTransaction_returns (evm : EVM) (st st' : State) (tx : Transaction)
    (receipt : Receipt) (err : option error) :
  ExecuteTransaction evm st tx = Ret (receipt, err, st') ->
  exists to e gasLeft,
    tx_To tx = Some to
    /\ err = Some e
    /\ receipt = mkReceipt (tx_Hash tx) 0 (u64_sub (tx_GasLimit tx) gasLeft) []
    /\ st' = snd (GetCodeHash (snd (GetCode st to)) to).
Proof.
  unfold ExecuteTransaction.
  destruct (tx_To tx) as [to|]; [|discriminate].
  destruct (GetCode st to) as [code st1] eqn:Hcode.
  destruct (GetCodeHash st1 to) as [codeHash st2] eqn:Hhash.
  unfold Run, mbind, outcome_bind.
  destruct (Run_loop _ _) as [[[e|] m]|p] eqn:Hrun; [| |discriminate].
  - apply Run_loop_state in Hrun. cbn in Hrun.
    intros [= <- <- <-]. exists to, e, (c_Gas (m_contract m)).
    repeat split. rewrite Hcode. cbn. rewrite Hhash. exact Hrun.
  - destruct (GetNonce (m_state m) (tx_From tx)) as [nonce st3]. cbn. discriminate.
Qed.

(** The accounts after [ExecuteTransaction] are the accounts before. *)
Lemma ExecuteTransaction_accounts (evm : EVM) (st st' : State) (tx : Transaction)
    (receipt : Receipt) (err : option error) :
  reliable st ->
  ExecuteTransaction evm st tx = Ret (receipt, err, st') ->
  reliable st' /\ forall addr, account_of st' addr = account_of st addr.
Proof.
  intros Hrel Hex.
  destruct (ExecuteTransaction_returns _ _ _ _ _ _ Hex) as (to & e & g & _ & _ & _ & ->).
  unfold GetCode, GetCodeHash.
  destruct (GetAccount_reliable st to Hrel) as (_ & Hrel1 & Hsame1).
  destruct (GetAccount st to) as [a1 st1]. cbn [snd] in *.
  destruct (GetAccount_reliable st1 to Hrel1) as (_ & Hrel2 & Hsame2).
  destruct (GetAccount st1 to) as [a2 st2]. cbn [snd] in *.
  split; [exact Hrel2|]. intros addr. rewrite Hsame2. apply Hsame1.
Qed.

(** X11.  What [ExecuteTransaction] returns and what it changes.  It returns
    only with an error: after a run without error it calls [SetNonce], which
    does not return.  When it returns, the receipt carries the hash of the
    transaction, status 0 and no logs, the gas used is at most the gas limit
    taken modulo 2^64, and the store holds what it held; and when the store
    does not fail, every account reads as it did before: neither the value
    of the transaction nor the price of the gas has moved, no nonce has
    advanced, and no code or storage has changed. *)
Theorem ExecuteTransaction_returns_only_errors
    (evm : EVM) (st st' : State) (tx : Transaction)
    (receipt : Receipt) (err : option error) :
  ExecuteTransaction evm st tx = Ret (receipt, err, st') ->
  err <> None
  /\ r_TransactionHash receipt = tx_Hash tx
  /\ r_Status receipt = 0
  /\ r_Logs receipt = []
  /\ kv st' = kv st
  /\ (reliable st ->
      reliable st'
      /\ forall addr,
           fst (GetAccount st' addr) = fst (GetAccount st addr)
           /\ fst (GetBalance st' addr) = fst (GetBalance st addr)
           /\ fst (GetNonce st' addr) = fst (GetNonce st addr)
           /\ fst (GetCode st' addr) = fst (GetCode st addr)
           /\ forall key, fst (GetState st' addr key) = fst (GetState st addr key)).
Proof.
  intros Hex.
  pose proof (ExecuteTransaction_kv _ _ _ _ _ _ Hex) as Hkv.
  destruct (ExecuteTransaction_returns _ _ _ _ _ _ Hex)
    as (to & e & g & _ & -> & -> & _).
  split; [discriminate|]. split; [reflexivity|]. split; [reflexivity|].
  split; [reflexivity|]. split; [exact Hkv|].
  intros Hrel.
  destruct (ExecuteTransaction_accounts _ _ _ _ _ _ Hrel Hex) as [Hrel' Hacc].
  split; [exact Hrel'|]. intros addr.
  destruct (GetAccount_reliable st addr Hrel) as (Hfst & _).
  destruct (GetAccount_reliable st' addr Hrel') as (Hfst' & _).
  unfold GetBalance, GetCode, GetState, GetNonce.
  destruct (GetAccount st addr) as [a s0], (GetAccount st' addr) as [a' s0'].
  cbn [fst] in *. subst a a'. rewrite Hacc. repeat split.
Qed.

Lemma example_state_reliable : reliable example_state.
Proof. reflexivity. Qed.

Lemma ExecuteTransaction_returns_only_errors_witness :
  exists receipt st',
    ExecuteTransaction example_evm example_state (example_tx 10)
    = Ret (receipt, Some (Errorf "out of gas"), st')
    /\ r_Status receipt = 0
    /\ kv st' = kv example_state
    /\ fst (GetNonce st' 5) = fst (GetNonce example_state 5)
    /\ fst (GetBalance st' 5) = fst (GetBalance example_state 5).
Proof.
  eassert (Hex : ExecuteTransaction example_evm example_state (example_tx 10)
                 = Ret (_, Some (Errorf "out of gas"), _)) by (vm_compute; reflexivity).
  eexists _, _. split; [exact Hex|].
  destruct (ExecuteTransaction_returns_only_errors _ _ _ _ _ _ Hex)
    as (_ & _ & Hstatus & _ & Hkv & Hacc).
  destruct (Hacc example_state_reliable) as (_ & Haddr).
  destruct (Haddr 5) as (_ & Hbalance & Hnonce & _).
  auto.
Defined.

(** [ExecuteTransactions] returns receipts for no transaction. *)
Lemma ExecuteTransactions_loop_receipts (evm : EVM) (st st' : State)
    (txs : list Transaction) (receipts0 receipts : list Receipt) :
  ExecuteTransactions_loop evm st txs receipts0 = Ret (inl receipts, st') ->
  txs = [] /\ receipts = receipts0 /\ st' = st.
Proof.
  destruct txs as [|tx rest]; cbn [ExecuteTransactions_loop].
  - intros [= <- <-]. auto.
  - unfold mbind, outcome_bind.
    destruct (ExecuteTransaction evm st tx) as [[[receipt err] st1]|p] eqn:Hex;
      [|discriminate].
    destruct (ExecuteTransaction_returns _ _ _ _ _ _ Hex) as (to & e & g & _ & -> & _).
    discriminate.
Qed.

Section AcceptedBlocks.

Variable prim : Primitives.

(** X13.  The blocks that [ProcessBlock] accepts.  A block that
    [ProcessBlock] accepts has no transactions: the execution of a
    transaction returns an error or does not return.  After it the cache of
    the state is empty, and every account reads with nonce zero, no code, an
    empty code hash and zero in every storage slot: [Commit] has emptied the
    cache, and [GetAccount] reads nothing but the balance back from the
    store. *)
Theorem ProcessBlock_accepts_no_transaction
    (bc : Blockchain) (now : Z) (order : list Z) (randBytes : list byte)
    (block : Block) (bc' : Blockchain) :
  ProcessBlock prim bc now order randBytes block = Ret (None, bc') ->
  b_Transactions block = []
  /\ s_cache (bc_state bc') = ∅
  /\ forall addr,
       fst (GetNonce (bc_state bc') addr) = 0
       /\ fst (GetCode (bc_state bc') addr) = []
       /\ fst (GetCodeHash (bc_state bc') addr) = []
       /\ forall key, fst (GetState (bc_state bc') addr key) = 0.
Proof.
  intros Hrun.
  assert (H : b_Transactions block = [] /\ s_cache (bc_state bc') = ∅).
  { unfold ProcessBlock, mbind, outcome_bind in Hrun.
    destruct (ValidateBlock _ _ _ _ _) as [[[verr|] bc1]|p]; try discriminate.
    destruct (ExecuteTransactions _ _) as [[[receipts|e] bc2]|p] eqn:Hexec;
      try discriminate.
    assert (Htxs : b_Transactions block = []).
    { unfold ExecuteTransactions, mbind, outcome_bind in Hexec.
      destruct (ExecuteTransactions_loop _ _ _ _) as [[[rs|e] st]|p] eqn:Hloop;
        try discriminate.
      apply ExecuteTransactions_loop_receipts in Hloop. apply Hloop. }
    destruct (Commit _ _) as [[cerr|] st] eqn:Hcommit; [discriminate|].
    assert (Hst : s_cache st = ∅).
    { unfold Commit in Hcommit. destruct (commit_accounts _ _ _) as [[e|] db'];
        [discriminate|]. injection Hcommit as <-. reflexivity. }
    unfold writeBlock in Hrun.
    destruct (rlp_EncodeBlock prim block) as [data|e]; [|discriminate].
    destruct (db_Put _ _ _) as [[e1|] db1]; [discriminate|].
    destruct (db_Put db1 _ _) as [[e2|] db2]; [discriminate|].
    destruct (UpdateBlock _ _ _) as [pos|p]; [|discriminate].
    injection Hrun as <-. cbn. split; [exact Htxs|exact Hst]. }
  destruct H as [Htxs Hcache].
  split; [exact Htxs|]. split; [exact Hcache|]. intros addr.
  unfold GetNonce, GetCode, GetCodeHash, GetState, GetAccount. rewrite Hcache.
  rewrite lookup_empty. destruct (db_Get _ _) as [r db']. cbn. repeat split.
Qed.

End AcceptedBlocks.

Lemma idle_chain_reliable : reliable (bc_state idle_chain).
Proof. reflexivity. Qed.

(** An outcome that is an acceptance is the acceptance of what [after]
    reads off it. *)
Lemma accepted_after (r : outcome (option error * Blockchain)) (bc : Blockchain) :
  match r with Ret (None, _) => true | _ => false end = true ->
  r = Ret (None, after r bc).
Proof. destruct r as [[[err|] bc']|p]; [discriminate|reflexivity|discriminate]. Qed.

Lemma ProcessBlock_accepts_no_transaction_witness :
  let block := example_block 0 0 [] in
  let bc' := after (ProcessBlock example_primitives idle_chain 1700000006 [21]
                      (repeat xff 32) block)
                   idle_chain in
  bc_currentBlock bc' = Some block
  /\ b_Transactions block = []
  /\ s_cache (bc_state bc') = ∅
  /\ forall addr,
       fst (GetNonce (bc_state bc') addr) = 0
       /\ fst (GetCode (bc_state bc') addr) = []
       /\ fst (GetCodeHash (bc_state bc') addr) = []
       /\ forall key, fst (GetState (bc_state bc') addr key) = 0.
Proof.
  intros block bc'.
  split; [vm_compute; reflexivity|].
  apply (ProcessBlock_accepts_no_transaction example_primitives idle_chain
           1700000006 [21] (repeat xff 32) block bc').
  apply accepted_after. vm_compute. reflexivity.
Defined.

(** ** The interpreter: memory, storage and the end of a run *)

(** *** The memory *)

Lemma length_zeros (n : Z) : length (zeros n) = Z.to_nat n.
Proof. apply repeat_length. Qed.

Lemma length_copy_at (dst : list byte) (offset : Z) (src : list byte) :
  (Z.to_nat offset <= length dst)%nat ->
  length (copy_at dst offset src) = length dst.
Proof.
  intros H. unfold copy_at. rewrite !length_app, length_take, length_take, length_drop. lia.
Qed.

(** What [Get] returns, when it returns. *)
Lemma Memory_Get_returns (m : Memory) (offset size : Z) (data : list byte) :
  Memory_Get m offset size = Ret data ->
  data = (let end0 := u64_add offset size in
          let end_ := if len m <? end0 then len m else end0 in
          if end_ <=? offset then zeros size
          else copy_at (zeros size) 0
                 (take (Z.to_nat (end_ - offset)) (drop (Z.to_nat offset) m))).
Proof.
  unfold Memory_Get, make_bytes. cbv zeta.
  destruct (_ <=? _); destruct (maxAlloc <? size); cbn;
    solve [discriminate | intros [= <-]; reflexivity].
Qed.

Lemma length_Memory_Get (m : Memory) (offset size : Z) (data : list byte) :
  Memory_Get m offset size = Ret data -> length data = Z.to_nat size.
Proof.
  intros H. apply Memory_Get_returns in H. subst data. cbv zeta.
  destruct (_ <=? _).
  - apply length_zeros.
  - rewrite length_copy_at; [apply length_zeros|]. cbn. lia.
Qed.

(** What [Set] returns, when it returns and the end of the range has not
    wrapped around. *)
Lemma Memory_Set_returns (m m' : Memory) (offset size : Z) (value : list byte) :
  0 <= offset -> 0 <= size -> offset + size < two64 ->
  Memory_Set m offset size value = Ret m' ->
  m' = copy_at (if len m <? offset + size
                then m ++ zeros (offset + size - len m) else m) offset value.
Proof.
  intros Hoff Hsize Hend. unfold Memory_Set, u64_add. rewrite Z.mod_small by lia.
  unfold make_bytes, append_bytes, mbind, outcome_bind.
  destruct (len m <? offset + size).
  - destruct (maxAlloc <? offset + size - len m); [discriminate|].
    destruct (maxAlloc <? _); [discriminate|].
    destruct (_ <? offset); [discriminate|]. intros [= <-]. reflexivity.
  - destruct (_ <? offset); [discriminate|]. intros [= <-]. reflexivity.
Qed.

(** X14.  [Memory.Set] followed by [Memory.Get].  For an offset and a value
    whose end stays below 2^64: when [Set] of the whole value returns, the
    memory is as long as the longer of its former length and the end of the
    value, the bytes of the former memory outside the range are unchanged,
    a [Get] of the same range that returns, returns the value, and any
    [Get] that returns, returns exactly [size] bytes.  [Set] panics when the
    memory would have to grow by more than the largest allocation of the
    runtime, and so does [Get] of a larger size. *)
Theorem Memory_Set_then_Get (m : Memory) (offset : Z) (value : list byte) :
  let size := len value in
  0 <= offset ->
  offset + size < two64 ->
  (forall m',
     Memory_Set m offset size value = Ret m' ->
     len m' = Z.max (len m) (offset + size)
     /\ (forall data, Memory_Get m' offset size = Ret data -> data = value)
     /\ (forall i : nat,
           (Z.of_nat i < offset \/ offset + size <= Z.of_nat i) ->
           (i < length m)%nat ->
           m' !! i = m !! i)
     /\ forall offset' size' data,
          Memory_Get m' offset' size' = Ret data -> length data = Z.to_nat size')
  /\ (maxAlloc < offset + size - len m ->
      Memory_Set m offset size value = Panic LenOutOfRange)
  /\ (maxAlloc < size -> Memory_Get m offset size = Panic LenOutOfRange).
Proof.
  intros size Hoff Hend.
  assert (Hsize : 0 <= size) by (unfold size, len; lia).
  assert (Hm : 0 <= len m) by (unfold len; lia).
  split; [|split].
  2:{ intros Hbig. unfold Memory_Set, u64_add.
      rewrite Z.mod_small by (unfold two64 in *; lia).
      destruct (Z.ltb_spec (len m) (offset + size)) as [_|Hge];
        [|unfold maxAlloc in Hbig; lia].
      unfold make_bytes. destruct (Z.ltb_spec maxAlloc (offset + size - len m)); [|lia].
      reflexivity. }
  2:{ intros Hbig. unfold Memory_Get, make_bytes. cbv zeta.
      destruct (Z.ltb_spec maxAlloc size); [|lia].
      destruct (_ <=? _); reflexivity. }
  intros m' Hset.
  apply Memory_Set_returns in Hset; [|lia|lia|lia].
  subst m'. clear Hsize Hm. unfold size in *. clear size. unfold len in *.
  unfold u64_add, two64 in *.
  set (store := if Z.of_nat (length m) <? offset + Z.of_nat (length value)
                then m ++ zeros (offset + Z.of_nat (length value) - Z.of_nat (length m))
                else m).
  assert (Hlen : Z.of_nat (length store)
                 = Z.max (Z.of_nat (length m)) (offset + Z.of_nat (length value))).
  { subst store.
    destruct (Z.ltb_spec (Z.of_nat (length m)) (offset + Z.of_nat (length value))).
    - rewrite length_app, length_zeros. lia.
    - lia. }
  assert (Hprefix : forall i : nat, (i < length m)%nat -> store !! i = m !! i).
  { intros i Hi. subst store. destruct (_ <? _); [|reflexivity].
    apply lookup_app_l. exact Hi. }
  assert (Hn : Nat.min (length store - Z.to_nat offset) (length value) = length value)
    by lia.
  assert (Hcopy : copy_at store offset value
                  = take (Z.to_nat offset) store ++ value
                    ++ drop (Z.to_nat offset + length value) store).
  { unfold copy_at. rewrite Hn. rewrite firstn_all. reflexivity. }
  assert (Hclen : length (copy_at store offset value) = length store).
  { apply length_copy_at. lia. }
  split; [rewrite Hclen; exact Hlen|].
  split; [|split].
  - intros data Hget. apply Memory_Get_returns in Hget. subst data.
    unfold u64_add, two64, len. rewrite Z.mod_small by lia.
    rewrite Hclen.
    destruct (Z.ltb_spec (Z.of_nat (length store)) (offset + Z.of_nat (length value)));
      [lia|].
    destruct (Z.leb_spec (offset + Z.of_nat (length value)) offset) as [Hle|Hgt].
    + assert (Hnil : length value = 0%nat) by lia.
      apply length_zero_iff_nil in Hnil. rewrite Hnil. reflexivity.
    + rewrite Hcopy.
      rewrite drop_app_length'
        by (rewrite length_take; lia).
      replace (Z.to_nat (offset + Z.of_nat (length value) - offset)) with (length value)
        by lia.
      rewrite take_app_length.
      unfold copy_at. cbn [take Z.to_nat app].
      rewrite length_zeros, Nat.sub_0_r.
      replace (Nat.min (Z.to_nat (Z.of_nat (length value))) (length value))
        with (length value) by lia.
      rewrite firstn_all. cbn [Nat.add].
      rewrite drop_ge by (rewrite length_zeros; lia).
      apply app_nil_r.
  - intros i Hi Him. unfold Memory in *. rewrite Hcopy, <- (Hprefix i Him).
    destruct Hi as [Hi|Hi].
    + rewrite lookup_app_l by (rewrite length_take; lia).
      apply lookup_take_lt. lia.
    + rewrite lookup_app_r by (rewrite length_take; lia).
      rewrite lookup_app_r by (rewrite length_take; lia).
      rewrite lookup_drop. f_equal. rewrite length_take. lia.
  - intros offset' size' data. apply length_Memory_Get.
Qed.

Lemma Memory_Set_then_Get_witness :
  exists m',
    Memory_Set [x01; x02; x03] 2 (len [xaa; xbb]) [xaa; xbb] = Ret m'
    /\ Memory_Get m' 2 (len [xaa; xbb]) = Ret [xaa; xbb]
    /\ len m' = Z.max (len [x01; x02; x03]) (2 + len [xaa; xbb])
    /\ (forall i : nat,
          (Z.of_nat i < 2 \/ 2 + len [xaa; xbb] <= Z.of_nat i) ->
          (i < length [x01; x02; x03])%nat ->
          m' !! i = [x01; x02; x03] !! i).
Proof.
  exists [x01; x02; xaa; xbb].
  split; [vm_compute; reflexivity|]. split; [vm_compute; reflexivity|].
  destruct (Memory_Set_then_Get [x01; x02; x03] 2 [xaa; xbb]
              ltac:(lia) ltac:(vm_compute; reflexivity)) as (Hset & _).
  destruct (Hset [x01; x02; xaa; xbb] ltac:(vm_compute; reflexivity))
    as (Hlen & _ & Hframe & _).
  split; [exact Hlen|exact Hframe].
Defined.

(** *** Where a run ends *)

Lemma Run_loop_turn (in_ : Interpreter) (m : Machine) :
  Run_loop in_ m
  = match step in_ m with
    | Halt m' => Ret (None, m')
    | Next m' => Run_loop in_ m'
    | Fail err m' => Ret (Some err, m')
    | Crash p => Panic p
    end.
Proof.
  funelim (Run_loop in_ m);
    match goal with H : step _ _ = _ |- _ => rewrite H end; try reflexivity.
Qed.

Lemma newJumpTable_STOP : newJumpTable STOP = None.
Proof. reflexivity. Qed.

Lemma newJumpTable_RETURN : newJumpTable RETURN = None.
Proof. reflexivity. Qed.

Lemma step_Halt_end_of_code (in_ : Interpreter) (m m' : Machine) :
  in_table in_ = newJumpTable ->
  step in_ m = Halt m' ->
  c_Code (m_contract m) = [] /\ m' = m.
Proof.
  intros Htable. unfold step.
  destruct (c_Code (m_contract m)) as [|b rest]; [intros [= <-]; auto|].
  destruct (in_evm in_) as [gt|]; [|discriminate].
  destruct (_ <? _); [discriminate|].
  rewrite Htable.
  destruct (newJumpTable (Z_of_byte b)) as [o|] eqn:Ho; [|discriminate].
  destruct (execute o _) as [[[err|] m3]|p]; try discriminate.
  destruct (Z.eqb_spec (Z_of_byte b) STOP) as [Hs|_].
  { rewrite Hs, newJumpTable_STOP in Ho. discriminate. }
  destruct (Z.eqb_spec (Z_of_byte b) RETURN) as [Hr|_].
  { rewrite Hr, newJumpTable_RETURN in Ho. discriminate. }
  discriminate.
Qed.

(** X15.  How [Run] ends.  A run that returns a result has consumed the
    whole code; the result's return data is the whole memory and its
    [GasUsed] field is the gas that is left.  Empty code returns at once
    with empty return data and all the gas.  An opcode without an entry in
    the jump table, when its gas cost is covered, ends the run with
    [invalid opcode]; and [STOP], [RETURN] and [REVERT] have no entry, so a
    run never ends through them. *)
Theorem Run_ends_at_the_end_of_the_code
    (evm : option GasTable) (contract : Contract) (ctx : Context) (st : State) :
  let in_ := NewInterpreter evm in
  (forall result m,
     Run in_ contract ctx st = Ret (inl result, m) ->
     c_Code (m_contract m) = []
     /\ er_ReturnData result = m_memory m
     /\ er_GasUsed result = c_Gas (m_contract m))
  /\ (c_Code contract = [] ->
      Run in_ contract ctx st
      = Ret (inl (mkExecutionResult [] (c_Gas contract) []),
             mkMachine contract [] [] st))
  /\ (forall gt b rest,
        evm = Some gt ->
        c_Code contract = b :: rest ->
        newJumpTable (Z_of_byte b) = None ->
        getGasCost gt (Z_of_byte b) <= c_Gas contract ->
        exists m, Run in_ contract ctx st = Ret (inr (Errorf "invalid opcode: %d"), m))
  /\ newJumpTable STOP = None /\ newJumpTable RETURN = None
  /\ newJumpTable REVERT = None.
Proof.
  intros in_. split; [|split; [|split]].
  - intros result m Hrun. unfold Run, mbind, outcome_bind in Hrun.
    destruct (Run_loop in_ _) as [[[e|] m0]|p] eqn:Hloop; try discriminate.
    injection Hrun as <- <-.
    destruct (Run_loop_reaches _ _ _ _ Hloop) as (mf & _ & Hstep).
    apply step_Halt_end_of_code in Hstep as [Hcode ->]; [|reflexivity].
    cbn. repeat split. exact Hcode.
  - intros Hcode. unfold Run, mbind, outcome_bind.
    rewrite Run_loop_turn. unfold step. cbn [m_contract]. rewrite Hcode. reflexivity.
  - intros gt b rest -> Hcode Hnone Hgas. unfold Run, mbind, outcome_bind.
    rewrite Run_loop_turn. unfold step. cbn [m_contract]. rewrite Hcode.
    cbn [in_evm in_ NewInterpreter in_table with_contract m_contract with_Code c_Gas].
    destruct (Z.ltb_spec (c_Gas contract) (getGasCost gt (Z_of_byte b))); [lia|].
    rewrite Hnone. eexists. reflexivity.
  - repeat split.
Qed.

(** *** Storage through the operations *)

Lemma Run_loop_from (in_ : Interpreter) (m0 m : Machine) :
  reaches in_ m0 m -> Run_loop in_ m0 = Run_loop in_ m.
Proof.
  induction 1 as [m|m m1 m2 Hstep _ IH]; [reflexivity|].
  rewrite Run_loop_turn, Hstep. exact IH.
Qed.

(** X16.  [SLOAD] and [SSTORE] do not return.  Both reach for the state
    through [contract.EVM], a pointer that none of the frames built by
    [ExecuteTransaction], [CreateContract] and [Call] sets: on every
    machine, [opSload] and [opSstore] panic with a nil dereference.  So a
    run that comes to one of the two opcodes panics when the frame has the
    gas for the opcode, and ends with [out of gas] when it has not; no run
    reads or writes a storage slot. *)
Theorem storage_operations_panic
    (gt : GasTable) (m0 m : Machine) (b : byte) (rest : list byte) :
  reaches (NewInterpreter (Some gt)) m0 m ->
  c_Code (m_contract m) = b :: rest ->
  Z_of_byte b = SLOAD \/ Z_of_byte b = SSTORE ->
  opSload m = Panic NilDereference
  /\ opSstore m = Panic NilDereference
  /\ (getGasCost gt (Z_of_byte b) <= gas m ->
      Run_loop (NewInterpreter (Some gt)) m0 = Panic NilDereference)
  /\ (gas m < getGasCost gt (Z_of_byte b) ->
      exists m', Run_loop (NewInterpreter (Some gt)) m0
                 = Ret (Some (Errorf "out of gas"), m')).
Proof.
  intros Hreach Hcode Hop.
  assert (Hload : forall m1, opSload m1 = Panic NilDereference).
  { intros m1. unfold opSload. destruct (pop (m_stack m1)) as [k s1]. reflexivity. }
  assert (Hstore : forall m1, opSstore m1 = Panic NilDereference).
  { intros m1. unfold opSstore. destruct (pop (m_stack m1)) as [k s1].
    destruct (pop s1) as [v s2]. reflexivity. }
  split; [apply Hload|]. split; [apply Hstore|].
  rewrite (Run_loop_from _ _ _ Hreach), Run_loop_turn.
  unfold step, gas. rewrite Hcode.
  cbn [in_evm NewInterpreter in_table with_contract m_contract with_Code c_Gas].
  split; intros Hgas.
  - destruct (Z.ltb_spec (c_Gas (m_contract m)) (getGasCost gt (Z_of_byte b))); [lia|].
    destruct Hop as [-> | ->].
    + change (newJumpTable SLOAD) with (Some OpSload). cbn [execute].
      rewrite Hload. reflexivity.
    + change (newJumpTable SSTORE) with (Some OpSstore). cbn [execute].
      rewrite Hstore. reflexivity.
  - destruct (Z.ltb_spec (c_Gas (m_contract m)) (getGasCost gt (Z_of_byte b))); [|lia].
    eexists. reflexivity.
Qed.

Lemma storage_operations_panic_witness :
  Run_loop (NewInterpreter (Some defaultGasTable))
           (mkMachine (mkContract 5 7 0 [] 100000 example_code []) [] [] example_state)
  = Panic NilDereference
  /\ ExecuteTransaction example_evm example_state (example_tx 100000)
     = Panic NilDereference.
Proof.
  split; [|vm_compute; reflexivity].
  refine (proj1 (proj2 (proj2 (storage_operations_panic defaultGasTable
            (mkMachine (mkContract 5 7 0 [] 100000 example_code []) [] [] example_state)
            (mkMachine (mkContract 5 7 0 [] 99988 [x55] []) [1; 0] [] example_state)
            x55 [] _ eq_refl (or_intror eq_refl)))) _).
  - eapply reaches_step; [vm_compute; reflexivity|].
    eapply reaches_step; [vm_compute; reflexivity|].
    eapply reaches_step; [vm_compute; reflexivity|].
    eapply reaches_step; [vm_compute; reflexivity|].
    apply reaches_refl.
  - vm_compute. discriminate.
Defined.

(** *** The interpreter that [NewEVM] builds *)

(** X17.  The EVM that [NewEVM] builds executes no transaction.  Its
    interpreter has no EVM, hence no gas table.  [ExecuteTransaction] on it
    does not return: it panics with a nil dereference when the transaction
    has no recipient, and when the account called has code, at the first
    opcode; when the account called has no code the run returns at once and
    the call then waits for ever in [SetNonce].  [Call] of an account with
    code panics in the same way; [Call] of an account without code returns
    empty data, the gas it was given and no error. *)
Theorem NewEVM_executes_no_transaction
    (config : Config) (st : State) (tx : Transaction) :
  (tx_To tx = None ->
   ExecuteTransaction (NewEVM config) st tx = Panic NilDereference)
  /\ (forall to,
        tx_To tx = Some to -> fst (GetCode st to) = [] ->
        ExecuteTransaction (NewEVM config) st tx = Panic Deadlock)
  /\ (forall to,
        tx_To tx = Some to -> fst (GetCode st to) <> [] ->
        ExecuteTransaction (NewEVM config) st tx = Panic NilDereference)
  /\ (forall caller addr value input gas,
        fst (GetCode st addr) <> [] ->
        Call (NewEVM config) st caller addr value input gas = Panic NilDereference)
  /\ (forall caller addr value input gas,
        fst (GetCode st addr) = [] ->
        Call (NewEVM config) st caller addr value input gas
        = Ret ([], gas, None, snd (GetCode st addr))).
Proof.
  unfold ExecuteTransaction, Call, GetCode, GetCodeHash.
  split; [intros ->; reflexivity|].
  split; [|split; [|split]].
  - intros to -> Hcode.
    pose proof (GetAccount_idempotent st to) as Hidem.
    destruct (GetAccount st to) as [a1 st1]. cbn [fst snd] in *.
    rewrite Hidem.
    unfold Run, mbind, outcome_bind. rewrite Run_loop_turn.
    unfold step. cbn [m_contract c_Code]. rewrite Hcode.
    cbn [m_contract c_Gas er_Logs m_state].
    unfold GetNonce. destruct (GetAccount st1 (tx_From tx)) as [a3 st3].
    reflexivity.
  - intros to -> Hcode.
    pose proof (GetAccount_idempotent st to) as Hidem.
    destruct (GetAccount st to) as [a1 st1]. cbn [fst snd] in *.
    rewrite Hidem.
    unfold Run, mbind, outcome_bind. rewrite Run_loop_turn.
    unfold step. cbn [m_contract c_Code].
    destruct (acc_Code a1) as [|b rest]; [contradiction|]. reflexivity.
  - intros caller addr value input gas.
    destruct (GetAccount st addr) as [a1 st1]. cbn [fst].
    intros Hcode. unfold Run, mbind, outcome_bind. rewrite Run_loop_turn.
    unfold step. cbn [m_contract c_Code].
    destruct (acc_Code a1) as [|b rest]; [contradiction|]. reflexivity.
  - intros caller addr value input gas.
    destruct (GetAccount st addr) as [a1 st1]. cbn [fst snd].
    intros Hcode. unfold Run, mbind, outcome_bind. rewrite Run_loop_turn.
    unfold step. cbn [m_contract c_Code]. rewrite Hcode. reflexivity.
Qed.

Lemma NewEVM_executes_no_transaction_witness :
  ExecuteTransaction (bc_vm example_chain) (bc_state example_chain) (free_tx (Some 9))
  = Panic Deadlock
  /\ ExecuteTransaction (NewEVM example_config) example_state (example_tx 100000)
     = Panic NilDereference.
Proof.
  split.
  - apply (proj1 (proj2 (NewEVM_executes_no_transaction example_config
                           (bc_state example_chain) (free_tx (Some 9)))) 9 eq_refl).
    vm_compute. reflexivity.
  - apply (proj1 (proj2 (proj2 (NewEVM_executes_no_transaction example_config
                                  example_state (example_tx 100000)))) 7 eq_refl).
    vm_compute. discriminate.
Defined.

(** ** The chain: gas, reads by number and start-up *)

(** *** The gas of a block *)

Lemma computeGasUsed_from (txs : list Transaction) :
  forall total,
    0 <= total < two64 ->
    fold_left (fun total tx => u64_add total (tx_GasLimit tx)) txs total
    = (total + foldr Z.add 0 (tx_GasLimit <$> txs)) mod two64.
Proof.
  induction txs as [|tx txs IH]; intros total Htotal; cbn.
  - rewrite Z.add_0_r, Z.mod_small by exact Htotal. reflexivity.
  - rewrite IH.
    + unfold u64_add. rewrite Zplus_mod_idemp_l. f_equal. lia.
    + unfold u64_add, two64. apply Z.mod_pos_bound. lia.
Qed.

(** X18.  [computeGasUsed] is the sum of the gas limits of the transactions
    modulo 2^64: a 64-bit value, equal to the sum when the sum is below
    2^64. *)
Theorem computeGasUsed_is_the_sum_modulo (txs : list Transaction) :
  let sum := foldr Z.add 0 (tx_GasLimit <$> txs) in
  computeGasUsed txs = sum mod two64
  /\ is_uint64 (computeGasUsed txs)
  /\ (0 <= sum < two64 -> computeGasUsed txs = sum).
Proof.
  intros sum.
  assert (H : computeGasUsed txs = sum mod two64).
  { unfold computeGasUsed. rewrite computeGasUsed_from by (unfold two64; lia).
    reflexivity. }
  split; [exact H|]. split.
  - rewrite H. unfold is_uint64, two64. apply Z.mod_pos_bound. lia.
  - intros Hsum. rewrite H. apply Z.mod_small. exact Hsum.
Qed.

Section ChainReadProperties.

Variable prim : Primitives.

(** *** Blocks by number *)

Lemma GetBlockByNumber_loop_sound (fuel : nat) :
  forall bc currentBlock number block bc',
    GetBlockByNumber_loop prim fuel bc currentBlock number = Some (inl block, bc') ->
    h_Number (b_Header block) = number.
Proof.
  induction fuel as [|fuel IH]; intros bc currentBlock number block bc'; cbn;
    [discriminate|].
  destruct currentBlock as [b|]; [|discriminate].
  destruct (Z.eqb_spec (h_Number (b_Header b)) number) as [Heq|_].
  { intros [= <- <-]. exact Heq. }
  destruct (_ <? _); [discriminate|].
  destruct (GetBlockByHash prim bc _) as [[parent|err] bc1]; [|discriminate].
  apply IH.
Qed.

Lemma GetBlockByNumber_loop_more_fuel (fuel : nat) :
  forall bc currentBlock number r,
    GetBlockByNumber_loop prim fuel bc currentBlock number = Some r ->
    forall fuel', (fuel <= fuel')%nat ->
      GetBlockByNumber_loop prim fuel' bc currentBlock number = Some r.
Proof.
  induction fuel as [|fuel IH]; intros bc currentBlock number r; cbn; [discriminate|].
  intros Hrun [|fuel'] Hle; [lia|]. cbn.
  destruct currentBlock as [b|]; [|exact Hrun].
  destruct (_ =? _); [exact Hrun|].
  destruct (_ <? _); [exact Hrun|].
  destruct (GetBlockByHash prim bc _) as [[parent|err] bc1]; [|exact Hrun].
  apply IH; [exact Hrun|lia].
Qed.

(** X19.  [GetBlockByNumber] walks from the tip along the parent hashes.  A
    block that it returns has the number asked for; more turns of the loop
    do not change a result; with no tip, or a tip whose number is below the
    one asked for, it returns [ErrBlockNotFound]; a tip with that number is
    returned; and from a tip above, it goes to the block cached under the
    tip's parent hash and decides on that block's number in the same way,
    whatever the difference between the two numbers. *)
Theorem GetBlockByNumber_spec (bc : Blockchain) (number : Z) :
  (forall fuel block bc',
     GetBlockByNumber prim fuel bc number = Some (inl block, bc') ->
     h_Number (b_Header block) = number)
  /\ (forall fuel fuel' r,
        GetBlockByNumber prim fuel bc number = Some r -> (fuel <= fuel')%nat ->
        GetBlockByNumber prim fuel' bc number = Some r)
  /\ (forall fuel,
        bc_currentBlock bc = None ->
        GetBlockByNumber prim (S fuel) bc number = Some (inr ErrBlockNotFound, bc))
  /\ (forall fuel tip,
        bc_currentBlock bc = Some tip ->
        (h_Number (b_Header tip) = number ->
         GetBlockByNumber prim (S fuel) bc number = Some (inl tip, bc))
        /\ (h_Number (b_Header tip) < number ->
            GetBlockByNumber prim (S fuel) bc number = Some (inr ErrBlockNotFound, bc))
        /\ (number < h_Number (b_Header tip) ->
            forall parent,
              bc_blockCache bc !! h_ParentHash (b_Header tip) = Some parent ->
              (h_Number (b_Header parent) = number ->
               GetBlockByNumber prim (S (S fuel)) bc number = Some (inl parent, bc))
              /\ (h_Number (b_Header parent) < number ->
                  GetBlockByNumber prim (S (S fuel)) bc number
                  = Some (inr ErrBlockNotFound, bc)))).
Proof.
  unfold GetBlockByNumber. split; [|split; [|split]].
  - intros fuel block bc'. apply GetBlockByNumber_loop_sound.
  - intros fuel fuel' r Hrun Hle. eapply GetBlockByNumber_loop_more_fuel; eassumption.
  - intros fuel ->. reflexivity.
  - intros fuel tip ->. split; [|split].
    + intros Heq. cbn. rewrite (proj2 (Z.eqb_eq _ _) Heq). reflexivity.
    + intros Hlt. cbn.
      destruct (Z.eqb_spec (h_Number (b_Header tip)) number); [lia|].
      destruct (Z.ltb_spec (h_Number (b_Header tip)) number); [reflexivity|lia].
    + intros Hgt parent Hparent.
      assert (Hfirst : forall k,
        GetBlockByNumber_loop prim (S k) bc (Some tip) number
        = GetBlockByNumber_loop prim k bc (Some parent) number).
      { intros k. cbn [GetBlockByNumber_loop].
        destruct (Z.eqb_spec (h_Number (b_Header tip)) number); [lia|].
        destruct (Z.ltb_spec (h_Number (b_Header tip)) number); [lia|].
        unfold GetBlockByHash. rewrite Hparent. reflexivity. }
      rewrite Hfirst. split.
      * intros Heq. cbn. rewrite (proj2 (Z.eqb_eq _ _) Heq). reflexivity.
      * intros Hlt. cbn.
        destruct (Z.eqb_spec (h_Number (b_Header parent)) number); [lia|].
        destruct (Z.ltb_spec (h_Number (b_Header parent)) number); [reflexivity|lia].
Qed.

End ChainReadProperties.

Section Construction.

Variable prim : Primitives.

Lemma length_currentBlock_key : length currentBlock_key = 12%nat.
Proof. reflexivity. Qed.

Lemma Address_Bytes_not_pointer_key (a : Address) : Address_Bytes a <> currentBlock_key.
Proof.
  intros H. apply (f_equal length) in H.
  rewrite length_Address_Bytes, length_currentBlock_key in H. discriminate.
Qed.

Lemma Address_Bytes_not_Hash_Bytes (a : Address) (h : Hash) :
  Address_Bytes a <> Hash_Bytes h.
Proof.
  intros H. apply (f_equal length) in H.
  rewrite length_Address_Bytes, length_Hash_Bytes in H. discriminate.
Qed.

(** X20.  [NewBlockchain] on a store that does not fail and holds no tip
    pointer.  The genesis block has number 0, no transactions and the hash
    of its header.  If the genesis block cannot be serialized,
    [NewBlockchain] fails.  Otherwise it returns a chain whose tip and
    genesis block are that block, with the given configuration and the
    registry of [NewPoS]; the store has gained the block under its hash and
    the hash under the tip pointer, and nothing else; [GetBlockByHash] finds
    the genesis block; and every address without an entry in the store
    reads with balance 0 and nonce 0. *)
Theorem NewBlockchain_on_a_fresh_store (config : Config) (db : DB) (now_unix : Z) :
  let genesis := createGenesisBlock prim config now_unix in
  db_faults db = [] ->
  db_kv db !! currentBlock_key = None ->
  h_Number (b_Header genesis) = 0
  /\ b_Transactions genesis = []
  /\ b_Hash genesis = ComputeHash prim genesis
  /\ (forall err, rlp_EncodeBlock prim genesis = inr err ->
        NewBlockchain prim config db now_unix
        = inr (Errorw "failed to load genesis"
                 (Errorw "failed to write genesis block"
                    (Errorw "failed to serialize block" err))))
  /\ (forall data, rlp_EncodeBlock prim genesis = inl data ->
        exists bc,
          NewBlockchain prim config db now_unix = inl bc
          /\ bc_currentBlock bc = Some genesis
          /\ bc_genesis bc = Some genesis
          /\ bc_config bc = config
          /\ bc_consensus bc = NewPoS (cfg_StakeAmount config) (cfg_ValidatorCount config)
          /\ store bc = <[currentBlock_key := Hash_Bytes (b_Hash genesis)]>
                          (<[Hash_Bytes (b_Hash genesis) := data]> (db_kv db))
          /\ fst (GetBlockByHash prim bc (b_Hash genesis)) = inl genesis
          /\ forall address,
               db_kv db !! Address_Bytes address = None ->
               fst (Blockchain_GetBalance bc address) = 0
               /\ fst (Blockchain_GetNonce bc address) = 0).
Proof.
  intros genesis Hfaults Hfresh.
  split; [reflexivity|]. split; [reflexivity|]. split; [reflexivity|].
  unfold NewBlockchain, loadGenesis, bc_db, NewState. cbn [bc_state s_db].
  rewrite db_Get_reliable by exact Hfaults. rewrite Hfresh.
  cbn [with_db with_state bc_state s_cache bc_config].
  fold genesis. unfold writeBlock, bc_db. cbn [bc_state s_db]. split.
  - intros err ->. reflexivity.
  - intros data ->.
    rewrite db_Put_reliable by exact Hfaults.
    rewrite db_Put_reliable by reflexivity.
    eexists. split; [reflexivity|].
    cbn [bc_currentBlock bc_genesis bc_config bc_consensus with_blockCache with_db
         with_state bc_state bc_vm bc_blockCache bc_txPool store kv s_db db_kv s_cache].
    repeat split.
    + unfold GetBlockByHash. cbn [bc_blockCache]. rewrite lookup_insert_eq. reflexivity.
    + unfold Blockchain_GetBalance, GetAccount. cbn [bc_state s_cache s_db].
      rewrite lookup_empty, db_Get_reliable by reflexivity. cbn [db_kv].
      rewrite lookup_insert_ne by (apply not_eq_sym, Address_Bytes_not_pointer_key).
      rewrite lookup_insert_ne by (apply not_eq_sym, Address_Bytes_not_Hash_Bytes).
      rewrite H. reflexivity.
    + unfold Blockchain_GetNonce, GetAccount. cbn [bc_state s_cache s_db].
      rewrite lookup_empty, db_Get_reliable by reflexivity. cbn [db_kv].
      rewrite lookup_insert_ne by (apply not_eq_sym, Address_Bytes_not_pointer_key).
      rewrite lookup_insert_ne by (apply not_eq_sym, Address_Bytes_not_Hash_Bytes).
      rewrite H. reflexivity.
Qed.


End Construction.

Lemma NewBlockchain_on_a_fresh_store_witness :
  exists bc,
    NewBlockchain example_primitives example_config (mkDB ∅ []) 1700000000 = inl bc
    /\ bc_currentBlock bc
       = Some (createGenesisBlock example_primitives example_config 1700000000)
    /\ h_Number (b_Header (createGenesisBlock example_primitives example_config
                             1700000000)) = 0
    /\ fst (Blockchain_GetBalance bc 5) = 0.
Proof.
  destruct (NewBlockchain_on_a_fresh_store example_primitives example_config
              (mkDB ∅ []) 1700000000 eq_refl (lookup_empty _))
    as (Hnumber & _ & _ & _ & H).
  destruct (H _ eq_refl) as (bc & Hnew & Htip & _ & _ & _ & _ & _ & Hbalance).
  exists bc. split; [exact Hnew|]. split; [exact Htip|]. split; [exact Hnumber|].
  apply Hbalance. apply lookup_empty.
Defined.


(** ** The chain: the transactions of a block *)

Section BlockValidation.

Variable prim : Primitives.

Lemma ValidateTransaction_valid_against (bc : Blockchain) (tx : Transaction) :
  reliable (bc_state bc) ->
  same_accounts bc (snd (ValidateTransaction prim bc tx))
  /\ (fst (ValidateTransaction prim bc tx) = None
      <-> valid_against prim (bc_config bc) (bc_state bc) tx).
Proof.
  intros Hrel. unfold ValidateTransaction, valid_against, same_accounts.
  destruct (VerifySignature prim _ _ _ _ _) as [err|].
  { cbn. split; [auto|]. split; [discriminate|]. intros [H _]. discriminate. }
  destruct (GetAccount_reliable (bc_state bc) (tx_From tx) Hrel) as (Hfst & Hrel' & Hsame).
  destruct (GetAccount (bc_state bc) (tx_From tx)) as [account st]. cbn in Hfst, Hrel', Hsame.
  subst account.
  destruct (Z.eqb_spec (tx_Nonce tx) (acc_Nonce (account_of (bc_state bc) (tx_From tx))))
    as [Hn|Hn]; cbn [negb].
  2: { cbn. split; [auto|]. split; [discriminate|]. tauto. }
  destruct (Z.ltb_spec (acc_Balance (account_of (bc_state bc) (tx_From tx)))
              (tx_GasPrice tx * int64_of_uint64 (tx_GasLimit tx) + tx_Value tx)) as [Hb|Hb].
  { cbn. split; [auto|]. split; [discriminate|]. intros (_ & _ & H & _). lia. }
  destruct (Z.ltb_spec (tx_GasPrice tx) (cfg_MinGasPrice (bc_config bc))) as [Hg|Hg].
  { cbn. split; [auto|]. split; [discriminate|]. intros (_ & _ & _ & H). lia. }
  cbn. split; [auto|]. split; [|reflexivity]. auto.
Qed.

Lemma valid_against_same (bc bc' : Blockchain) (tx : Transaction) :
  same_accounts bc bc' ->
  valid_against prim (bc_config bc') (bc_state bc') tx
  <-> valid_against prim (bc_config bc) (bc_state bc) tx.
Proof.
  intros (_ & Hc & Ha). unfold valid_against. rewrite Hc, !Ha. reflexivity.
Qed.

Lemma same_accounts_chain (bc1 bc2 bc3 : Blockchain) :
  same_accounts bc1 bc2 -> same_accounts bc2 bc3 -> same_accounts bc1 bc3.
Proof.
  intros (_ & Hc & Ha) (Hrel & Hc' & Ha'). split; [exact Hrel|]. split; [congruence|].
  intros addr. rewrite Ha'. apply Ha.
Qed.

Lemma validate_transactions_valid_against (txs : list Transaction) :
  forall bc,
    reliable (bc_state bc) ->
    same_accounts bc (snd (validate_transactions prim bc txs))
    /\ (fst (validate_transactions prim bc txs) = None
        <-> Forall (valid_against prim (bc_config bc) (bc_state bc)) txs).
Proof.
  induction txs as [|tx txs IH]; intros bc Hrel; cbn [validate_transactions].
  - split; [split; [exact Hrel|split; reflexivity]|]. split; [constructor|reflexivity].
  - destruct (ValidateTransaction_valid_against bc tx Hrel) as [Hsame Hvalid].
    destruct (ValidateTransaction prim bc tx) as [[err|] bc1]; cbn [fst snd] in *.
    + split; [exact Hsame|]. split; [discriminate|].
      intros H. apply Forall_cons in H as [H _]. apply Hvalid in H. discriminate.
    + destruct (IH bc1 (proj1 Hsame)) as [Hsame' Hrest].
      split; [exact (same_accounts_chain _ _ _ Hsame Hsame')|].
      rewrite Hrest, Forall_cons. split.
      * intros H. split; [apply Hvalid; reflexivity|].
        eapply Forall_impl; [exact H|]. intros tx'.
        apply (proj1 (valid_against_same bc bc1 tx' Hsame)).
      * intros [_ H]. eapply Forall_impl; [exact H|]. intros tx'.
        apply (proj2 (valid_against_same bc bc1 tx' Hsame)).
Qed.

Lemma GetBlockByHash_same_accounts (bc : Blockchain) (hash : Hash) :
  reliable (bc_state bc) ->
  same_accounts bc (snd (GetBlockByHash prim bc hash)).
Proof.
  intros Hrel. unfold GetBlockByHash.
  destruct (bc_blockCache bc !! hash); [split; [exact Hrel|split; reflexivity]|].
  unfold bc_db. rewrite db_Get_reliable by exact Hrel.
  assert (Hdb : same_accounts bc (with_db bc (s_db (bc_state bc)))).
  { split; [exact Hrel|]. split; reflexivity. }
  destruct (db_kv (s_db (bc_state bc)) !! Hash_Bytes hash) as [data|]; [|exact Hdb].
  destruct (rlp_DecodeBlock prim data); exact Hdb.
Qed.

(** X22.  [ValidateBlock] checks every transaction of the block against the
    accounts as they are before the block.  When the store does not fail and
    [ValidateBlock] accepts a block, each of its transactions has a
    verifying signature, the nonce of its sender as it is before the block,
    a cost (gas price times gas limit, plus value) within the balance of its
    sender before the block, and a gas price of at least the minimum; so two
    transactions of one sender in an accepted block carry the same nonce,
    and their costs are not added up.  Validation leaves every account as it
    was. *)
Theorem ValidateBlock_checks_against_the_state_before
    (bc : Blockchain) (order : list Z) (randBytes : list byte) (block : Block)
    (bc' : Blockchain) :
  reliable (bc_state bc) ->
  ValidateBlock prim bc order randBytes block = Ret (None, bc') ->
  Forall (valid_against prim (bc_config bc) (bc_state bc)) (b_Transactions block)
  /\ (forall tx1 tx2,
        tx1 ∈ b_Transactions block -> tx2 ∈ b_Transactions block ->
        tx_From tx1 = tx_From tx2 -> tx_Nonce tx1 = tx_Nonce tx2)
  /\ forall addr, account_of (bc_state bc') addr = account_of (bc_state bc) addr.
Proof.
  intros Hrel Hrun.
  assert (H : Forall (valid_against prim (bc_config bc) (bc_state bc)) (b_Transactions block)
              /\ same_accounts bc bc').
  { unfold ValidateBlock in Hrun.
    destruct (negb _); [discriminate|].
    assert (Hparent : forall b : bool,
              same_accounts bc
                (snd (if b
                      then match GetBlockByHash prim bc (h_ParentHash (b_Header block)) with
                           | (inr e, bc0) => (Some e, bc0)
                           | (inl _, bc0) => (None, bc0)
                           end
                      else (None, bc)))).
    { intros [|]; [|split; [exact Hrel|split; reflexivity]].
      pose proof (GetBlockByHash_same_accounts bc (h_ParentHash (b_Header block)) Hrel) as H.
      destruct (GetBlockByHash prim bc _) as [[?|?] bc0]; exact H. }
    specialize (Hparent (0 <? h_Number (b_Header block))).
    destruct (if 0 <? h_Number (b_Header block) then _ else _) as [parentErr bc1].
    cbn [snd] in Hparent.
    destruct parentErr; [discriminate|].
    unfold mbind, outcome_bind in Hrun.
    destruct (PoS_ValidateBlock prim _ _ _ _) as [[e|]|p]; try discriminate.
    destruct (validate_transactions_valid_against (b_Transactions block) bc1
                (proj1 Hparent)) as [Hsame Hvalid].
    destruct (validate_transactions prim bc1 (b_Transactions block)) as [e bc2].
    injection Hrun as -> <-. cbn [fst snd] in *.
    split; [|exact (same_accounts_chain _ _ _ Hparent Hsame)].
    eapply Forall_impl; [apply Hvalid; reflexivity|].
    intros tx. apply (proj1 (valid_against_same bc bc1 tx Hparent)). }
  destruct H as [Hvalid (_ & _ & Hsame)].
  split; [exact Hvalid|]. split; [|exact Hsame].
  intros tx1 tx2 H1 H2 Hfrom. rewrite Forall_forall in Hvalid.
  destruct (Hvalid tx1 H1) as (_ & -> & _), (Hvalid tx2 H2) as (_ & -> & _).
  rewrite Hfrom. reflexivity.
Qed.

End BlockValidation.

Lemma ValidateBlock_checks_against_the_state_before_witness :
  exists bc',
    ValidateBlock example_primitives idle_chain [21] (repeat xff 32)
      twice_calling_block = Ret (None, bc')
    /\ Forall (valid_against example_primitives (bc_config idle_chain)
                 (bc_state idle_chain))
         (b_Transactions twice_calling_block)
    /\ (forall tx1 tx2,
          tx1 ∈ b_Transactions twice_calling_block ->
          tx2 ∈ b_Transactions twice_calling_block ->
          tx_From tx1 = tx_From tx2 -> tx_Nonce tx1 = tx_Nonce tx2)
    /\ forall addr, account_of (bc_state bc') addr
                    = account_of (bc_state idle_chain) addr.
Proof.
  eassert (Hrun : ValidateBlock example_primitives idle_chain [21] (repeat xff 32)
                    twice_calling_block = Ret (None, _)) by (vm_compute; reflexivity).
  eexists. split; [exact Hrun|].
  exact (ValidateBlock_checks_against_the_state_before example_primitives _ _ _ _ _
           idle_chain_reliable Hrun).
Defined.

(** *** The transactions of a block, one after the other *)

Lemma with_state_same (bc : Blockchain) : with_state bc (bc_state bc) = bc.
Proof. destruct bc. reflexivity. Qed.

(** X23.  [ExecuteTransactions] gets no further than the first transaction.
    On an empty list it returns no receipts and leaves the chain as it is,
    and that is the only way in which it returns receipts.  When it returns
    on a list that starts with [tx], [ExecuteTransaction] of [tx] has
    returned, with an error: the result is that error, wrapped, the
    transactions after [tx] have not been executed, the store holds what it
    held and, when the store does not fail, every account reads as it did
    before.  When [ExecuteTransaction] of [tx] does not return, neither
    does [ExecuteTransactions]. *)
Theorem ExecuteTransactions_spec (bc : Blockchain) (txs : list Transaction) :
  (txs = [] -> ExecuteTransactions bc txs = Ret (inl [], bc))
  /\ (forall r bc',
        ExecuteTransactions bc txs = Ret (r, bc') ->
        match r with
        | inl receipts => txs = [] /\ receipts = [] /\ bc' = bc
        | inr err =>
            exists tx rest receipt e,
              txs = tx :: rest
              /\ ExecuteTransaction (bc_vm bc) (bc_state bc) tx
                 = Ret (receipt, Some e, bc_state bc')
              /\ err = Errorw "failed to execute transaction %s" e
              /\ store bc' = store bc
              /\ (reliable (bc_state bc) ->
                  forall addr,
                    fst (GetAccount (bc_state bc') addr)
                    = fst (GetAccount (bc_state bc) addr))
        end)
  /\ (forall tx rest p,
        txs = tx :: rest ->
        ExecuteTransaction (bc_vm bc) (bc_state bc) tx = Panic p ->
        ExecuteTransactions bc txs = Panic p).
Proof.
  split; [|split].
  - intros ->. unfold ExecuteTransactions. cbn. rewrite with_state_same. reflexivity.
  - intros r bc' Hrun. unfold ExecuteTransactions, mbind, outcome_bind in Hrun.
    destruct (ExecuteTransactions_loop _ _ _ _) as [[r0 st]|p] eqn:Hloop; [|discriminate].
    injection Hrun as <- <-.
    destruct r0 as [receipts|err].
    + apply ExecuteTransactions_loop_receipts in Hloop as (-> & -> & ->).
      rewrite with_state_same. auto.
    + destruct txs as [|tx rest]; [discriminate|].
      cbn [ExecuteTransactions_loop] in Hloop. unfold mbind, outcome_bind in Hloop.
      destruct (ExecuteTransaction (bc_vm bc) (bc_state bc) tx)
        as [[[receipt e] st1]|p] eqn:Hex; [|discriminate].
      destruct (ExecuteTransaction_returns _ _ _ _ _ _ Hex) as (to & e' & g & _ & -> & _).
      injection Hloop as <- <-.
      exists tx, rest, receipt, e'. cbn [bc_state with_state].
      split; [reflexivity|]. split; [exact Hex|]. split; [reflexivity|].
      split; [exact (ExecuteTransaction_kv _ _ _ _ _ _ Hex)|].
      intros Hrel addr.
      destruct (ExecuteTransaction_accounts _ _ _ _ _ _ Hrel Hex) as [Hrel1 Hacc].
      rewrite (proj1 (GetAccount_reliable _ addr Hrel)).
      rewrite (proj1 (GetAccount_reliable _ addr Hrel1)). apply Hacc.
  - intros tx rest p -> Hex. unfold ExecuteTransactions. cbn [ExecuteTransactions_loop].
    unfold mbind, outcome_bind. rewrite Hex. reflexivity.
Qed.

Lemma ExecuteTransactions_spec_witness :
  exists bc',
    ExecuteTransactions idle_chain [example_tx 10; example_tx 100000]
    = Ret (inr (Errorw "failed to execute transaction %s" (Errorf "out of gas")), bc')
    /\ store bc' = store idle_chain
    /\ fst (GetAccount (bc_state bc') 5) = fst (GetAccount (bc_state idle_chain) 5).
Proof.
  eassert (Hrun : ExecuteTransactions idle_chain [example_tx 10; example_tx 100000]
                  = Ret (inr _, _)) by (vm_compute; reflexivity).
  destruct (ExecuteTransactions_spec idle_chain [example_tx 10; example_tx 100000])
    as (_ & Hreturns & _).
  destruct (Hreturns _ _ Hrun) as (tx & rest & receipt & e & _ & _ & _ & Hstore & Hacc).
  eexists. split; [exact Hrun|]. split; [exact Hstore|].
  apply Hacc. exact idle_chain_reliable.
Defined.

Section Replay.

Variable prim : Primitives.

(** X12.  No transaction is used up.  When the store does not fail and
    [ExecuteTransaction] returns, [ValidateTransaction] accepts afterwards
    exactly the transactions that it accepted before: no nonce has advanced
    and no balance has moved.  So the transaction that has just failed is
    accepted again when it was accepted before. *)
Theorem failed_transaction_stays_valid
    (bc : Blockchain) (tx : Transaction) (receipt : Receipt) (err : option error)
    (st' : State) :
  reliable (bc_state bc) ->
  ExecuteTransaction (bc_vm bc) (bc_state bc) tx = Ret (receipt, err, st') ->
  forall tx',
    fst (ValidateTransaction prim (with_state bc st') tx') = None
    <-> fst (ValidateTransaction prim bc tx') = None.
Proof.
  intros Hrel Hex tx'.
  destruct (ExecuteTransaction_accounts _ _ _ _ _ _ Hrel Hex) as [Hrel' Hacc].
  rewrite (proj2 (ValidateTransaction_valid_against prim bc tx' Hrel)).
  rewrite (proj2 (ValidateTransaction_valid_against prim (with_state bc st') tx' Hrel')).
  unfold valid_against. cbn [bc_state bc_config with_state]. rewrite !Hacc.
  reflexivity.
Qed.

End Replay.

Lemma failed_transaction_stays_valid_witness :
  exists receipt st',
    fst (ValidateTransaction example_primitives idle_chain (example_tx 10)) = None
    /\ ExecuteTransaction (bc_vm idle_chain) (bc_state idle_chain) (example_tx 10)
       = Ret (receipt, Some (Errorf "out of gas"), st')
    /\ fst (ValidateTransaction example_primitives (with_state idle_chain st')
              (example_tx 10)) = None.
Proof.
  eassert (Hex : ExecuteTransaction (bc_vm idle_chain) (bc_state idle_chain)
                   (example_tx 10)
                 = Ret (_, Some (Errorf "out of gas"), _)) by (vm_compute; reflexivity).
  assert (Hvalid : fst (ValidateTransaction example_primitives idle_chain (example_tx 10))
                   = None) by (vm_compute; reflexivity).
  eexists _, _. split; [exact Hvalid|]. split; [exact Hex|].
  apply (failed_transaction_stays_valid example_primitives idle_chain (example_tx 10)
           _ _ _ idle_chain_reliable Hex (example_tx 10)).
  exact Hvalid.
Defined.

(** *** The blocks that the node makes itself *)

Section OwnBlocks.

Variable prim : Primitives.

Lemma ProcessBlock_accept_validated
    (bc : Blockchain) (now : Z) (order : list Z) (randBytes : list byte)
    (block : Block) (bc' : Blockchain) :
  ProcessBlock prim bc now order randBytes block = Ret (None, bc') ->
  exists bc1, ValidateBlock prim bc order randBytes block = Ret (None, bc1).
Proof.
  unfold ProcessBlock, mbind, outcome_bind.
  destruct (ValidateBlock prim bc order randBytes block) as [[[err|] bc1]|p];
    try discriminate.
  intros _. eauto.
Qed.

(** X24.  The block that [CreateBlock] returns carries the given
    transactions and the hash of its header, and its signature is the one
    that [SignBlock] made over the hash of the header before the signature
    was put into it.  [ValidateBlock] of the consensus engine verifies the
    signature against the hash of the header as it is, signature included.
    So, when signatures verify only against the hash they were made over and
    the two hashes differ, no registry accepts the block and [ProcessBlock]
    on any node rejects it. *)
Theorem created_block_fails_its_own_signature_check
    (bc : Blockchain) (now_unix : Z) (entropy : list byte) (txs : list Transaction)
    (b : Block) :
  CreateBlock prim bc now_unix entropy txs = Ret (inl b) ->
  b_Transactions b = txs
  /\ b_Hash b = ComputeHash prim b
  /\ (exists privateKey,
        pos_privateKey (bc_consensus bc) = Some privateKey
        /\ ecdsa_SignASN1 prim entropy privateKey
             (Hash_Bytes (ComputeHash prim (unsigned b)))
           = inl (h_Signature (b_Header b)))
  /\ (signatures_bind prim ->
      Hash_Bytes (ComputeHash prim b) <> Hash_Bytes (ComputeHash prim (unsigned b)) ->
      forall bc0 now order randBytes,
        PoS_ValidateBlock prim (bc_consensus bc0) order randBytes b <> Ret None
        /\ forall bc', ProcessBlock prim bc0 now order randBytes b <> Ret (None, bc')).
Proof.
  unfold CreateBlock, mbind, outcome_bind.
  destruct (bc_currentBlock bc) as [parent|]; [|discriminate].
  unfold SignBlock.
  destruct (pos_privateKey (bc_consensus bc)) as [privateKey|] eqn:Hkey; [|discriminate].
  match goal with
  | |- context [ecdsa_SignASN1 prim entropy privateKey ?h] =>
      destruct (ecdsa_SignASN1 prim entropy privateKey h) as [signature|e] eqn:Hsign
  end; [|discriminate].
  intros [= <-]. cbn [b_Transactions b_Hash b_Header h_Signature].
  split; [reflexivity|]. split; [reflexivity|].
  split; [exists privateKey; split; [reflexivity|exact Hsign]|].
  intros Hbind Hdiff bc0 now order randBytes.
  match goal with |- ?P /\ _ => assert (Hcons : P) end.
  { unfold PoS_ValidateBlock.
    destruct (negb _); [discriminate|].
    destruct (_ =? 0); [discriminate|].
    destruct (pos_validators (bc_consensus bc0) !! _) as [validator|]; [|discriminate].
    destruct (v_PublicKey validator) as [publicKey|]; [|discriminate].
    destruct (ecdsa_VerifyASN1 prim publicKey _ _) eqn:Hverify; [|discriminate].
    exfalso. apply Hdiff. symmetry.
    exact (Hbind _ _ _ Hverify _ _ _ Hsign). }
  split; [exact Hcons|].
  intros bc' Hrun.
  destruct (ProcessBlock_accept_validated _ _ _ _ _ _ Hrun) as [bc1 Hval].
  destruct (ValidateBlock_accepts prim _ _ _ _ _ Hval) as (_ & _ & H).
  exact (Hcons H).
Qed.

End OwnBlocks.

Lemma binding_primitives_bind : signatures_bind binding_primitives.
Proof.
  intros publicKey hash signature Hverify entropy privateKey hash' Hsign.
  cbn in Hverify, Hsign. apply bool_decide_eq_true in Hverify.
  injection Hsign as Hsign. rewrite Hverify in Hsign.
  apply app_inv_tail in Hsign. exact Hsign.
Qed.

Lemma created_block_fails_its_own_signature_check_witness :
  exists b,
    CreateBlock binding_primitives signing_chain 1700000006 [] [] = Ret (inl b)
    /\ forall bc0 now order randBytes,
         PoS_ValidateBlock binding_primitives (bc_consensus bc0) order randBytes b
         <> Ret None
         /\ forall bc', ProcessBlock binding_primitives bc0 now order randBytes b
                        <> Ret (None, bc').
Proof.
  eassert (Hmake : CreateBlock binding_primitives signing_chain 1700000006 [] []
                   = Ret (inl _)) by (vm_compute; reflexivity).
  eexists. split; [exact Hmake|].
  destruct (created_block_fails_its_own_signature_check binding_primitives _ _ _ _ _ Hmake)
    as (_ & _ & _ & H).
  apply H; [exact binding_primitives_bind|].
  vm_compute. discriminate.
Defined.

(** ** Package [crypto] and the text forms of [core] *)

(** X25.  [ValidateSignatureValues] accepts exactly the signature values
    with [r] and [s] from 1 to the order of the curve minus one, [v] equal
    to 0 or 27 and, under the homestead rules, [s] at most half the order.
    Under the homestead rules it never accepts both [s] and the order minus
    [s]; without them it accepts the order minus [s] whenever it accepts
    [s]. *)
Theorem ValidateSignatureValues_spec (v : byte) (r s : Z) (homestead : bool) :
  (ValidateSignatureValues v r s homestead = true <->
     1 <= r < secp256k1N
     /\ 1 <= s < secp256k1N
     /\ (v = x00 \/ v = x1b)
     /\ (homestead = true -> s <= secp256k1HalfN))
  /\ (ValidateSignatureValues v r s true = true ->
      forall v', ValidateSignatureValues v' r (secp256k1N - s) true = false)
  /\ (ValidateSignatureValues v r s false = true ->
      ValidateSignatureValues v r (secp256k1N - s) false = true).
Proof.
  assert (Hv : forall b : byte,
            negb (Z_of_byte b =? 0) && negb (Z_of_byte b =? 27) = false
            <-> (b = x00 \/ b = x1b)).
  { intros b. split.
    - destruct b; vm_compute; intros H; solve [discriminate | auto].
    - intros [->| ->]; reflexivity. }
  assert (Hiff : forall v0 r0 s0 h,
            ValidateSignatureValues v0 r0 s0 h = true <->
            1 <= r0 < secp256k1N
            /\ 1 <= s0 < secp256k1N
            /\ (v0 = x00 \/ v0 = x1b)
            /\ (h = true -> s0 <= secp256k1HalfN)).
  { intros v0 r0 s0 h. unfold ValidateSignatureValues.
    destruct (Z.ltb_spec r0 1), (Z.ltb_spec s0 1); cbn [orb];
      try (split; [discriminate|intros (? & ? & _); lia]).
    destruct h; cbn [andb].
    - destruct (Z.ltb_spec secp256k1HalfN s0).
      + split; [discriminate|]. intros (_ & _ & _ & Hs). specialize (Hs eq_refl). lia.
      + destruct (negb (Z_of_byte v0 =? 0) && negb (Z_of_byte v0 =? 27)) eqn:Hvv.
        * split; [discriminate|]. intros (_ & _ & Hvs & _).
          apply Hv in Hvs. congruence.
        * apply Hv in Hvv.
          destruct (Z.ltb_spec r0 secp256k1N), (Z.ltb_spec s0 secp256k1N); cbn [andb];
            split; try discriminate; try (intros (? & ? & _); lia).
          intros _. repeat split; try lia; try assumption.
    - destruct (negb (Z_of_byte v0 =? 0) && negb (Z_of_byte v0 =? 27)) eqn:Hvv.
      + split; [discriminate|]. intros (_ & _ & Hvs & _).
        apply Hv in Hvs. congruence.
      + apply Hv in Hvv.
        destruct (Z.ltb_spec r0 secp256k1N), (Z.ltb_spec s0 secp256k1N); cbn [andb];
          split; try discriminate; try (intros (? & ? & _); lia).
        intros _. repeat split; try lia; try assumption; discriminate. }
  split; [apply Hiff|]. split.
  - intros Hvalid v'. apply Hiff in Hvalid as (Hr & Hs & _ & Hh).
    specialize (Hh eq_refl).
    destruct (ValidateSignatureValues v' r (secp256k1N - s) true) eqn:H'; [|reflexivity].
    apply Hiff in H' as (_ & _ & _ & Hh'). specialize (Hh' eq_refl).
    exfalso.
    let h := eval vm_compute in secp256k1HalfN in change secp256k1HalfN with h in *.
    unfold secp256k1N in *. lia.
  - intros Hvalid. apply Hiff in Hvalid as (Hr & Hs & Hvv & _).
    apply Hiff. repeat split; try lia; try assumption; discriminate.
Qed.

(** *** Byte arrays as numbers *)

Lemma byte_of_Z_of_byte (b : byte) : byte_of_Z (Z_of_byte b) = b.
Proof.
  unfold byte_of_Z, Z_of_byte. pose proof (Byte.to_N_bounded b) as Hb.
  rewrite Z.mod_small by lia. rewrite N2Z.id, Byte.of_to_N. reflexivity.
Qed.

Lemma byte_of_Z_mod (z : Z) : byte_of_Z (z mod 256) = byte_of_Z z.
Proof. unfold byte_of_Z. rewrite Z.mod_mod by lia. reflexivity. Qed.

Lemma fixed_bytes_S (w : nat) (x : Z) :
  fixed_bytes (S w) x = fixed_bytes w (x / 256) ++ [byte_of_Z x].
Proof. reflexivity. Qed.

Lemma fixed_bytes_zero (w : nat) : fixed_bytes w 0 = repeat x00 w.
Proof.
  induction w as [|w IH]; [reflexivity|].
  rewrite fixed_bytes_S. change (0 / 256) with 0. rewrite IH.
  change (byte_of_Z 0) with x00. symmetry. apply repeat_cons.
Qed.

Lemma fixed_bytes_mod (w : nat) : forall x, fixed_bytes w (x mod 256 ^ Z.of_nat w) = fixed_bytes w x.
Proof.
  induction w as [|w IH]; intros x; [reflexivity|].
  rewrite !fixed_bytes_S.
  assert (Hpow : 256 ^ Z.of_nat (S w) = 256 * 256 ^ Z.of_nat w).
  { rewrite Nat2Z.inj_succ, Z.pow_succ_r by lia. reflexivity. }
  assert (Hpos : 0 < 256 ^ Z.of_nat w) by (apply Z.pow_pos_nonneg; lia).
  rewrite Hpow. f_equal.
  - rewrite Z.rem_mul_r by lia.
    replace (x mod 256 + 256 * ((x / 256) mod 256 ^ Z.of_nat w))
      with ((x / 256) mod 256 ^ Z.of_nat w * 256 + x mod 256) by lia.
    rewrite Z.div_add_l by lia. rewrite (Z.div_small (x mod 256)).
    + rewrite Z.add_0_r. apply IH.
    + apply Z.mod_pos_bound. lia.
  - f_equal.
    assert (H : (x mod (256 * 256 ^ Z.of_nat w)) mod 256 = x mod 256).
    { apply Z.mod_mod_divide. exists (256 ^ Z.of_nat w). lia. }
    rewrite <- (byte_of_Z_mod (x mod (256 * 256 ^ Z.of_nat w))), H.
    apply byte_of_Z_mod.
Qed.

Lemma fixed_bytes_SetBytes (w : nat) :
  forall b : list byte,
    fixed_bytes w (big_SetBytes b)
    = if decide (length b <= w)%nat
      then repeat x00 (w - length b) ++ b
      else drop (length b - w) b.
Proof.
  induction w as [|w IH]; intros b.
  - cbn. destruct (decide (length b <= 0)%nat) as [Hle|Hgt].
    + destruct b; [reflexivity|cbn in Hle; lia].
    + rewrite Nat.sub_0_r, drop_all. reflexivity.
  - destruct b as [|c b _] using rev_ind.
    + change (big_SetBytes []) with 0. rewrite fixed_bytes_zero.
      cbn [length]. rewrite decide_True by lia. rewrite app_nil_r. f_equal.
    + rewrite fixed_bytes_S, big_SetBytes_snoc.
      pose proof (Z_of_byte_range c) as Hc.
      rewrite Z.div_add_l by lia. rewrite Z.div_small by lia. rewrite Z.add_0_r.
      rewrite IH.
      replace (byte_of_Z (big_SetBytes b * 256 + Z_of_byte c)) with c.
      2:{ rewrite <- byte_of_Z_mod, Z.add_comm, Z.mod_add by lia.
          rewrite byte_of_Z_mod. symmetry. apply byte_of_Z_of_byte. }
      rewrite length_app. cbn [length].
      destruct (decide (length b <= w)%nat) as [Hle|Hgt].
      * rewrite decide_True by lia. rewrite <- app_assoc. do 2 f_equal. lia.
      * rewrite decide_False by lia.
        replace (length b + 1 - S w)%nat with (length b - w)%nat by lia.
        rewrite drop_app_le by lia. reflexivity.
Qed.

(** X26.  [BytesToHash] and [BytesToAddress] byte by byte: a slice of at
    most 32 (20) bytes is padded with zero bytes on the left, a longer one
    loses all but its last 32 (20) bytes.  The result always has 32 (20)
    bytes, [BytesToHash] of the bytes of a hash gives the hash back, and
    [HashToBig] of the result is the number that the slice spells, modulo
    2^256. *)
Theorem BytesToHash_keeps_the_last_32_bytes (b : list byte) :
  Hash_Bytes (BytesToHash b)
  = (if decide (length b <= 32)%nat
     then repeat x00 (32 - length b) ++ b
     else drop (length b - 32) b)
  /\ Address_Bytes (BytesToAddress b)
     = (if decide (length b <= 20)%nat
        then repeat x00 (20 - length b) ++ b
        else drop (length b - 20) b)
  /\ length (Hash_Bytes (BytesToHash b)) = 32%nat
  /\ length (Address_Bytes (BytesToAddress b)) = 20%nat
  /\ BytesToHash (Hash_Bytes (BytesToHash b)) = BytesToHash b
  /\ HashToBig (BytesToHash b) = big_SetBytes b mod 2 ^ 256.
Proof.
  unfold BytesToHash, BytesToAddress, Hash_Bytes, Address_Bytes, HashToBig.
  change (2 ^ 256) with (256 ^ Z.of_nat 32). change (2 ^ 160) with (256 ^ Z.of_nat 20).
  rewrite !fixed_bytes_mod, !fixed_bytes_SetBytes.
  repeat split.
  - destruct (decide (length b <= 32)%nat).
    + rewrite length_app, repeat_length. lia.
    + rewrite length_drop. lia.
  - destruct (decide (length b <= 20)%nat).
    + rewrite length_app, repeat_length. lia.
    + rewrite length_drop. lia.
  - rewrite <- (fixed_bytes_SetBytes 32 b), big_SetBytes_fixed_bytes.
    apply Z.mod_mod. lia.
Qed.

Lemma hex_digits_of_byte (v : byte) :
  match fromHexChar (hexdigit (Z.shiftr (Z_of_byte v) 4)),
        fromHexChar (hexdigit (Z.land (Z_of_byte v) 0x0f)) with
  | Some a, Some b => byte_of_Z (Z.lor (Z.shiftl a 4) b) = v
  | _, _ => False
  end.
Proof. destruct v; vm_compute; reflexivity. Qed.

Lemma hex_decoded_EncodeToString (src : list byte) :
  hex_decoded (hex_EncodeToString src) = src.
Proof.
  induction src as [|v src IH]; [reflexivity|].
  change (hex_EncodeToString (v :: src))
    with (hexdigit (Z.shiftr (Z_of_byte v) 4)
          :: hexdigit (Z.land (Z_of_byte v) 0x0f) :: hex_EncodeToString src).
  cbn [hex_decoded]. pose proof (hex_digits_of_byte v) as Hv.
  destruct (fromHexChar (hexdigit (Z.shiftr (Z_of_byte v) 4))) as [a|]; [|contradiction].
  destruct (fromHexChar (hexdigit (Z.land (Z_of_byte v) 0x0f))) as [b|]; [|contradiction].
  rewrite Hv, IH. reflexivity.
Qed.

Lemma length_hex_EncodeToString (src : list byte) :
  length (hex_EncodeToString src) = (2 * length src)%nat.
Proof.
  induction src as [|v src IH]; [reflexivity|].
  change (hex_EncodeToString (v :: src))
    with (hexdigit (Z.shiftr (Z_of_byte v) 4)
          :: hexdigit (Z.land (Z_of_byte v) 0x0f) :: hex_EncodeToString src).
  cbn [length]. rewrite IH. lia.
Qed.

Lemma strip_0x_prefixed (s : list byte) :
  strip_0x (list_byte_of_string "0x" ++ s) = s.
Proof.
  unfold strip_0x. change (list_byte_of_string "0x") with [x30; x78].
  cbn [app take drop]. unfold len. cbn [length].
  rewrite bool_decide_true by reflexivity.
  destruct (Z.leb_spec 2 (Z.of_nat (S (S (length s))))); [reflexivity|lia].
Qed.

Lemma hex_Decode_EncodeToString (src : list byte) :
  hex_Decode (repeat x00 (length src)) (hex_EncodeToString src) = src.
Proof.
  unfold hex_Decode. rewrite hex_decoded_EncodeToString.
  rewrite drop_ge by (rewrite repeat_length; lia). apply app_nil_r.
Qed.

Lemma length_hex_decoded (n : nat) :
  forall src, (length src <= n)%nat -> (2 * length (hex_decoded src) <= length src)%nat.
Proof.
  induction n as [|n IH]; intros src Hn.
  - destruct src; [cbn; lia|cbn in Hn; lia].
  - destruct src as [|p [|q rest]]; cbn [hex_decoded length]; try lia.
    destruct (fromHexChar p); [|cbn; lia].
    destruct (fromHexChar q); [|cbn; lia].
    cbn [length]. cbn [length] in Hn.
    assert (H : (2 * length (hex_decoded rest) <= length rest)%nat)
      by (apply IH; lia).
    lia.
Qed.

Lemma drop_repeat {A : Type} (x : A) (n m : nat) :
  drop n (repeat x m) = repeat x (m - n).
Proof.
  revert m. induction n as [|n IH]; intros m.
  - rewrite Nat.sub_0_r. reflexivity.
  - destruct m as [|m]; [reflexivity|]. cbn. apply IH.
Qed.

Lemma fixed_bytes_SetBytes_id (w : nat) (b : list byte) :
  length b = w -> fixed_bytes w (big_SetBytes b) = b.
Proof.
  intros Hb. rewrite fixed_bytes_SetBytes. rewrite decide_True by lia.
  rewrite Hb, Nat.sub_diag. reflexivity.
Qed.

(** X27.  Addresses and hashes as text.  [HexToAddress] of [Address.Hex] of an
    address is that address, and likewise for hashes.  [HexToAddress] of a
    text that, after an optional [0x], does not have 40 characters is the
    zero address (64 characters and the zero hash for [HexToHash]).  On 40
    characters, the bytes of the address are the bytes decoded up to the
    first character that is not a hexadecimal digit, followed by zero
    bytes.  The address of the test suite decodes to the number that it
    spells. *)
Theorem Hex_round_trip :
  (forall a, 0 <= a < 2 ^ 160 -> HexToAddress (Address_Hex a) = a)
  /\ (forall h, 0 <= h < 2 ^ 256 -> HexToHash (Hash_Hex h) = h)
  /\ (forall s, len (strip_0x s) <> 40 -> HexToAddress s = 0)
  /\ (forall s, len (strip_0x s) <> 64 -> HexToHash s = 0)
  /\ (forall s, len (strip_0x s) = 40 ->
        Address_Bytes (HexToAddress s)
        = hex_decoded (strip_0x s)
          ++ repeat x00 (20 - length (hex_decoded (strip_0x s))))
  /\ HexToAddress (list_byte_of_string "0x1234567890123456789012345678901234567890")
     = 0x1234567890123456789012345678901234567890.
Proof.
  split; [|split; [|split; [|split; [|split]]]].
  - intros a Ha. unfold HexToAddress, Address_Hex. rewrite strip_0x_prefixed.
    unfold len. rewrite length_hex_EncodeToString, length_Address_Bytes. cbn [negb Z.eqb].
    change (Z.of_nat (2 * 20) =? 40) with true. cbn [negb].
    rewrite <- (length_Address_Bytes a) at 1. rewrite hex_Decode_EncodeToString.
    unfold Address_Bytes. rewrite big_SetBytes_fixed_bytes.
    change (256 ^ Z.of_nat 20) with (2 ^ 160). apply Z.mod_small. exact Ha.
  - intros h Hh. unfold HexToHash, Hash_Hex. rewrite strip_0x_prefixed.
    unfold len. rewrite length_hex_EncodeToString, length_Hash_Bytes.
    change (Z.of_nat (2 * 32) =? 64) with true. cbn [negb].
    rewrite <- (length_Hash_Bytes h) at 1. rewrite hex_Decode_EncodeToString.
    unfold Hash_Bytes. rewrite big_SetBytes_fixed_bytes.
    change (256 ^ Z.of_nat 32) with (2 ^ 256). apply Z.mod_small. exact Hh.
  - intros s Hs. unfold HexToAddress.
    destruct (Z.eqb_spec (len (strip_0x s)) 40); [contradiction|reflexivity].
  - intros s Hs. unfold HexToHash.
    destruct (Z.eqb_spec (len (strip_0x s)) 64); [contradiction|reflexivity].
  - intros s Hs. unfold HexToAddress. rewrite Hs. cbn [Z.eqb Pos.eqb negb].
    unfold hex_Decode.
    pose proof (length_hex_decoded _ (strip_0x s) (le_n _)) as Hlen.
    unfold len in Hs.
    rewrite drop_repeat. unfold Address_Bytes. apply fixed_bytes_SetBytes_id.
    rewrite length_app, repeat_length. lia.
  - vm_compute. reflexivity.
Qed.
